(** * BibleHub lexicon importer: fetcher, extractor, writer and crawler

    A shallow embedding of the plugin's core (fetcher.ts, normalize.ts,
    parser/, writer.ts, crawler.ts and the seed normalisation of main.ts)
    and the properties of it that the design document states.

    JavaScript strings are sequences of UTF-16 code units; they are
    modelled as [list N].  Time is a logical millisecond clock ([Z]), the
    vault is a finite map from paths to file contents, and an exception is
    a [Throw] result carrying its message.  The first half of the file
    holds the model, the second half the lemmas and theorems. *)

From Stdlib Require Import ZArith NArith List Bool Lia String Ascii.
From stdpp Require Import gmap list.
Import ListNotations.
Open Scope Z_scope.

(** ** JavaScript strings *)

Module JS.

(** A string is its list of UTF-16 code units. *)
Definition jsstring := list N.

(** ASCII literals of the source, as code units. *)
Definition str (s : string) : jsstring :=
  map N_of_ascii (list_ascii_of_string s).
Arguments str : simpl never.

(** The outcome of a call that may throw: a value, or the message of the
    exception ([e?.message ?? String(e)] at the catch site). *)
Inductive result (A : Type) : Type :=
| Ok (a : A)
| Throw (msg : jsstring).
Arguments Ok {A} a.
Arguments Throw {A} msg.

(** *** Character classes *)

Definition inRange (lo hi c : N) : bool := ((lo <=? c) && (c <=? hi))%N.

(** WhiteSpace and LineTerminator of ECMAScript: what [\s] matches and
    what [trim] removes. *)
Definition isSpace (c : N) : bool :=
  inRange 9 13 c || (c =? 32)%N || (c =? 160)%N || (c =? 5760)%N
  || inRange 8192 8202 c || (c =? 8232)%N || (c =? 8233)%N
  || (c =? 8239)%N || (c =? 8287)%N || (c =? 12288)%N || (c =? 65279)%N.

(** LineTerminator: what [.] does not match. *)
Definition isLineTerminator (c : N) : bool :=
  (c =? 10)%N || (c =? 13)%N || (c =? 8232)%N || (c =? 8233)%N.

Definition isDigit (c : N) : bool := inRange 48 57 c.
Definition isUpper (c : N) : bool := inRange 65 90 c.
Definition isLower (c : N) : bool := inRange 97 122 c.

(** [\w] *)
Definition isWord (c : N) : bool :=
  isUpper c || isLower c || isDigit c || (c =? 95)%N.

(** Case mapping of the ASCII letters. *)
Definition asciiUpper (c : N) : N := if isLower c then (c - 32)%N else c.
Definition asciiLower (c : N) : N := if isUpper c then (c + 32)%N else c.

(** *** String primitives *)

(** [s.startsWith(p)] *)
Fixpoint startsWith (p s : jsstring) : bool :=
  match p, s with
  | [], _ => true
  | _ :: _, [] => false
  | a :: p', b :: s' => (a =? b)%N && startsWith p' s'
  end.

(** The first position of [s], scanning left to right, at which the test
    [here] holds of the text from that position on; [None] when there is
    none ([-1] in the source). *)
Fixpoint firstAt (here : jsstring -> bool) (s : jsstring) : option nat :=
  if here s then Some 0%nat
  else match s with
       | [] => None
       | _ :: t => option_map S (firstAt here t)
       end.

(** [s.indexOf(p)] *)
Definition indexOf (p s : jsstring) : option nat := firstAt (startsWith p) s.

(** [s.includes(p)] *)
Definition includes (p s : jsstring) : bool :=
  match indexOf p s with Some _ => true | None => false end.

(** [s.slice(a, b)] for [0 <= a] and [0 <= b]. *)
Definition slice (a b : nat) (s : jsstring) : jsstring :=
  take (b - a) (drop a s).

(** [s.trimStart()], [s.trimEnd()] and [s.trim()] *)
Fixpoint trimStart (s : jsstring) : jsstring :=
  match s with
  | c :: t => if isSpace c then trimStart t else s
  | [] => []
  end.

Definition trimEnd (s : jsstring) : jsstring := rev (trimStart (rev s)).

Definition trim (s : jsstring) : jsstring := trimEnd (trimStart s).

(** [lines.join(sep)] *)
Fixpoint join (sep : jsstring) (l : list jsstring) : jsstring :=
  match l with
  | [] => []
  | [x] => x
  | x :: t => x ++ sep ++ join sep t
  end.

(** Equality of strings, as [===] on strings. *)
Definition eqb (a b : jsstring) : bool := bool_decide (a = b).

(** *** Code points

    A pattern with the [u] flag reads the input by code points: a high
    surrogate followed by a low surrogate is one code point, every other
    code unit stands for itself. *)

Definition isHighSurrogate (c : N) : bool := inRange 55296 56319 c.
Definition isLowSurrogate (c : N) : bool := inRange 56320 57343 c.

Fixpoint toCodePoints (s : jsstring) : list N :=
  match s with
  | [] => []
  | c :: t =>
      match t with
      | d :: t' =>
          if isHighSurrogate c && isLowSurrogate d
          then ((c - 55296) * 1024 + (d - 56320) + 65536)%N :: toCodePoints t'
          else c :: toCodePoints t
      | [] => [c]
      end
  end.

Definition encodeCodePoint (cp : N) : jsstring :=
  if (65536 <=? cp)%N
  then [(55296 + (cp - 65536) / 1024)%N; (56320 + (cp - 65536) mod 1024)%N]
  else [cp].

Definition fromCodePoints (l : list N) : jsstring := flat_map encodeCodePoint l.

(** *** Numbers and their decimal form *)

(** The decimal digits of [n]: [String(n)] for a non-negative integer
    below 2^53, which JavaScript prints digit by digit. *)
Fixpoint decimalFuel (fuel : nat) (n : N) (acc : jsstring) : jsstring :=
  match fuel with
  | O => acc
  | S f =>
      let acc' := (48 + n mod 10)%N :: acc in
      if (n <? 10)%N then acc' else decimalFuel f (n / 10)%N acc'
  end.

Definition numToString (n : N) : jsstring :=
  decimalFuel (S (N.to_nat (N.log2 n))) n [].

(** The Number values that [parseInt] returns: a non-negative integer
    that is a double, [Infinity], or [NaN]. *)
Inductive number := Int (n : N) | Infinity | NaN.

(** The Number value of a non-negative integer [v]: [v] itself below
    2^53; from there on the nearest double, a multiple [q * 2^e] of a
    power of two with [q] of 53 bits, the even [q] when [v] lies half way
    between two; [Infinity] when that reaches 2^1024. *)
Definition toNumber (v : N) : number :=
  if (v <? 9007199254740992)%N then Int v
  else
    let e := (N.log2 v - 52)%N in
    let q := N.shiftr v e in
    let r := (v - N.shiftl q e)%N in
    let half := N.shiftl 1 (e - 1) in
    let q' := if (half <? r)%N || ((r =? half)%N && N.odd q)
              then (q + 1)%N else q in
    let x := N.shiftl q' e in
    if (N.shiftl 1 1024 <=? x)%N then Infinity else Int x.

(** Whether the decimal [s * 10^j] denotes the double [x]. *)
Definition readsBack (x s : N) (j : nat) : bool :=
  match toNumber (s * 10 ^ N.of_nat j) with
  | Int y => (y =? x)%N
  | _ => false
  end.

(** Number::toString looks for the fewest digits [s] that, followed by
    zeros, denote [x].  With [k] digits, for [x] of [d] digits, the
    candidates are the multiples of [10^(d-k)] next to [x] on either
    side; of two that denote [x] the nearer is taken, the even one when
    they are as near.  The result is [s] and the number of digits of
    [s * 10^(n-k)]. *)
Definition withDigits (x : N) (d k : nat) : option (N * nat) :=
  let j := (d - k)%nat in
  let p := (10 ^ N.of_nat j)%N in
  let lo := (x / p)%N in
  let hi := (lo + 1)%N in
  let below := (lo, d) in
  let above := if (hi =? 10 ^ N.of_nat k)%N
               then ((10 ^ N.of_nat (k - 1))%N, S d) else (hi, d) in
  match readsBack x lo j, readsBack x hi j with
  | true, true =>
      let dl := (x - lo * p)%N in
      let dh := (hi * p - x)%N in
      if (dl <? dh)%N then Some below
      else if (dh <? dl)%N then Some above
      else if N.even lo then Some below else Some above
  | true, false => Some below
  | false, true => Some above
  | false, false => None
  end.

Fixpoint shortest (fuel : nat) (x : N) (d k : nat) : option (N * nat) :=
  match fuel with
  | O => None
  | S f =>
      match withDigits x d k with
      | Some r => Some r
      | None => shortest f x d (S k)
      end
  end.

(** [String(x)]: the digits, followed by zeros, when there are at most 21
    of them; otherwise the first digit, the others after a point, and the
    exponent.  Seventeen digits denote every double.  (Where several
    numerals of the fewest digits denote [x], the language leaves the last
    digit open and recommends the nearest, which is what engines print
    and what is taken here.) *)
Definition numberToString (x : number) : jsstring :=
  match x with
  | NaN => str "NaN"
  | Infinity => str "Infinity"
  | Int n =>
      if (n <? 9007199254740992)%N then numToString n
      else
        match shortest 17 n (length (numToString n)) 1 with
        | None => numToString n
        | Some (s, pos) =>
            let ds := numToString s in
            if (pos <=? 21)%nat then ds ++ repeat 48%N (pos - length ds)
            else
              match ds with
              | [] => []
              | [c] => c :: str "e+" ++ numToString (N.of_nat (pos - 1))
              | c :: t =>
                  c :: 46%N :: t ++ str "e+" ++ numToString (N.of_nat (pos - 1))
              end
        end
  end.

(** [String(z)] for a Number whose value is the integer [z] (for a [z]
    that is not a double, the double nearest to it). *)
Definition intToString (z : Z) : jsstring :=
  if (z <? 0)%Z then 45%N :: numberToString (toNumber (Z.to_N (- z)))
  else numberToString (toNumber (Z.to_N z)).

(** The value of the leading run of digits of [s]. *)
Fixpoint digitsValue (acc : N) (s : jsstring) : N :=
  match s with
  | c :: t => if isDigit c then digitsValue (acc * 10 + (c - 48))%N t else acc
  | [] => acc
  end.

(** [parseInt(s, 10)] on a string that starts with a digit: the Number
    value of its leading run of digits; [NaN] when there is no leading
    digit.  Leading white space and signs, which [parseInt] also accepts,
    do not occur in what the regular expressions of the source
    capture.  The exact value of the digits is rounded; the language
    allows an engine to read the digits after the twentieth as zeros,
    which can move the result to the next double. *)
Definition parseInt (s : jsstring) : number :=
  match s with
  | c :: _ => if isDigit c then toNumber (digitsValue 0 s) else NaN
  | [] => NaN
  end.

(** [String(parseInt(s, 10))] *)
Definition stringOfParseInt (s : jsstring) : jsstring :=
  numberToString (parseInt s).

End JS.
Export JS.

(** ** Regular expressions

    The regular expressions of the source are values of [regex], run by a
    backtracking matcher that follows the ECMAScript matching order:
    alternatives left to right, greedy quantifiers longest first, lazy
    ones shortest first, the leftmost start position first. *)

Module Re.

Inductive regex : Type :=
| Eps
| Chr (p : N -> bool)                                   (* one code unit of a class *)
| Seq (a b : regex)
| Alt (a b : regex)
| Rep (greedy : bool) (lo : nat) (hi : option nat) (a : regex)
                                                        (* a{lo,hi}; [None]: no upper bound *)
| Grp (i : nat) (a : regex)                             (* capture group number i *)
| WordB.                                                (* \b *)

(** Where the matcher stands: the code unit before the position, the
    input from the position on, and the groups captured so far (the
    latest binding of a group first). *)
Record mstate := {
  prev : option N;
  rest : jsstring;
  caps : list (nat * jsstring)
}.

Definition cont := mstate -> option mstate.

Definition wordBefore (s : mstate) : bool :=
  match prev s with Some c => isWord c | None => false end.
Definition wordAfter (s : mstate) : bool :=
  match rest s with c :: _ => isWord c | [] => false end.
Definition atWordBoundary (s : mstate) : bool :=
  xorb (wordBefore s) (wordAfter s).

(** What was consumed between state [s] and a later state [s']. *)
Definition consumed (s s' : mstate) : jsstring :=
  take (length (rest s) - length (rest s')) (rest s).

Definition setCap (i : nat) (v : jsstring) (s : mstate) : mstate :=
  {| prev := prev s; rest := rest s; caps := (i, v) :: caps s |}.

Definition belowMax (count : nat) (hi : option nat) : bool :=
  match hi with Some h => (count <? h)%nat | None => true end.

(** The quantifier loop (RepeatMatcher).  [step] matches the body once.
    Every iteration must consume input, which holds for each quantified
    body of the source; so [S (length input)] rounds of fuel are never
    used up. *)
Fixpoint repLoop (step : cont -> cont) (greedy : bool) (lo : nat)
    (hi : option nat) (k : cont) (fuel count : nat) (s : mstate)
    : option mstate :=
  match fuel with
  | O => None
  | S fuel' =>
      let again (_ : unit) :=
        if belowMax count hi
        then step (fun s' =>
                     if (length (rest s') <? length (rest s))%nat
                     then repLoop step greedy lo hi k fuel' (S count) s'
                     else None) s
        else None in
      let stop (_ : unit) := if (lo <=? count)%nat then k s else None in
      if greedy
      then match again tt with Some r => Some r | None => stop tt end
      else match stop tt with Some r => Some r | None => again tt end
  end.

(** The matcher of [r] from state [s] with continuation [k]. *)
Fixpoint mt (r : regex) (k : cont) (s : mstate) {struct r} : option mstate :=
  match r with
  | Eps => k s
  | Chr p =>
      match rest s with
      | c :: t =>
          if p c then k {| prev := Some c; rest := t; caps := caps s |}
          else None
      | [] => None
      end
  | Seq a b => mt a (mt b k) s
  | Alt a b =>
      match mt a k s with
      | Some r => Some r
      | None => mt b k s
      end
  | Rep greedy lo hi a =>
      repLoop (mt a) greedy lo hi k (S (length (rest s))) 0 s
  | Grp i a => mt a (fun s' => k (setCap i (consumed s s') s')) s
  | WordB => if atWordBoundary s then k s else None
  end.

(** A successful match: where it starts, its text, its groups, and the
    state after it. *)
Record found := {
  index : nat;
  matched : jsstring;
  after : mstate
}.

(** The value of group [i] ([undefined] is [None]). *)
Fixpoint lookupCap (i : nat) (l : list (nat * jsstring)) : option jsstring :=
  match l with
  | [] => None
  | (j, v) :: t => if (i =? j)%nat then Some v else lookupCap i t
  end.

Definition group (i : nat) (m : found) : option jsstring :=
  lookupCap i (caps (after m)).

(** The leftmost match at or after the current position; [pos] is the
    index of that position in the whole input. *)
Fixpoint searchFrom (r : regex) (pos : nat) (pv : option N) (s : jsstring)
    : option found :=
  let s0 := {| prev := pv; rest := s; caps := [] |} in
  match mt r Some s0 with
  | Some s' =>
      Some {| index := pos; matched := consumed s0 s'; after := s' |}
  | None =>
      match s with
      | [] => None
      | c :: t => searchFrom r (S pos) (Some c) t
      end
  end.

(** [s.match(r)] / [r.exec(s)] without the [g] flag. *)
Definition exec (r : regex) (s : jsstring) : option found :=
  searchFrom r 0 None s.

(** [s.search(r)] *)
Definition search (r : regex) (s : jsstring) : option nat :=
  option_map index (exec r s).

(** [s.replace(r, f)] with the [g] flag.  The text that replaces a match
    is [f before matched after], where [before] and [after] are the parts
    of the whole input on either side of the match; [done] is the input
    already scanned.  After an empty match the scan moves on by one code
    unit. *)
Fixpoint replaceFuel (fuel : nat) (r : regex)
    (f : jsstring -> jsstring -> jsstring -> jsstring)
    (done : jsstring) (pv : option N) (s : jsstring) : jsstring :=
  match fuel with
  | O => s
  | S fuel' =>
      match searchFrom r 0 pv s with
      | None => s
      | Some m =>
          let skipped := take (index m) s in
          let new := f (done ++ skipped) (matched m) (rest (after m)) in
          match matched m with
          | [] =>
              match drop (index m) s with
              | [] => skipped ++ new
              | c :: t =>
                  skipped ++ new
                    ++ c :: replaceFuel fuel' r f (done ++ skipped ++ [c]) (Some c) t
              end
          | _ :: _ =>
              skipped ++ new
                ++ replaceFuel fuel' r f (done ++ skipped ++ matched m)
                     (prev (after m)) (rest (after m))
          end
      end
  end.

Definition replaceWith (r : regex)
    (f : jsstring -> jsstring -> jsstring -> jsstring) (s : jsstring)
  : jsstring :=
  replaceFuel (S (length s)) r f [] None s.

(** A replacement text without [$] patterns. *)
Definition replaceAll (r : regex) (repl : jsstring) (s : jsstring) : jsstring :=
  replaceWith r (fun _ _ _ => repl) s.

(** GetSubstitution for a pattern without capture groups: in the
    replacement text [$$] is a dollar sign, [$&] the match, [$`] the text
    before it and [$'] the text after it; any other [$] stands for
    itself. *)
Fixpoint getSubstitution (repl before matched after : jsstring) : jsstring :=
  match repl with
  | [] => []
  | c :: t =>
      if (c =? 36)%N then
        match t with
        | d :: t' =>
            if (d =? 36)%N then 36%N :: getSubstitution t' before matched after
            else if (d =? 38)%N then matched ++ getSubstitution t' before matched after
            else if (d =? 96)%N then before ++ getSubstitution t' before matched after
            else if (d =? 39)%N then after ++ getSubstitution t' before matched after
            else c :: getSubstitution t before matched after
        | [] => [c]
        end
      else c :: getSubstitution t before matched after
  end.

(** [s.replace(r, repl)] with the [g] flag, and [s.replaceAll(p, repl)]
    for a literal [p], with a replacement text. *)
Definition replaceSubst (r : regex) (repl : jsstring) (s : jsstring) : jsstring :=
  replaceWith r (getSubstitution repl) s.

(** [Array.from(s.matchAll(r))]: every match, left to right. *)
Fixpoint matchAllFuel (fuel : nat) (r : regex) (pos : nat)
    (pv : option N) (s : jsstring) : list found :=
  match fuel with
  | O => []
  | S fuel' =>
      match searchFrom r pos pv s with
      | None => []
      | Some m =>
          match matched m with
          | [] =>
              match drop (index m - pos) s with
              | [] => [m]
              | c :: t => m :: matchAllFuel fuel' r (S (index m)) (Some c) t
              end
          | _ :: _ =>
              m :: matchAllFuel fuel' r (index m + length (matched m))
                     (prev (after m)) (rest (after m))
          end
      end
  end.

Definition matchAll (r : regex) (s : jsstring) : list found :=
  matchAllFuel (S (length s)) r 0 None s.

(** *** Building blocks for the patterns of the source *)

Definition only (c : N) : N -> bool := N.eqb c.
(** A letter under the [i] flag. *)
Definition onlyCI (c : N) : N -> bool :=
  fun x => (asciiLower x =? asciiLower c)%N.
Definition anyChar : N -> bool := fun _ => true.             (* [\s\S] *)
Definition dot : N -> bool := fun c => negb (isLineTerminator c).
Definition oneOf (l : jsstring) : N -> bool :=
  fun c => existsb (N.eqb c) l.
Definition noneOf (l : jsstring) : N -> bool :=
  fun c => negb (existsb (N.eqb c) l).

(** A literal text, and a literal text under the [i] flag. *)
Fixpoint lit (s : jsstring) : regex :=
  match s with
  | [] => Eps
  | [c] => Chr (only c)
  | c :: t => Seq (Chr (only c)) (lit t)
  end.

Fixpoint litCI (s : jsstring) : regex :=
  match s with
  | [] => Eps
  | [c] => Chr (onlyCI c)
  | c :: t => Seq (Chr (onlyCI c)) (litCI t)
  end.

Definition star (a : regex) : regex := Rep true 0 None a.
Definition plus (a : regex) : regex := Rep true 1 None a.
Definition opt (a : regex) : regex := Rep true 0 (Some 1%nat) a.
Definition lazyStar (a : regex) : regex := Rep false 0 None a.
Definition between (lo hi : nat) (a : regex) : regex := Rep true lo (Some hi) a.
Definition atLeast (lo : nat) (a : regex) : regex := Rep true lo None a.

Fixpoint seqs (l : list regex) : regex :=
  match l with
  | [] => Eps
  | [a] => a
  | a :: t => Seq a (seqs t)
  end.

End Re.

(** ** fetcher.ts *)

Module Fetcher.

(** [{ at: number; text: string }] *)
Record CacheEntry := { at_ : Z; text : jsstring }.

(** The instance fields of [class Fetcher]. *)
Record t := {
  lastFetchAt : Z;
  cache : gmap jsstring CacheEntry;
  rateLimitMs : Z
}.

(** [new Fetcher(rateLimitMs)] *)
Definition create (ms : Z) : t :=
  {| lastFetchAt := 0; cache := ∅; rateLimitMs := ms |}.

(** [setRateLimit(ms)] *)
Definition setRateLimit (ms : Z) (f : t) : t :=
  {| lastFetchAt := lastFetchAt f; cache := cache f; rateLimitMs := ms |}.

(** What the fetcher asks of its environment, in order: a timer of [ms]
    milliseconds ([setTimeout]) and a network request issued at a given
    clock reading ([requestUrl]). *)
Inductive Event :=
| Sleep (ms : Z)
| Request (url : jsstring) (issuedAt : Z).

(** The network: the reply to a request for [url] issued at time [t]
    (a text, or a rejection) and the time the request takes. *)
Record Net := {
  reply : jsstring -> Z -> result jsstring;
  duration : jsstring -> Z -> Z
}.

(** A call's outcome: what it returned or threw, the fetcher afterwards,
    the clock when the call settled, and the events it caused. *)
Record Outcome := {
  returned : result jsstring;
  fetcher : t;
  clock : Z;
  events : list Event
}.

(** [rateLimit()]: the first [Date.now()] is the argument [now]; the
    timer is taken to fire after exactly the requested delay, so the
    second [Date.now()] reads [now + (rateLimitMs - delta)].  The result
    is the fetcher afterwards, the clock, and the timer it waited for. *)
Definition rateLimit (f : t) (now : Z) : t * Z * list Event :=
  let delta := now - lastFetchAt f in
  let '(now', ev) :=
    if delta <? rateLimitMs f
    then (now + (rateLimitMs f - delta), [Sleep (rateLimitMs f - delta)])
    else (now, []) in
  ({| lastFetchAt := now'; cache := cache f; rateLimitMs := rateLimitMs f |},
   now', ev).

(** [get(url, useCache)], called when the clock reads [now]. *)
Definition get (net : Net) (f : t) (now : Z) (url : jsstring) (useCache : bool)
  : Outcome :=
  match (if useCache then cache f !! url else None) with
  | Some hit =>
      {| returned := Ok (text hit); fetcher := f; clock := now; events := [] |}
  | None =>
      let '(f1, now1, ev) := rateLimit f now in
      let now2 := now1 + duration net url now1 in
      match reply net url now1 with
      | Throw msg =>
          {| returned := Throw msg; fetcher := f1; clock := now2;
             events := ev ++ [Request url now1] |}
      | Ok txt =>
          {| returned := Ok txt;
             fetcher := {| lastFetchAt := lastFetchAt f1;
                           cache := <[url := {| at_ := now2; text := txt |}]> (cache f1);
                           rateLimitMs := rateLimitMs f1 |};
             clock := now2;
             events := ev ++ [Request url now1] |}
      end
  end.

(** The same two methods with the timer left to the environment:
    [wake now ms] is what [Date.now()] reads when the timer of [ms]
    milliseconds, set when the clock read [now], has fired.  [rateLimit]
    and [get] above are the case [wake now ms = now + ms]. *)
Definition rateLimitWith (wake : Z -> Z -> Z) (f : t) (now : Z)
  : t * Z * list Event :=
  let delta := now - lastFetchAt f in
  let '(now', ev) :=
    if delta <? rateLimitMs f
    then (wake now (rateLimitMs f - delta), [Sleep (rateLimitMs f - delta)])
    else (now, []) in
  ({| lastFetchAt := now'; cache := cache f; rateLimitMs := rateLimitMs f |},
   now', ev).

Definition getWith (wake : Z -> Z -> Z) (net : Net) (f : t) (now : Z)
    (url : jsstring) (useCache : bool) : Outcome :=
  match (if useCache then cache f !! url else None) with
  | Some hit =>
      {| returned := Ok (text hit); fetcher := f; clock := now; events := [] |}
  | None =>
      let '(f1, now1, ev) := rateLimitWith wake f now in
      let now2 := now1 + duration net url now1 in
      match reply net url now1 with
      | Throw msg =>
          {| returned := Throw msg; fetcher := f1; clock := now2;
             events := ev ++ [Request url now1] |}
      | Ok txt =>
          {| returned := Ok txt;
             fetcher := {| lastFetchAt := lastFetchAt f1;
                           cache := <[url := {| at_ := now2; text := txt |}]> (cache f1);
                           rateLimitMs := rateLimitMs f1 |};
             clock := now2;
             events := ev ++ [Request url now1] |}
      end
  end.

End Fetcher.

(** ** normalize.ts, and the seed normalisation of main.ts *)

Module Normalize.
Import Re.

(** [type Lang = "greek" | "hebrew"] *)
Inductive Lang := greek | hebrew.

Definition langName (l : Lang) : jsstring :=
  match l with greek => str "greek" | hebrew => str "hebrew" end.

(** [/\b([GH])\s*0*([0-9]{1,5})\b/i] *)
Definition reStrongId : regex :=
  seqs [WordB; Grp 1 (Alt (Chr (onlyCI 71)) (Chr (onlyCI 72)));
        star (Chr isSpace); star (Chr (only 48));
        Grp 2 (between 1 5 (Chr isDigit)); WordB].

(** [/\b0*([0-9]{1,5})\b/] *)
Definition reBareNumber : regex :=
  seqs [WordB; star (Chr (only 48)); Grp 1 (between 1 5 (Chr isDigit)); WordB].

(** The value of a group that took part in the match. *)
Definition grp (i : nat) (m : found) : jsstring :=
  match group i m with Some v => v | None => [] end.

(** [normalizeStrongId(raw, langHint?)]; [None] is [null]. *)
Definition normalizeStrongId (raw : jsstring) (langHint : option Lang)
  : option jsstring :=
  let s := trim raw in
  match exec reStrongId s with
  | Some m1 => Some (map asciiUpper (grp 1 m1) ++ stringOfParseInt (grp 2 m1))
  | None =>
      match exec reBareNumber s, langHint with
      | Some m2, Some hint =>
          let prefix := match hint with greek => str "G" | hebrew => str "H" end in
          Some (prefix ++ stringOfParseInt (grp 1 m2))
      | _, _ => None
      end
  end.

(** [langFromStrong(strong)] *)
Definition langFromStrong (strong : jsstring) : Lang :=
  match strong with
  | c :: _ => if (asciiUpper c =? 71)%N then greek else hebrew
  | [] => hebrew
  end.

(** [strongsUrl(strong)] *)
Definition strongsUrl (strong : jsstring) : jsstring :=
  str "https://biblehub.com/strongs/" ++ langName (langFromStrong strong)
    ++ str "/" ++ drop 1 strong ++ str ".htm".
Arguments strongsUrl : simpl never.

(** [langPageUrl(strong)] *)
Definition langPageUrl (strong : jsstring) : jsstring :=
  str "https://biblehub.com/" ++ langName (langFromStrong strong)
    ++ str "/" ++ drop 1 strong ++ str ".htm".

(** [safeFileName(name)]: the characters backslash, slash, colon, star,
    question mark, double quote, angle brackets and bar are replaced; the
    replacement text is the three code units the source file holds
    between the quotes. *)
Definition safeFileName (name : jsstring) : jsstring :=
  trim (replaceAll (plus (Chr isSpace)) (str " ")
          (replaceAll (Chr (oneOf [92; 47; 58; 42; 63; 34; 60; 62; 124]%N)) [226; 8364; 8221]%N name)).

(** [/biblehub\.com\/strongs\/(greek|hebrew)\/(\d+)\.htm/i] *)
Definition reStrongsUrl : regex :=
  seqs [litCI (str "biblehub.com/strongs/");
        Grp 1 (Alt (litCI (str "greek")) (litCI (str "hebrew")));
        Chr (only 47); Grp 2 (plus (Chr isDigit)); litCI (str ".htm")].

(** [/biblehub\.com\/(greek|hebrew)\/(\d+)\.htm/i] *)
Definition reLangUrl : regex :=
  seqs [litCI (str "biblehub.com/");
        Grp 1 (Alt (litCI (str "greek")) (litCI (str "hebrew")));
        Chr (only 47); Grp 2 (plus (Chr isDigit)); litCI (str ".htm")].

(** [/\b(\d{1,5})\b/] *)
Definition reDigits : regex :=
  seqs [WordB; Grp 1 (between 1 5 (Chr isDigit)); WordB].

(** [m[1].toLowerCase() === "greek" ? "G" : "H"] *)
Definition urlPrefix (lang : jsstring) : jsstring :=
  if eqb (map asciiLower lang) (str "greek") then str "G" else str "H".

(** [normalizeSeedToStrong(seed)] of main.ts; [None] is [null]. *)
Definition normalizeSeedToStrong (seed : jsstring) : option jsstring :=
  let s := trim seed in
  match exec reStrongsUrl s with
  | Some m => Some (urlPrefix (grp 1 m) ++ stringOfParseInt (grp 2 m))
  | None =>
      match exec reLangUrl s with
      | Some m2 => Some (urlPrefix (grp 1 m2) ++ stringOfParseInt (grp 2 m2))
      | None =>
          match normalizeStrongId s None with
          | Some m3 => Some m3
          | None =>
              match exec reDigits s with
              | Some n => normalizeStrongId (grp 1 n) (Some greek)
              | None => None
              end
          end
      end
  end.

End Normalize.

(** ** types.ts *)

Module Types.
Export Normalize.

Inductive EdgeType := see_also | related_strongs | topical.

Inductive LinkType := strongs | scripture.

Inductive SectionKey :=
| lexical_summary
| strongs_definition
| helps
| thayers
| forms_transliterations
| englishmans_concordance
| concordance
| topical_lexicon.

Definition keyName (k : SectionKey) : jsstring :=
  match k with
  | lexical_summary => str "lexical_summary"
  | strongs_definition => str "strongs_definition"
  | helps => str "helps"
  | thayers => str "thayers"
  | forms_transliterations => str "forms_transliterations"
  | englishmans_concordance => str "englishmans_concordance"
  | concordance => str "concordance"
  | topical_lexicon => str "topical_lexicon"
  end.

Record ScriptureRef := {
  slug : jsstring;
  chapter : number;
  verse : number;
  display : jsstring;
  interlinearUrl : jsstring;
  nasbUrl : jsstring
}.

Record Links := {
  l_see_also : list jsstring;
  l_related_strongs : list jsstring;
  l_topical : list jsstring;
  l_scripture : list ScriptureRef
}.

(** [Partial<Record<SectionKey, string>>]: the object's own properties
    in insertion order. *)
Definition Blocks := list (SectionKey * jsstring).

Record LexiconEntry := {
  strong : jsstring;
  lang : Lang;
  lemma : option jsstring;
  transliteration : option jsstring;
  pronunciation : option jsstring;
  phonetic : option jsstring;
  part_of_speech : option jsstring;
  source_primary : jsstring;
  source_alt : list jsstring;
  blocks : Blocks;
  links : Links
}.

Record CrawlResult := {
  created : Z;
  updated : Z;
  skipped : Z;
  errors : list (jsstring * jsstring)
}.

Inductive AliasMode := primary | all.

Record Recipe := {
  id : jsstring;
  includeSections : list SectionKey;
  followEdges : list EdgeType;
  linkTypes : list LinkType;
  linkGreekHebrew : bool;
  lemmaAliasMode : AliasMode;
  maxDepth : Z;
  maxNodes : Z;
  rateLimitMs : Z;
  skipExisting : bool;
  rootFolder : jsstring;
  scriptureRootFolder : jsstring;
  noteTitlePattern : jsstring
}.

Definition SectionKey_eqb (a b : SectionKey) : bool :=
  match a, b with
  | lexical_summary, lexical_summary
  | strongs_definition, strongs_definition
  | helps, helps
  | thayers, thayers
  | forms_transliterations, forms_transliterations
  | englishmans_concordance, englishmans_concordance
  | concordance, concordance
  | topical_lexicon, topical_lexicon => true
  | _, _ => false
  end.

(** [blocks[k]]; [None] is [undefined]. *)
Fixpoint getBlock (k : SectionKey) (b : Blocks) : option jsstring :=
  match b with
  | [] => None
  | (k', v) :: t => if SectionKey_eqb k k' then Some v else getBlock k t
  end.

(** A value is truthy when it is neither [undefined] nor the empty string. *)
Definition truthy (v : option jsstring) : bool :=
  match v with Some (_ :: _) => true | _ => false end.

(** [v ?? empty] *)
Definition orEmpty (v : option jsstring) : jsstring :=
  match v with Some s => s | None => [] end.

(** [Array.from(new Set(arr))]: first occurrences, in order. *)
Fixpoint uniqAcc (seen : list jsstring) (arr : list jsstring) : list jsstring :=
  match arr with
  | [] => []
  | x :: t =>
      if existsb (eqb x) seen then uniqAcc seen t
      else x :: uniqAcc (x :: seen) t
  end.

Definition uniq (arr : list jsstring) : list jsstring := uniqAcc [] arr.

End Types.

(** ** scripture.ts (the pure part) *)

Module Scripture.
Import Types.

(** [s.split("_")] *)
Fixpoint splitOn (sep : N) (cur : jsstring) (s : jsstring) : list jsstring :=
  match s with
  | [] => [rev cur]
  | c :: t => if (c =? sep)%N then rev cur :: splitOn sep [] t
              else splitOn sep (c :: cur) t
  end.

(** [w.charAt(0).toUpperCase() + w.slice(1)], for the ASCII letters, digits
    and underscores a slug consists of. *)
Definition capitalize (w : jsstring) : jsstring :=
  match w with
  | c :: t => asciiUpper c :: t
  | [] => []
  end.

Definition slugToBookName (slug : jsstring) : jsstring :=
  join (str " ") (map capitalize (splitOn 95 [] slug)).

Definition makeScriptureRefFromSlug (slug : jsstring) (chapter verse : number)
  : ScriptureRef :=
  let book := slugToBookName slug in
  {| slug := slug; chapter := chapter; verse := verse;
     display := book ++ str " " ++ numberToString chapter ++ str ":" ++ numberToString verse;
     interlinearUrl := str "https://biblehub.com/interlinear/" ++ slug ++ str "/"
                         ++ numberToString chapter ++ str "-" ++ numberToString verse ++ str ".htm";
     nasbUrl := str "https://biblehub.com/nasb/" ++ slug ++ str "/"
                  ++ numberToString chapter ++ str "-" ++ numberToString verse ++ str ".htm" |}.

End Scripture.

(** ** parser/common.ts and parser/strongs.ts *)

Module Parser.
Import Re Types Scripture.

(** [htmlToText(html)] *)
Definition htmlToText (html : jsstring) : jsstring :=
  let s := replaceAll (seqs [litCI (str "<script"); lazyStar (Chr anyChar);
                             litCI (str "</script>")]) [] html in
  let s := replaceAll (seqs [litCI (str "<style"); lazyStar (Chr anyChar);
                             litCI (str "</style>")]) [] s in
  let s := replaceAll (seqs [litCI (str "<br"); star (Chr isSpace);
                             opt (Chr (only 47)); Chr (only 62)]) [10%N] s in
  let s := replaceAll (litCI (str "</p>")) [10%N] s in
  let s := replaceAll (litCI (str "</div>")) [10%N] s in
  let s := replaceAll (seqs [Chr (only 60); plus (Chr (noneOf [62%N]));
                             Chr (only 62)]) [] s in
  let s := replaceAll (lit (str "&nbsp;")) (str " ") s in
  let s := replaceAll (lit (str "&amp;")) (str "&") s in
  let s := replaceAll (lit (str "&quot;")) [34%N] s in
  let s := replaceAll (lit (str "&#39;")) (str "'") s in
  let s := replaceAll (Chr (only 13)) [] s in
  let s := replaceAll (Seq (plus (Chr (oneOf [32%N; 9%N]))) (Chr (only 10))) [10%N] s in
  let s := replaceAll (atLeast 3 (Chr (only 10))) [10%N; 10%N] s in
  trim s.

(** The pattern of [pickLabel]: the label (its special characters
    escaped), then [\s*:\s*(.+)], under the [i] flag.  The labels of the
    source are ASCII letters and spaces. *)
Definition reLabel (label : jsstring) : regex :=
  seqs [litCI label; star (Chr isSpace); Chr (only 58); star (Chr isSpace);
        Grp 1 (plus (Chr dot))].

(** [pickLabel(text, label)]; [None] is [undefined]. *)
Definition pickLabel (text label : jsstring) : option jsstring :=
  match exec (reLabel label) text with
  | Some m => option_map trim (group 1 m)
  | None => None
  end.

(** [/\bSee\s+([0-9]{1,5})\b/g] *)
Definition reSee : regex :=
  seqs [WordB; lit (str "See"); plus (Chr isSpace);
        Grp 1 (between 1 5 (Chr isDigit)); WordB].

(** [/\b(?:STRONGS?\s* (?:NT|OT)?\s* )?([0-9]{1,5})\b/gi] (written here with
    two blanks that the pattern does not have) *)
Definition reStrongRef : regex :=
  seqs [WordB;
        opt (seqs [litCI (str "STRONG"); opt (Chr (onlyCI 83)); star (Chr isSpace);
                   opt (Alt (litCI (str "NT")) (litCI (str "OT")));
                   star (Chr isSpace)]);
        Grp 1 (between 1 5 (Chr isDigit)); WordB].

(** [/(?:https?:\/\/biblehub\.com)?\/interlinear\/([a-z0-9_]+)\/(\d+)-(\d+)\.htm/gi] *)
Definition reInterlinear : regex :=
  seqs [opt (seqs [litCI (str "http"); opt (Chr (onlyCI 115));
                   litCI (str "://biblehub.com")]);
        litCI (str "/interlinear/");
        Grp 1 (plus (Chr isWord));
        Chr (only 47); Grp 2 (plus (Chr isDigit)); Chr (only 45);
        Grp 3 (plus (Chr isDigit)); litCI (str ".htm")].

(** The ids that [normalizeStrongId] accepts among the first groups of
    the matches. *)
Definition idsOfMatches (ms : list found) (lang : Lang) : list jsstring :=
  omap (fun m => normalizeStrongId (grp 1 m) (Some lang)) ms.

(** [extractStrongRefs(text, lang)] *)
Definition extractStrongRefs (text : jsstring) (lang : Lang) : list jsstring :=
  match text with
  | [] => []
  | _ => idsOfMatches (matchAll reStrongRef text) lang
  end.

Definition refKey (slug : jsstring) (chapter verse : number) : jsstring :=
  slug ++ str ":" ++ numberToString chapter ++ str ":" ++ numberToString verse.

(** The loop of [extractScriptureRefsFromHtml] over the matches. *)
Fixpoint scriptureRefsOf (seen : list jsstring) (ms : list found)
  : list ScriptureRef :=
  match ms with
  | [] => []
  | m :: t =>
      let slug := grp 1 m in
      let chapter := parseInt (grp 2 m) in
      let verse := parseInt (grp 3 m) in
      let key := refKey slug chapter verse in
      if existsb (eqb key) seen then scriptureRefsOf seen t
      else makeScriptureRefFromSlug slug chapter verse
             :: scriptureRefsOf (key :: seen) t
  end.

(** [extractScriptureRefsFromHtml(html)] *)
Definition extractScriptureRefsFromHtml (html : jsstring) : list ScriptureRef :=
  scriptureRefsOf [] (matchAll reInterlinear html).

(** [human(k)]: underscores become spaces, then the first character of
    every word is upper-cased ([/\b\w/g]). *)
Fixpoint capitalizeWords (pv : option N) (s : jsstring) : jsstring :=
  match s with
  | [] => []
  | c :: t =>
      let before := match pv with Some p => isWord p | None => false end in
      (if negb before && isWord c then asciiUpper c else c)
        :: capitalizeWords (Some c) t
  end.

Definition human (k : jsstring) : jsstring :=
  capitalizeWords None (map (fun c => if (c =? 95)%N then 32%N else c) k).

(** [buildLexicalSummaryBlock(fields)] *)
Definition summaryLine (kv : jsstring * option jsstring) : option jsstring :=
  if truthy (snd kv)
  then Some (str "- **" ++ human (fst kv) ++ str ":** " ++ orEmpty (snd kv))
  else None.

Definition buildLexicalSummaryBlock (fields : list (jsstring * option jsstring))
  : jsstring :=
  join [10%N] (omap summaryLine fields).

Section CaseMapping.
(** [String.prototype.toLowerCase], whose Unicode tables are the
    engine's. *)
Variable toLowerCase : jsstring -> jsstring.

(** [extractSectionApprox(text, header, maxChars)] *)
Definition extractSectionApprox (text header : jsstring) (maxChars : nat)
  : jsstring :=
  match indexOf (toLowerCase header) (toLowerCase text) with
  | None => []
  | Some idx => trim (slice idx (idx + maxChars) text)
  end.

(** [a || b] on strings *)
Definition orElse (a b : jsstring) : jsstring :=
  match a with [] => b | _ => a end.

(** [if (!blocks[k]) blocks[k] = empty] for every own key. *)
Definition fillEmpty (b : Blocks) : Blocks :=
  map (fun kv => (fst kv, if truthy (Some (snd kv)) then snd kv else [])) b.

(** [parseStrongsPage(strong, url, html)] *)
Definition parseStrongsPage (strong url html : jsstring) : LexiconEntry :=
  let lang := langFromStrong strong in
  let text := htmlToText html in
  let lemma := pickLabel text (str "Original Word") in
  let transliteration := pickLabel text (str "Transliteration") in
  let phonetic := pickLabel text (str "Phonetic Spelling") in
  let pronunciation := pickLabel text (str "Pronunciation") in
  let part_of_speech := pickLabel text (str "Part of Speech") in
  let definition := pickLabel text (str "Definition") in
  let seeAlso := idsOfMatches (matchAll reSee text) lang in
  let scripture := extractScriptureRefsFromHtml html in
  let blocks := fillEmpty
    [ (lexical_summary,
       buildLexicalSummaryBlock
         [ (str "lemma", lemma); (str "transliteration", transliteration);
           (str "pronunciation", pronunciation); (str "phonetic", phonetic);
           (str "part_of_speech", part_of_speech); (str "definition", definition) ]);
      (strongs_definition, if truthy definition then orEmpty definition else []);
      (helps, extractSectionApprox text (str "HELPS Word-studies") 2000);
      (thayers, extractSectionApprox text (str "Thayer's Greek Lexicon") 3000);
      (forms_transliterations,
       orElse (extractSectionApprox text (str "Forms of") 1200)
              (extractSectionApprox text (str "Forms & Transliterations") 1200));
      (englishmans_concordance,
       extractSectionApprox text (str "Englishman's Concordance") 3000);
      (concordance, extractSectionApprox text (str "Concordance") 2000);
      (topical_lexicon, extractSectionApprox text (str "Topical Lexicon") 2000) ] in
  let related :=
    filter (fun i => i <> strong)
      (uniq (extractStrongRefs (orEmpty (getBlock helps blocks)) lang
             ++ extractStrongRefs (orEmpty (getBlock thayers blocks)) lang
             ++ extractStrongRefs (orEmpty (getBlock strongs_definition blocks)) lang)) in
  {| strong := strong;
     lang := lang;
     lemma := lemma;
     transliteration := transliteration;
     pronunciation := pronunciation;
     phonetic := phonetic;
     part_of_speech := part_of_speech;
     source_primary := url;
     source_alt := [];
     blocks := blocks;
     links := {| l_see_also := uniq seeAlso;
                 l_related_strongs := related;
                 l_topical := [];
                 l_scripture := scripture |} |}.

(** [parseEntryFromStrongsPage] of parser/index.ts *)
Definition parseEntryFromStrongsPage (strong url html : jsstring) : LexiconEntry :=
  parseStrongsPage strong url html.

End CaseMapping.

End Parser.

(** ** The document store

    The vault is the plugin's collaborator; its contract is modelled by a
    finite map from paths to file contents and a set of folders.  The
    operations are those of a store that carries out what it is asked;
    a call that the store rejects for a reason of its own throws in the
    method that awaits it, and [upsert] then returns nothing. *)

Module Vault.

Record t := {
  files : gmap jsstring jsstring;
  folders : gset jsstring
}.

(** What [getAbstractFileByPath] finds. *)
Inductive node := TFile (path : jsstring) | TFolder (path : jsstring).

Definition getAbstractFileByPath (v : t) (path : jsstring) : option node :=
  match files v !! path with
  | Some _ => Some (TFile path)
  | None => if bool_decide (path ∈ folders v) then Some (TFolder path) else None
  end.

(** [adapter.exists(path)] *)
Definition exists_ (v : t) (path : jsstring) : bool :=
  match getAbstractFileByPath v path with Some _ => true | None => false end.

(** [createFolder(path)] *)
Definition createFolder (v : t) (path : jsstring) : t :=
  {| files := files v; folders := {[path]} ∪ folders v |}.

(** [create(path, content)]: rejected when something is at [path]. *)
Definition create (v : t) (path content : jsstring) : result t :=
  match getAbstractFileByPath v path with
  | Some _ => Throw (str "File already exists.")
  | None => Ok {| files := <[path := content]> (files v); folders := folders v |}
  end.

(** [read(file)] *)
Definition read (v : t) (path : jsstring) : jsstring :=
  match files v !! path with Some c => c | None => [] end.

(** [modify(file, content)] *)
Definition modify (v : t) (path content : jsstring) : t :=
  {| files := <[path := content]> (files v); folders := folders v |}.

End Vault.

(** ** writer.ts *)

Module Writer.
Import Re Types Scripture.

(** [s.replace(/^\/+|\/+$/g, empty)]: the slashes at either end go. *)
Fixpoint dropSlashes (s : jsstring) : jsstring :=
  match s with
  | c :: t => if (c =? 47)%N then dropSlashes t else s
  | [] => []
  end.

Definition stripSlashes (s : jsstring) : jsstring :=
  rev (dropSlashes (rev (dropSlashes s))).

Definition includesKey (k : SectionKey) (l : list SectionKey) : bool :=
  existsb (SectionKey_eqb k) l.

Definition includesScripture (l : list LinkType) : bool :=
  existsb (fun t => match t with scripture => true | strongs => false end) l.

(** The marker of a section: an HTML comment naming its key. *)
Definition marker (key : jsstring) : jsstring :=
  str "<!-- imported: " ++ key ++ str " -->".

(** [renderSection(title, key, content)] *)
Definition renderSection (title : jsstring) (key : SectionKey)
    (content : option jsstring) : list jsstring :=
  let block := trim (orEmpty content) in
  [ str "## " ++ title;
    marker (keyName key);
    block;
    [];
    str "---";
    [] ].

(** [/\n##\s+/] *)
Definition reHeading : regex :=
  Seq (lit [10%N; 35%N; 35%N]) (plus (Chr isSpace)).

(** The end of a section's span in [rest], the text that follows its
    marker: the next heading or the next marker, whichever comes first,
    or the end of the text. *)
Definition endRel (rest : jsstring) : nat :=
  let nextHeading := search reHeading rest in
  let nextMarker := indexOf (10%N :: str "<!-- imported:") rest in
  match nextHeading, nextMarker with
  | Some h, Some m => Nat.min h m
  | Some h, None => h
  | None, Some m => m
  | None, None => length rest
  end.

(** [replaceImportedBlock(doc, key, replacement)] *)
Definition replaceImportedBlock (doc key replacement : jsstring) : jsstring :=
  let marker := marker key in
  match indexOf marker doc with
  | None => doc
  | Some idx =>
      let afterMarker := (idx + length marker)%nat in
      let rest := drop afterMarker doc in
      let end_ := (afterMarker + endRel rest)%nat in
      take afterMarker doc ++ [10%N]
        ++ (match trim replacement with
            | [] => [10%N]
            | r => r ++ [10%N]
            end)
        ++ drop end_ doc
  end.

(** The loop of [mergeIntoFile] over the recipe's sections. *)
Definition mergeText (original : jsstring) (entry : LexiconEntry)
    (recipe : Recipe) : jsstring :=
  fold_left
    (fun text section =>
       replaceImportedBlock text (keyName section)
         (orEmpty (getBlock section (blocks entry))))
    (includeSections recipe) original.

(** [linkifyScriptureRefs(text, refs)]: each reference's display text,
    between word boundaries, becomes a wikilink. *)
Definition linkifyScriptureRefs (text : jsstring) (refs : list ScriptureRef)
  : jsstring :=
  fold_left
    (fun out r =>
       match display r with
       | [] => out
       | d => replaceSubst (seqs [WordB; lit d; WordB]) (str "[[" ++ d ++ str "]]") out
       end)
    refs text.

(** [scriptureLinkPath(recipe, ref)] *)
Definition scriptureLinkPath (recipe : Recipe) (ref : ScriptureRef) : jsstring :=
  let book := slugToBookName (slug ref) in
  let folder := stripSlashes (scriptureRootFolder recipe) in
  folder ++ str "/" ++ book ++ str "/" ++ numberToString (chapter ref)
    ++ str "-" ++ numberToString (verse ref).

Definition wikilink (i : jsstring) : jsstring := str "[[" ++ i ++ str "]]".
Definition yamlItem (l : jsstring) : jsstring := str "  - " ++ [34%N] ++ l ++ [34%N].

Definition sectionTitle (k : SectionKey) : jsstring :=
  match k with
  | lexical_summary => str "Lexical Summary"
  | strongs_definition => str "Strong's Definition"
  | helps => str "HELPS Word-studies"
  | thayers => str "Thayer's Lexicon"
  | forms_transliterations => str "Forms & Transliterations"
  | englishmans_concordance => str "Englishman's Concordance"
  | concordance => str "Concordance"
  | topical_lexicon => str "Topical Lexicon"
  end.

Definition sectionOrder : list SectionKey :=
  [ lexical_summary; strongs_definition; helps; thayers;
    forms_transliterations; englishmans_concordance; concordance;
    topical_lexicon ].

Definition langText (l : Lang) : jsstring := langName l.

(** The blocks as [renderNew] writes them: when scripture links are on
    and the entry has references, every non-empty block is linkified. *)
Definition renderedBlocks (entry : LexiconEntry) (recipe : Recipe) : Blocks :=
  if includesScripture (linkTypes recipe)
     && negb (Nat.eqb (length (l_scripture (links entry))) 0)
  then map (fun kv =>
              (fst kv,
               if truthy (Some (snd kv))
               then linkifyScriptureRefs (snd kv) (l_scripture (links entry))
               else snd kv))
           (blocks entry)
  else blocks entry.

Section Env.
(** [normalizePath] of the host application. *)
Variable normalizePath : jsstring -> jsstring.
(** [new Date().toISOString().slice(0, 10)] *)
Variable today : jsstring.

(** [buildTitle(entry, recipe)] *)
Definition buildTitle (entry : LexiconEntry) (recipe : Recipe) : jsstring :=
  let fill (s : jsstring) :=
    replaceSubst (lit (str "{{short_definition}}")) []
      (replaceSubst (lit (str "{{transliteration}}")) (orEmpty (transliteration entry))
         (replaceSubst (lit (str "{{lemma}}")) (orEmpty (lemma entry))
            (replaceSubst (lit (str "{{strong}}")) (strong entry) s))) in
  trim (safeFileName (fill (noteTitlePattern recipe))).

(** [filePath(title, recipe)] *)
Definition filePath (title : jsstring) (recipe : Recipe) : jsstring :=
  let folder := stripSlashes (rootFolder recipe) in
  normalizePath (folder ++ str "/" ++ title ++ str ".md").

(** [ensureFolder(recipe)] *)
Definition ensureFolder (v : Vault.t) (recipe : Recipe) : Vault.t :=
  let folder := normalizePath (stripSlashes (rootFolder recipe)) in
  if Vault.exists_ v folder then v else Vault.createFolder v folder.

(** The front matter of [renderNew]. *)
Definition renderYaml (entry : LexiconEntry) (recipe : Recipe) : jsstring :=
  let links_see_also := map wikilink (l_see_also (links entry)) in
  let links_related := map wikilink (l_related_strongs (links entry)) in
  let links_topical := map wikilink (l_topical (links entry)) in
  let links_scripture :=
    map (fun r => str "[[" ++ scriptureLinkPath recipe r ++ str "|" ++ display r ++ str "]]")
        (l_scripture (links entry)) in
  join [10%N]
    ([ str "---";
       str "type: lexicon/strongs";
       str "lang: " ++ langText (lang entry);
       str "strong: " ++ strong entry;
       [];
       str "lemma: " ++ orEmpty (lemma entry);
       str "transliteration: " ++ orEmpty (transliteration entry);
       str "pronunciation: " ++ orEmpty (pronunciation entry);
       str "phonetic: " ++ orEmpty (phonetic entry);
       str "part_of_speech: " ++ orEmpty (part_of_speech entry);
       [];
       str "aliases:";
       str "  - " ++ strong entry ]
     ++ (if truthy (transliteration entry)
         then [str "  - " ++ orEmpty (transliteration entry)] else [])
     ++ [ [];
          str "source_primary: " ++ source_primary entry;
          str "source_alt:" ]
     ++ map (fun u => str "  - " ++ u) (source_alt entry)
     ++ [ [];
          str "imported_at: " ++ today;
          str "import_recipe: " ++ id recipe;
          [];
          str "sections_included:" ]
     ++ map (fun s => str "  - " ++ keyName s) (includeSections recipe)
     ++ [ []; str "links_see_also:" ]
     ++ map yamlItem links_see_also
     ++ [ str "links_related_strongs:" ]
     ++ map yamlItem links_related
     ++ [ str "links_topical:" ]
     ++ map yamlItem links_topical
     ++ [ str "links_scripture:" ]
     ++ map yamlItem links_scripture
     ++ [ [];
          str "crawl_depth: " ++ intToString (maxDepth recipe);
          str "crawl_root: " ++ strong entry;
          str "---";
          [] ]).

(** The lines of the enabled sections, in the canonical order. *)
Definition renderSections (entry : LexiconEntry) (recipe : Recipe)
  : list jsstring :=
  let blocks := renderedBlocks entry recipe in
  flat_map (fun k => renderSection (sectionTitle k) k (getBlock k blocks))
    (List.filter (fun k => includesKey k (includeSections recipe)) sectionOrder).

(** The body of [renderNew]. *)
Definition renderBody (entry : LexiconEntry) (recipe : Recipe) : jsstring :=
  let links_see_also := map wikilink (l_see_also (links entry)) in
  let links_related := map wikilink (l_related_strongs (links entry)) in
  let links_topical := map wikilink (l_topical (links entry)) in
  let links_scripture :=
    map (fun r => str "[[" ++ scriptureLinkPath recipe r ++ str "|" ++ display r ++ str "]]")
        (l_scripture (links entry)) in
  let titleLine :=
    trim (str "# " ++ strong entry ++ [32%N; 8212%N; 32%N] ++ orEmpty (lemma entry)
            ++ str " (" ++ orEmpty (transliteration entry) ++ str ")") in
  join [10%N]
    ([ titleLine;
       [];
       str "> **Part of Speech:** " ++ orEmpty (part_of_speech entry) ++ str "  ";
       str "> **Pronunciation:** " ++ orEmpty (pronunciation entry) ++ str "  ";
       str "> **Primary source:** " ++ source_primary entry;
       [];
       str "---";
       [] ]
     ++ renderSections entry recipe
     ++ [ [];
          str "---";
          [];
          str "## Outbound Links";
          [];
          str "**See also (direct Strong's cross-refs):**  ";
          join (str ", ") links_see_also;
          [];
          str "**Related Strong's (lexical / semantic):**  ";
          join (str ", ") links_related;
          [];
          str "**Topical connections:**  ";
          join (str ", ") links_topical;
          [];
          str "**Scripture references:**  ";
          (if includesScripture (linkTypes recipe)
           then join (str ", ") links_scripture else []);
          [] ]).

(** [renderNew(entry, recipe)] *)
Definition renderNew (entry : LexiconEntry) (recipe : Recipe) : jsstring :=
  renderYaml entry recipe ++ renderBody entry recipe.

(** [mergeIntoFile(file, entry, recipe)] *)
Definition mergeIntoFile (v : Vault.t) (path : jsstring)
    (entry : LexiconEntry) (recipe : Recipe) : Vault.t :=
  let original := Vault.read v path in
  Vault.modify v path (mergeText original entry recipe).

(** [upsert(entry, recipe, renameOnUpdate)]: the vault afterwards, the
    path of the file and whether it was created. *)
Definition upsert (v : Vault.t) (entry : LexiconEntry) (recipe : Recipe)
    (renameOnUpdate : bool) : result (Vault.t * jsstring * bool) :=
  let v := ensureFolder v recipe in
  let title := buildTitle entry recipe in
  let path := filePath title recipe in
  match Vault.getAbstractFileByPath v path with
  | Some (Vault.TFile _) =>
      Ok (mergeIntoFile v path entry recipe, path, false)
  | _ =>
      let content := renderNew entry recipe in
      match Vault.create v path content with
      | Ok v' => Ok (v', path, true)
      | Throw msg => Throw msg
      end
  end.

End Env.

End Writer.

(** ** crawler.ts *)

Module Crawler.
Import Re Types.

(** [type QueueItem = { strong: string; depth: number }] *)
Record QueueItem := { qstrong : jsstring; depth : Z }.

(** [Map<string, string>]: lemma to Strong's id. *)
Abbreviation LemmaIndex := (gmap jsstring jsstring).

(** [replaceTokenWithLink(text, token, link)] *)
Definition replaceTokenWithLink (text token link : jsstring) : jsstring :=
  replaceSubst (lit token) link text.

(** [Object.values(blocks)] *)
Definition blockValues (b : Blocks) : list jsstring := map snd b.

(** [nextNodes(entry, edgeTypes)] *)
Definition nextNodes (entry : LexiconEntry) (edgeTypes : list EdgeType)
  : list jsstring :=
  uniq (flat_map (fun et =>
                    match et with
                    | see_also => l_see_also (links entry)
                    | related_strongs => l_related_strongs (links entry)
                    | topical => l_topical (links entry)
                    end) edgeTypes).

Section Scripts.
(** [\p{Script=Greek}] and [\p{Script=Hebrew}] on code points; the
    Unicode script tables are the engine's. *)
Variable isGreek isHebrew : N -> bool.

(** [text.match(/[\p{Script=...}]+/gu) ?? []] *)
Definition matchScript (p : N -> bool) (text : jsstring) : list jsstring :=
  map (fun m => fromCodePoints (matched m))
      (matchAll (plus (Chr p)) (toCodePoints text)).

(** [extractGreekHebrewTokens(text)] *)
Definition extractGreekHebrewTokens (text : jsstring) : list jsstring :=
  let greek := matchScript isGreek text in
  let hebrew := matchScript isHebrew text in
  uniq (List.filter (fun t => (2 <=? length t)%nat) (greek ++ hebrew)).

(** The linking loop of [applyLemmaLinks]: the blocks with every
    resolved token rewritten into a wikilink, and the tokens that
    resolved ([lemmasFound]). *)
Definition linkToken (token : jsstring) (b : Blocks) : Blocks :=
  map (fun kv =>
         (fst kv,
          if truthy (Some (snd kv))
          then replaceTokenWithLink (snd kv) token (str "[[" ++ token ++ str "]]")
          else snd kv)) b.

Fixpoint linkTokens (lemmaIndex : LemmaIndex) (tokens : list jsstring)
    (b : Blocks) (found : list jsstring) : Blocks * list jsstring :=
  match tokens with
  | [] => (b, found)
  | token :: rest =>
      if truthy (lemmaIndex !! token)
      then linkTokens lemmaIndex rest (linkToken token b)
             (if existsb (eqb token) found then found else found ++ [token])
      else linkTokens lemmaIndex rest b found
  end.

Definition linkLemmas (entry : LexiconEntry) (lemmaIndex : LemmaIndex)
  : Blocks * list jsstring :=
  let tokens := extractGreekHebrewTokens (join [10%N] (blockValues (blocks entry))) in
  linkTokens lemmaIndex tokens (blocks entry) [].

Definition withBlocks (entry : LexiconEntry) (b : Blocks) : LexiconEntry :=
  {| strong := strong entry; lang := lang entry; lemma := lemma entry;
     transliteration := transliteration entry;
     pronunciation := pronunciation entry; phonetic := phonetic entry;
     part_of_speech := part_of_speech entry;
     source_primary := source_primary entry; source_alt := source_alt entry;
     blocks := b; links := links entry |}.

(** *** The run

    The crawler is constructed with a vault, a fetcher and a writer.
    What reaches them is a parameter here: each operation takes the
    world (vault, fetcher, network, clock) and gives the world
    afterwards with what it returned or threw. *)

Variable World : Type.
(** [fetcher.setRateLimit(ms)] *)
Variable setRateLimit : Z -> World -> World.
(** [buildLemmaIndex(rootFolder)], which reads every note of the folder *)
Variable buildLemmaIndex : World -> jsstring -> World * result LemmaIndex.
(** whether [findExistingByStrongIdFallback(strong, recipe)] finds a note *)
Variable findExistingByStrongIdFallback : World -> jsstring -> Recipe -> bool.
(** [fetcher.get(url, useCache)] *)
Variable fetcherGet : World -> jsstring -> bool -> World * result jsstring.
(** [parseEntryFromStrongsPage(strong, url, html)]: the entry, or the
    exception that leaves it *)
Variable parseEntryFromStrongsPage :
  jsstring -> jsstring -> jsstring -> result LexiconEntry.
(** [ensureAliasForStrong(strong, lemma, recipe)] *)
Variable ensureAliasForStrong :
  World -> jsstring -> jsstring -> Recipe -> World * result unit.
(** [writer.upsert(entry, recipe, renameOnUpdate)]: whether it created *)
Variable writerUpsert :
  World -> LexiconEntry -> Recipe -> bool -> World * result bool.
(** [ensureScriptureNote(vault, fetcher, rootFolder, ref, related)] *)
Variable ensureScriptureNote :
  World -> jsstring -> ScriptureRef -> list jsstring -> World * result unit.

(** A sequence of awaited calls, left to right, up to the first that
    throws. *)
Fixpoint forEachAwait {A : Type} (f : World -> A -> World * result unit)
    (w : World) (l : list A) : World * result unit :=
  match l with
  | [] => (w, Ok tt)
  | x :: t =>
      match f w x with
      | (w', Ok _) => forEachAwait f w' t
      | (w', Throw msg) => (w', Throw msg)
      end
  end.

(** [applyLemmaLinks(entry, lemmaIndex, recipe)] *)
Definition applyLemmaLinks (w : World) (entry : LexiconEntry)
    (lemmaIndex : LemmaIndex) (recipe : Recipe) : World * result LexiconEntry :=
  let '(b, lemmasFound) := linkLemmas entry lemmaIndex in
  let '(w', r) :=
    match lemmaAliasMode recipe, lemmasFound with
    | all, _ :: _ =>
        forEachAwait
          (fun w lemma =>
             match lemmaIndex !! lemma with
             | Some (c :: s) => ensureAliasForStrong w (c :: s) lemma recipe
             | _ => (w, Ok tt)
             end) w lemmasFound
    | _, _ =>
        if truthy (lemma entry)
        then ensureAliasForStrong w (strong entry) (orEmpty (lemma entry)) recipe
        else (w, Ok tt)
    end in
  match r with
  | Ok _ => (w', Ok (withBlocks entry b))
  | Throw msg => (w', Throw msg)
  end.

(** What the run does that the properties speak of. *)
Inductive Event :=
| Fetched (strong url : jsstring)          (* [fetcher.get] for a node *)
| Enqueued (strong : jsstring) (d : Z).    (* [q.push] *)

(** The variables of [run] while its loop runs. *)
Record LoopState := {
  q : list QueueItem;
  seen : gset jsstring;
  processed : Z;
  res : CrawlResult;
  lemmaIndex : LemmaIndex;
  world : World;
  trace : list Event
}.

Definition addCreated (r : CrawlResult) : CrawlResult :=
  {| created := created r + 1; updated := updated r;
     skipped := skipped r; errors := errors r |}.
Definition addUpdated (r : CrawlResult) : CrawlResult :=
  {| created := created r; updated := updated r + 1;
     skipped := skipped r; errors := errors r |}.
Definition addSkipped (r : CrawlResult) : CrawlResult :=
  {| created := created r; updated := updated r;
     skipped := skipped r + 1; errors := errors r |}.
Definition addError (i msg : jsstring) (r : CrawlResult) : CrawlResult :=
  {| created := created r; updated := updated r;
     skipped := skipped r; errors := errors r ++ [(i, msg)] |}.

(** The body of the [try] block for the item [(strong, d)]: the state
    it leaves, and the message of the exception that ended it, if one
    did.  What was assigned before the exception stays assigned. *)
Definition tryBody (recipe : Recipe) (renameOnUpdate : bool)
    (strong : jsstring) (d : Z) (st : LoopState) : LoopState * option jsstring :=
  let url := strongsUrl strong in
  let '(w1, r1) := fetcherGet (world st) url true in
  let tr1 := trace st ++ [Fetched strong url] in
  match r1 with
  | Throw msg =>
      ({| q := q st; seen := seen st; processed := processed st; res := res st;
          lemmaIndex := lemmaIndex st; world := w1; trace := tr1 |}, Some msg)
  | Ok html =>
    match parseEntryFromStrongsPage strong url html with
    | Throw msg =>
      ({| q := q st; seen := seen st; processed := processed st; res := res st;
          lemmaIndex := lemmaIndex st; world := w1; trace := tr1 |}, Some msg)
    | Ok entry =>
      let idx :=
        if truthy (lemma entry)
        then <[orEmpty (lemma entry) := Types.strong entry]> (lemmaIndex st)
        else lemmaIndex st in
      let '(w2, r2) :=
        if linkGreekHebrew recipe
        then applyLemmaLinks w1 entry idx recipe
        else (w1, Ok entry) in
      match r2 with
      | Throw msg =>
          ({| q := q st; seen := seen st; processed := processed st; res := res st;
              lemmaIndex := idx; world := w2; trace := tr1 |}, Some msg)
      | Ok entry =>
          let '(w3, r3) := writerUpsert w2 entry recipe renameOnUpdate in
          match r3 with
          | Throw msg =>
              ({| q := q st; seen := seen st; processed := processed st;
                  res := res st; lemmaIndex := idx; world := w3; trace := tr1 |},
               Some msg)
          | Ok wasCreated =>
              let res3 := if wasCreated then addCreated (res st)
                          else addUpdated (res st) in
              let '(w4, r4) :=
                match Writer.includesScripture (linkTypes recipe),
                      l_scripture (links entry) with
                | true, _ :: _ =>
                    let related :=
                      map Writer.wikilink
                        (uniq (Types.strong entry :: l_related_strongs (links entry))) in
                    forEachAwait
                      (fun w ref =>
                         ensureScriptureNote w (scriptureRootFolder recipe) ref related)
                      w3 (l_scripture (links entry))
                | _, _ => (w3, Ok tt)
                end in
              match r4 with
              | Throw msg =>
                  ({| q := q st; seen := seen st; processed := processed st;
                      res := res3; lemmaIndex := idx; world := w4; trace := tr1 |},
                   Some msg)
              | Ok _ =>
                  let pushed :=
                    if d <? maxDepth recipe
                    then map (fun next => {| qstrong := next; depth := d + 1 |})
                           (List.filter (fun next => negb (bool_decide (next ∈ seen st)))
                              (nextNodes entry (followEdges recipe)))
                    else [] in
                  ({| q := q st ++ pushed; seen := seen st;
                      processed := processed st; res := res3;
                      lemmaIndex := idx; world := w4;
                      trace := tr1 ++ map (fun i => Enqueued (qstrong i) (depth i)) pushed |},
                   None)
              end
          end
      end
    end
  end.

(** One round of the [while] loop; [None] when its condition is false. *)
Definition step (recipe : Recipe) (renameOnUpdate : bool) (st : LoopState)
  : option LoopState :=
  match q st with
  | [] => None
  | item :: rest =>
      if processed st <? maxNodes recipe then
        let strong := qstrong item in
        if bool_decide (strong ∈ seen st) then
          Some {| q := rest; seen := seen st; processed := processed st;
                  res := res st; lemmaIndex := lemmaIndex st;
                  world := world st; trace := trace st |}
        else
          let seen' := {[strong]} ∪ seen st in
          if findExistingByStrongIdFallback (world st) strong recipe
             && skipExisting recipe
          then
            Some {| q := rest; seen := seen'; processed := processed st + 1;
                    res := addSkipped (res st); lemmaIndex := lemmaIndex st;
                    world := world st; trace := trace st |}
          else
            let '(st', thrown) :=
              tryBody recipe renameOnUpdate strong (depth item)
                {| q := rest; seen := seen'; processed := processed st;
                   res := res st; lemmaIndex := lemmaIndex st;
                   world := world st; trace := trace st |} in
            let res' :=
              match thrown with
              | Some msg => addError strong msg (res st')
              | None => res st'
              end in
            Some {| q := q st'; seen := seen st'; processed := processed st' + 1;
                    res := res'; lemmaIndex := lemmaIndex st';
                    world := world st'; trace := trace st' |}
      else None
  end.

(** The [while] loop, for at most [fuel] rounds; [None] when the fuel
    runs out before the loop ends. *)
Fixpoint loop (recipe : Recipe) (renameOnUpdate : bool) (fuel : nat)
    (st : LoopState) : option LoopState :=
  match step recipe renameOnUpdate st with
  | None => Some st
  | Some st' =>
      match fuel with
      | O => None
      | S fuel' => loop recipe renameOnUpdate fuel' st'
      end
  end.

(** The state in which the loop starts. *)
Definition initial (rootStrong : jsstring) (idx : LemmaIndex) (w : World)
  : LoopState :=
  {| q := [{| qstrong := rootStrong; depth := 0 |}];
     seen := ∅; processed := 0;
     res := {| created := 0; updated := 0; skipped := 0; errors := [] |};
     lemmaIndex := idx; world := w;
     trace := [Enqueued rootStrong 0] |}.

(** [run(rootStrong, recipe, renameOnUpdate)]: the final state of the
    loop, whose [res] is returned, or the exception that left [run];
    [None] when the fuel runs out. *)
Definition run (rootStrong : jsstring) (recipe : Recipe)
    (renameOnUpdate : bool) (w : World) (fuel : nat)
  : option (result LoopState) :=
  let w0 := setRateLimit (rateLimitMs recipe) w in
  match buildLemmaIndex w0 (rootFolder recipe) with
  | (_, Throw msg) => Some (Throw msg)
  | (w1, Ok idx) =>
      option_map Ok (loop recipe renameOnUpdate fuel (initial rootStrong idx w1))
  end.

End Scripts.

Arguments Build_LoopState {World}.
Arguments q {World}.
Arguments seen {World}.
Arguments processed {World}.
Arguments res {World}.
Arguments lemmaIndex {World}.
Arguments world {World}.
Arguments trace {World}.
Arguments initial {World}.

End Crawler.

(** ** Notions the properties are stated with *)

Module Spec.
Import Re Types.

(** *** The matcher *)

(** The state after the matcher has read [xs]. *)
Definition advance (st : mstate) (xs : jsstring) : mstate :=
  {| prev := match last xs with Some c => Some c | None => prev st end;
     rest := drop (length xs) (rest st);
     caps := caps st |}.

(** The longest prefix whose code units are all in the class [p]. *)
Fixpoint classPrefix (p : N -> bool) (s : jsstring) : jsstring :=
  match s with
  | c :: t => if p c then c :: classPrefix p t else []
  | [] => []
  end.


(** [n] steps of a relation on matcher states. *)
Fixpoint iter (R : mstate -> mstate -> Prop) (n : nat) (s s' : mstate) : Prop :=
  match n with
  | O => s' = s
  | S n' => exists m, R s m /\ iter R n' m s'
  end.

Definition withinMax (n : nat) (hi : option nat) : Prop :=
  match hi with Some h => (n <= h)%nat | None => True end.

(** What it means for a pattern to match between two states: the first is
    where the match starts, the second where it ends, with the groups it
    captured on the way. *)
Fixpoint matches (r : regex) : mstate -> mstate -> Prop :=
  match r with
  | Eps => fun s s' => s' = s
  | Chr p =>
      fun s s' =>
        exists c t, rest s = c :: t /\ p c = true
                    /\ s' = {| prev := Some c; rest := t; caps := caps s |}
  | Seq a b => fun s s' => exists m, matches a s m /\ matches b m s'
  | Alt a b => fun s s' => matches a s s' \/ matches b s s'
  | Rep _ lo hi a =>
      fun s s' =>
        exists n, (lo <= n)%nat /\ withinMax n hi /\ iter (matches a) n s s'
  | Grp i a =>
      fun s s' => exists m, matches a s m /\ s' = setCap i (consumed s m) m
  | WordB => fun s s' => atWordBoundary s = true /\ s' = s
  end.

(** A maximal run of the class [p] in a text: a non-empty stretch of
    characters of the class with no character of the class next to it on
    either side. *)
Definition maximalRun (p : N -> bool) (text run : list N) : Prop :=
  run <> []
  /\ forallb p run = true
  /\ exists before after,
       text = before ++ run ++ after
       /\ match last before with Some c => p c = false | None => True end
       /\ match after with c :: _ => p c = false | [] => True end.

(** *** Strong's ids *)

(** A canonical id: the letter G or H and the decimal numeral, without
    leading zeros, of a number of at most five digits. *)
Definition strongId (id : jsstring) : Prop :=
  exists p n : N,
    (p = 71 \/ p = 72)%N /\ (n < 100000)%N /\ id = p :: numToString n.

(** *** Pages *)

(** The label occurs in the text, the case of ASCII letters apart. *)
Definition occursCI (label text : jsstring) : Prop :=
  exists before w after,
    text = before ++ w ++ after /\ map asciiLower w = map asciiLower label.

(** The headers under which [parseStrongsPage] looks for the text of a
    section; the first two sections are made of the labelled fields. *)
Definition sectionHeaders (k : SectionKey) : list jsstring :=
  match k with
  | lexical_summary | strongs_definition => []
  | helps => [str "HELPS Word-studies"]
  | thayers => [str "Thayer's Greek Lexicon"]
  | forms_transliterations => [str "Forms of"; str "Forms & Transliterations"]
  | englishmans_concordance => [str "Englishman's Concordance"]
  | concordance => [str "Concordance"]
  | topical_lexicon => [str "Topical Lexicon"]
  end.

(** *** The fetcher *)

(** The delay [rateLimit] asks for when called at [now]. *)
Definition waitOf (f : Fetcher.t) (now : Z) : Z :=
  if now - Fetcher.lastFetchAt f <? Fetcher.rateLimitMs f
  then Fetcher.rateLimitMs f - (now - Fetcher.lastFetchAt f) else 0.

(** A call of [get] that is awaited: how long after the call before it
    has settled it is made, and its arguments. *)
Record Call := { pause : N; callUrl : jsstring; callCache : bool }.

(** What a sequence of awaited calls on one fetcher asks of its
    environment, [await get(...); ...; await get(...)] as the crawler
    makes them: each call is made when the one before it has settled, or
    later, never while it is under way.  [now] is the clock at the
    start, [wake] the timer. *)
Fixpoint session (wake : Z -> Z -> Z) (net : Fetcher.Net) (f : Fetcher.t)
    (now : Z) (calls : list Call) : list Fetcher.Event :=
  match calls with
  | [] => []
  | c :: rest =>
      let o := Fetcher.getWith wake net f (now + Z.of_N (pause c)) (callUrl c)
                 (callCache c) in
      Fetcher.events o
        ++ session wake net (Fetcher.fetcher o) (Fetcher.clock o) rest
  end.

(** A timer that fires exactly when it is due. *)
Definition punctual (now ms : Z) : Z := now + ms.

(** When the requests among the events were issued. *)
Definition requestTimes (evs : list Fetcher.Event) : list Z :=
  omap (fun e => match e with
                 | Fetcher.Request _ t => Some t
                 | Fetcher.Sleep _ => None
                 end) evs.

(** Each time is at least [gap] after the one before it, the first at
    least [gap] after [prev]. *)
Fixpoint spaced (gap prev : Z) (times : list Z) : Prop :=
  match times with
  | [] => True
  | t :: rest => prev + gap <= t /\ spaced gap t rest
  end.

(** *** Documents *)

(** A heading starts here: a line feed, two hash signs and white space
    (what [/\n##\s+/] matches at this position). *)
Definition headingHere (s : jsstring) : bool :=
  match s with
  | c1 :: c2 :: c3 :: w :: _ =>
      (c1 =? 10)%N && (c2 =? 35)%N && (c3 =? 35)%N && isSpace w
  | _ => false
  end.

(** A marker line starts here. *)
Definition markerHere (s : jsstring) : bool :=
  startsWith (10%N :: str "<!-- imported:") s.

(** A section's span ends here: at the next heading or marker line. *)
Definition boundaryHere (s : jsstring) : bool :=
  headingHere s || markerHere s.

(** The span of the section [key] in a document: the text between the
    end of its marker (the marker's first occurrence) and the end
    boundary that the merge computes. *)
Definition sectionSpan (doc key : jsstring) : option jsstring :=
  match indexOf (Writer.marker key) doc with
  | None => None
  | Some idx =>
      let afterMarker := (idx + length (Writer.marker key))%nat in
      Some (take (Writer.endRel (drop afterMarker doc)) (drop afterMarker doc))
  end.

(** The block of the section [key] in a document: its span, trimmed. *)
Definition blockOf (doc key : jsstring) : option jsstring :=
  option_map trim (sectionSpan doc key).

(** *** File names *)

(** Every run of white space becomes one space. *)
Fixpoint squeeze (s : jsstring) : jsstring :=
  match s with
  | [] => []
  | c :: t =>
      if isSpace c then
        match t with
        | d :: _ => if isSpace d then squeeze t else 32%N :: squeeze t
        | [] => [32%N]
        end
      else c :: squeeze t
  end.

(** A name that can stand in a path: none of the characters backslash,
    slash, colon, star, question mark, double quote, angle brackets and
    bar; no white space but single spaces between other characters. *)
Definition cleanName (f : jsstring) : Prop :=
  (forall c, In c [92; 47; 58; 42; 63; 34; 60; 62; 124]%N -> ~ In c f)
  /\ (forall c, In c f -> isSpace c = true -> c = 32%N)
  /\ (forall a b, f <> a ++ [32; 32]%N ++ b)
  /\ trim f = f.

(** *** Rendered notes *)

(** What every marker begins with. *)
Definition markerPrefix : jsstring := str "<!-- imported:".

(** A text without line feed. *)
Definition lineText (p : jsstring) : Prop :=
  forallb (fun c => negb (c =? 10)%N) p = true.

(** No occurrence of [p] starts within [a], whatever text follows [a]. *)
Definition clearOf (p a : jsstring) : Prop :=
  forall (j : nat) (r : jsstring),
    (j < length a)%nat -> startsWith p (drop j (a ++ r)) = false.

(** A block that cannot be taken for the frame of a section: the marker
    prefix does not occur in it and none of its lines is a second-level
    heading. *)
Definition plainBlock (b : jsstring) : Prop :=
  includes markerPrefix b = false
  /\ firstAt headingHere ([10%N] ++ b ++ [10%N]) = None.

(** The rule that [renderSection] puts after a block. *)
Definition rule : jsstring := [10%N] ++ str "---" ++ [10%N].

(** What may stand between a block and the next heading: nothing, a
    rule, or the rule of the last section and the rule that follows the
    sections. *)
Definition isGap (g : jsstring) : Prop :=
  g = [] \/ g = rule \/ g = rule ++ [10%N] ++ rule.

(** A section as it stands in a note: its heading, its marker, its block
    and the gap up to the next heading. *)
Definition secText (k : SectionKey) (block gap : jsstring) : jsstring :=
  [10%N] ++ str "## " ++ Writer.sectionTitle k ++ [10%N]
    ++ Writer.marker (keyName k) ++ [10%N] ++ block ++ [10%N] ++ gap.

(** A note: what precedes the sections, the sections with their blocks
    and gaps, and what follows them. *)
Definition noteOf (pre : jsstring) (ks : list SectionKey)
    (block gap : SectionKey -> jsstring) (tail : jsstring) : jsstring :=
  pre ++ flat_map (fun k => secText k (block k) (gap k)) ks ++ tail.

(** The gaps once the section [k] has been merged. *)
Definition closeGap (k : SectionKey) (gap : SectionKey -> jsstring)
  : SectionKey -> jsstring :=
  fun k' => if SectionKey_eqb k' k then [] else gap k'.

(** The gaps of a new note: a rule after every block, and the rule that
    follows the sections after the last of them. *)
Definition newGaps (ks : list SectionKey) : SectionKey -> jsstring :=
  fun k =>
    match last ks with
    | Some l => if SectionKey_eqb k l then rule ++ [10%N] ++ rule else rule
    | None => rule
    end.

(** The sections that [renderNew] writes, in its order. *)
Definition enabledKeys (recipe : Recipe) : list SectionKey :=
  List.filter (fun k => Writer.includesKey k (includeSections recipe))
    Writer.sectionOrder.

(** The block of a section in the first rendering, and the block that a
    merge puts there. *)
Definition firstBlock (entry : LexiconEntry) (recipe : Recipe)
    (k : SectionKey) : jsstring :=
  trim (orEmpty (getBlock k (Writer.renderedBlocks entry recipe))).

Definition mergedBlock (entry : LexiconEntry) (k : SectionKey) : jsstring :=
  trim (orEmpty (getBlock k (blocks entry))).

(** A new note up to its first section: the front matter, the title and
    the callout. *)
Definition preamble (today : jsstring) (entry : LexiconEntry)
    (recipe : Recipe) : jsstring :=
  Writer.renderYaml today entry recipe
  ++ flat_map (fun l => l ++ [10%N])
       [ trim (str "# " ++ strong entry ++ [32%N; 8212%N; 32%N]
                 ++ orEmpty (lemma entry)
                 ++ str " (" ++ orEmpty (transliteration entry) ++ str ")");
         [];
         str "> **Part of Speech:** " ++ orEmpty (part_of_speech entry) ++ str "  ";
         str "> **Pronunciation:** " ++ orEmpty (pronunciation entry) ++ str "  ";
         str "> **Primary source:** " ++ source_primary entry;
         [];
         str "---" ].

(** *** The crawl *)

(** What a crawler is constructed with and runs in: the world and the
    operations of [Crawler] that reach it, and the script tables. *)
Record Env := {
  World : Type;
  isGreek : N -> bool;
  isHebrew : N -> bool;
  setRateLimit : Z -> World -> World;
  buildLemmaIndex : World -> jsstring -> World * result (gmap jsstring jsstring);
  findExisting : World -> jsstring -> Recipe -> bool;
  fetcherGet : World -> jsstring -> bool -> World * result jsstring;
  parse : jsstring -> jsstring -> jsstring -> result LexiconEntry;
  ensureAlias : World -> jsstring -> jsstring -> Recipe -> World * result unit;
  writerUpsert : World -> LexiconEntry -> Recipe -> bool -> World * result bool;
  ensureNote :
    World -> jsstring -> ScriptureRef -> list jsstring -> World * result unit
}.

Abbreviation State E := (Crawler.LoopState (World E)).

Definition applyLemmaLinksE (E : Env) :=
  Crawler.applyLemmaLinks (isGreek E) (isHebrew E) (World E) (ensureAlias E).

Definition tryBodyE (E : Env) :=
  Crawler.tryBody (isGreek E) (isHebrew E) (World E) (fetcherGet E) (parse E)
    (ensureAlias E) (writerUpsert E) (ensureNote E).

Definition stepE (E : Env) :=
  Crawler.step (isGreek E) (isHebrew E) (World E) (findExisting E)
    (fetcherGet E) (parse E) (ensureAlias E) (writerUpsert E) (ensureNote E).

Definition loopE (E : Env) :=
  Crawler.loop (isGreek E) (isHebrew E) (World E) (findExisting E)
    (fetcherGet E) (parse E) (ensureAlias E) (writerUpsert E) (ensureNote E).

Definition runE (E : Env) :=
  Crawler.run (isGreek E) (isHebrew E) (World E) (setRateLimit E)
    (buildLemmaIndex E) (findExisting E) (fetcherGet E) (parse E)
    (ensureAlias E) (writerUpsert E) (ensureNote E).

(** The states a run passes through, round by round. *)
Inductive reaches (E : Env) (recipe : Recipe) (renameOnUpdate : bool)
    (st : State E) : State E -> Prop :=
| reaches_here : reaches E recipe renameOnUpdate st st
| reaches_step st1 st2 :
    reaches E recipe renameOnUpdate st st1 ->
    stepE E recipe renameOnUpdate st1 = Some st2 ->
    reaches E recipe renameOnUpdate st st2.

(** The state in which the [try] block of a round is entered: the item
    has been taken off the queue and marked as visited. *)
Definition entering {W : Type} (st : Crawler.LoopState W)
    (item : Crawler.QueueItem) (rest : list Crawler.QueueItem)
  : Crawler.LoopState W :=
  {| Crawler.q := rest;
     Crawler.seen := {[Crawler.qstrong item]} ∪ Crawler.seen st;
     Crawler.processed := Crawler.processed st;
     Crawler.res := Crawler.res st;
     Crawler.lemmaIndex := Crawler.lemmaIndex st;
     Crawler.world := Crawler.world st;
     Crawler.trace := Crawler.trace st |}.

(** The three ways a round of the loop goes. *)
Inductive round (E : Env) (recipe : Recipe) (renameOnUpdate : bool)
    (st st' : State E) : Prop :=
| Discard item rest :
    Crawler.q st = item :: rest ->
    Crawler.qstrong item ∈ Crawler.seen st ->
    st' = {| Crawler.q := rest; Crawler.seen := Crawler.seen st;
             Crawler.processed := Crawler.processed st;
             Crawler.res := Crawler.res st;
             Crawler.lemmaIndex := Crawler.lemmaIndex st;
             Crawler.world := Crawler.world st;
             Crawler.trace := Crawler.trace st |} ->
    round E recipe renameOnUpdate st st'
| Skip item rest :
    Crawler.q st = item :: rest ->
    Crawler.qstrong item ∉ Crawler.seen st ->
    findExisting E (Crawler.world st) (Crawler.qstrong item) recipe
      && skipExisting recipe = true ->
    st' = {| Crawler.q := rest;
             Crawler.seen := {[Crawler.qstrong item]} ∪ Crawler.seen st;
             Crawler.processed := Crawler.processed st + 1;
             Crawler.res := Crawler.addSkipped (Crawler.res st);
             Crawler.lemmaIndex := Crawler.lemmaIndex st;
             Crawler.world := Crawler.world st;
             Crawler.trace := Crawler.trace st |} ->
    round E recipe renameOnUpdate st st'
| Visit item rest stb thrown :
    Crawler.q st = item :: rest ->
    Crawler.qstrong item ∉ Crawler.seen st ->
    findExisting E (Crawler.world st) (Crawler.qstrong item) recipe
      && skipExisting recipe = false ->
    tryBodyE E recipe renameOnUpdate (Crawler.qstrong item) (Crawler.depth item)
      (entering st item rest) = (stb, thrown) ->
    st' = {| Crawler.q := Crawler.q stb; Crawler.seen := Crawler.seen stb;
             Crawler.processed := Crawler.processed stb + 1;
             Crawler.res :=
               match thrown with
               | Some msg =>
                   Crawler.addError (Crawler.qstrong item) msg (Crawler.res stb)
               | None => Crawler.res stb
               end;
             Crawler.lemmaIndex := Crawler.lemmaIndex stb;
             Crawler.world := Crawler.world stb;
             Crawler.trace := Crawler.trace stb |} ->
    round E recipe renameOnUpdate st st'.

(** The ids the run called the fetcher for, and what it enqueued, in
    order. *)
Definition fetchedIds (tr : list Crawler.Event) : list jsstring :=
  omap (fun e => match e with
                 | Crawler.Fetched s _ => Some s
                 | Crawler.Enqueued _ _ => None
                 end) tr.

Definition enqueued (tr : list Crawler.Event) : list (jsstring * Z) :=
  omap (fun e => match e with
                 | Crawler.Enqueued s d => Some (s, d)
                 | Crawler.Fetched _ _ => None
                 end) tr.

(** No number is followed, at any distance, by a smaller one. *)
Fixpoint rising (l : list Z) : Prop :=
  match l with
  | [] => True
  | x :: t => Forall (fun y => x <= y) t /\ rising t
  end.

(** Every id fetched so far is in the visited set, and none was fetched
    twice. *)
Definition fetchedOnce {W : Type} (st : Crawler.LoopState W) : Prop :=
  NoDup (fetchedIds (Crawler.trace st))
  /\ forall s, s ∈ fetchedIds (Crawler.trace st) -> s ∈ Crawler.seen st.

(** The budget invariant: counters, queue depths and what was enqueued. *)
Definition withinBudget {W : Type} (recipe : Recipe) (st : Crawler.LoopState W)
  : Prop :=
  let r := Crawler.res st in
  0 <= Crawler.processed st <= maxNodes recipe
  /\ 0 <= created r /\ 0 <= updated r /\ 0 <= skipped r
  /\ created r + updated r + skipped r <= Crawler.processed st
  /\ Z.of_nat (length (errors r)) <= Crawler.processed st
  /\ Crawler.processed st
     <= created r + updated r + skipped r + Z.of_nat (length (errors r))
  /\ Forall (fun i => 0 <= Crawler.depth i <= maxDepth recipe) (Crawler.q st)
  /\ Forall (fun e => 0 <= snd e <= maxDepth recipe)
            (enqueued (Crawler.trace st)).

(** The call of the [try] block that throws [msg] for the item [strong],
    if one does: the fetch, the parsing, the lemma linking, the upsert, or
    the creation of a scripture note. *)
Definition bodyThrows (E : Env) (recipe : Recipe) (renameOnUpdate : bool)
    (strong : jsstring) (st : State E) (msg : jsstring) : Prop :=
  let url := strongsUrl strong in
  match fetcherGet E (Crawler.world st) url true with
  | (_, Throw m) => m = msg
  | (w1, Ok html) =>
    match parse E strong url html with
    | Throw m => m = msg
    | Ok entry =>
      let idx :=
        if truthy (lemma entry)
        then <[orEmpty (lemma entry) := Types.strong entry]> (Crawler.lemmaIndex st)
        else Crawler.lemmaIndex st in
      match (if linkGreekHebrew recipe
             then applyLemmaLinksE E w1 entry idx recipe
             else (w1, Ok entry)) with
      | (_, Throw m) => m = msg
      | (w2, Ok entry) =>
          match writerUpsert E w2 entry recipe renameOnUpdate with
          | (_, Throw m) => m = msg
          | (w3, Ok _) =>
              match Writer.includesScripture (linkTypes recipe),
                    l_scripture (links entry) with
              | true, _ :: _ =>
                  let related :=
                    map Writer.wikilink
                      (uniq (Types.strong entry :: l_related_strongs (links entry))) in
                  match Crawler.forEachAwait (World E)
                          (fun w ref =>
                             ensureNote E w (scriptureRootFolder recipe) ref related)
                          w3 (l_scripture (links entry)) with
                  | (_, Throw m) => m = msg
                  | (_, Ok _) => False
                  end
              | _, _ => False
              end
          end
      end
    end
  end.

End Spec.
Export Spec.

(** ** A small world for examples

    The collaborators of the repository's crawler test: a fetcher that
    answers every request, a parser that returns the edges of a fixed
    graph, a writer that always creates.  Variants fail where an example
    needs a failure. *)

Module Demo.
Import Types.

(** A network whose every request takes 800 ms and answers with the text
    [ok]. *)
Definition slowNet : Fetcher.Net :=
  {| Fetcher.reply := fun _ _ => Ok (str "ok");
     Fetcher.duration := fun _ _ => 800 |}.

(** A fetcher that has cached the text [old] for the address [a]. *)
Definition staleFetcher : Fetcher.t :=
  {| Fetcher.lastFetchAt := 100;
     Fetcher.cache := {[ str "a" := {| Fetcher.at_ := 900; Fetcher.text := str "old" |} ]};
     Fetcher.rateLimitMs := 1000 |}.

(** Greek letters alpha to omega and Hebrew letters alef to tav, which
    are of the Greek and the Hebrew script. *)
Definition greekLetter (c : N) : bool :=
  inRange 913 929 c || inRange 931 937 c || inRange 945 969 c.
Definition hebrewLetter (c : N) : bool := inRange 1488 1514 c.

(** [makeEntry(strong, seeAlso)] of the crawler test. *)
Definition makeEntry (strong : jsstring) (seeAlso : list jsstring) : LexiconEntry :=
  {| strong := strong; lang := langFromStrong strong;
     lemma := None; transliteration := None; pronunciation := None;
     phonetic := None; part_of_speech := None;
     source_primary := strongsUrl strong; source_alt := [];
     blocks := [];
     links := {| l_see_also := seeAlso; l_related_strongs := [];
                 l_topical := []; l_scripture := [] |} |}.

(** The graph G1 -> G2, G3 and G2 -> G4. *)
Definition graphParse (strong url html : jsstring) : LexiconEntry :=
  if eqb strong (str "G1") then makeEntry strong [str "G2"; str "G3"]
  else if eqb strong (str "G2") then makeEntry strong [str "G4"]
  else makeEntry strong [].

(** A parser that breaks on the page of G2. *)
Definition parseBreaks (strong url html : jsstring) : result LexiconEntry :=
  if eqb strong (str "G2") then Throw (str "Cannot read properties of null")
  else Ok (graphParse strong url html).

(** The world is the list of requested URLs, latest first. *)
Definition envWith (fetch : list jsstring -> jsstring -> bool
                            -> list jsstring * result jsstring)
    (parser : jsstring -> jsstring -> jsstring -> result LexiconEntry)
    (index : list jsstring -> jsstring
             -> list jsstring * result (gmap jsstring jsstring)) : Env :=
  {| World := list jsstring;
     isGreek := greekLetter;
     isHebrew := hebrewLetter;
     setRateLimit := fun _ w => w;
     buildLemmaIndex := index;
     findExisting := fun _ _ _ => false;
     fetcherGet := fetch;
     parse := parser;
     ensureAlias := fun w _ _ _ => (w, Ok tt);
     writerUpsert := fun w _ _ _ => (w, Ok true);
     ensureNote := fun w _ _ _ => (w, Ok tt) |}.

Definition env (fetch : list jsstring -> jsstring -> bool
                        -> list jsstring * result jsstring)
    (index : list jsstring -> jsstring
             -> list jsstring * result (gmap jsstring jsstring)) : Env :=
  envWith fetch (fun s u h => Ok (graphParse s u h)) index.

Definition fetchOk (w : list jsstring) (url : jsstring) (useCache : bool)
  : list jsstring * result jsstring :=
  (url :: w, Ok (str "<html></html>")).

(** A fetcher whose requests are all rejected. *)
Definition fetchDown (w : list jsstring) (url : jsstring) (useCache : bool)
  : list jsstring * result jsstring :=
  (url :: w, Throw (str "net::ERR_FAILED")).

Definition indexOk (w : list jsstring) (root : jsstring)
  : list jsstring * result (gmap jsstring jsstring) := (w, Ok ∅).

(** A vault in which reading a note fails. *)
Definition indexFails (w : list jsstring) (root : jsstring)
  : list jsstring * result (gmap jsstring jsstring) :=
  (w, Throw (str "ENOENT")).

Definition good : Env := env fetchOk indexOk.
Definition offline : Env := env fetchDown indexOk.
Definition unreadable : Env := env fetchOk indexFails.
Definition garbled : Env := envWith fetchOk parseBreaks indexOk.

(** The recipe of the crawler test. *)
Definition recipe (depth nodes : Z) : Recipe :=
  {| id := str "test-recipe";
     includeSections := [lexical_summary];
     followEdges := [see_also];
     linkTypes := [];
     linkGreekHebrew := false;
     lemmaAliasMode := primary;
     maxDepth := depth;
     maxNodes := nodes;
     rateLimitMs := 0;
     skipExisting := false;
     rootFolder := str "Test/Lexicon";
     scriptureRootFolder := str "Scripture";
     noteTitlePattern := str "{{strong}}" |}.

(** The Hebrew word av (alef, bet), an entry of a Greek word whose
    strongs_definition section quotes it, and a lemma index that holds
    a note for it. *)
Definition av : jsstring := [1488; 1489]%N.

Definition greekEntry : LexiconEntry :=
  {| strong := str "G5"; lang := langFromStrong (str "G5");
     lemma := None; transliteration := None; pronunciation := None;
     phonetic := None; part_of_speech := None;
     source_primary := strongsUrl (str "G5"); source_alt := [];
     blocks := [(strongs_definition, str "Of Hebrew origin, " ++ av ++ str "; father")];
     links := {| l_see_also := []; l_related_strongs := [];
                 l_topical := []; l_scripture := [] |} |}.

Definition avIndex : gmap jsstring jsstring := {[ av := str "H1" ]}.

(** A recipe that writes two sections and links scripture references,
    and two entries of the word G26: one without scripture references,
    one whose HELPS section quotes the verse it refers to. *)
Definition noteRecipe : Recipe :=
  {| id := str "notes";
     includeSections := [helps; lexical_summary];
     followEdges := [];
     linkTypes := [scripture];
     linkGreekHebrew := false;
     lemmaAliasMode := primary;
     maxDepth := 1;
     maxNodes := 10;
     rateLimitMs := 0;
     skipExisting := false;
     rootFolder := str "Lexicon";
     scriptureRootFolder := str "Scripture";
     noteTitlePattern := str "{{strong}}" |}.

Definition noteEntry (helpsText : jsstring) (refs : list ScriptureRef)
  : LexiconEntry :=
  {| strong := str "G26"; lang := langFromStrong (str "G26");
     lemma := Some (str "agape"); transliteration := Some (str "agape");
     pronunciation := None; phonetic := None;
     part_of_speech := Some (str "Noun, Feminine");
     source_primary := strongsUrl (str "G26"); source_alt := [];
     blocks := [(lexical_summary, str "- **Lemma:** agape");
                (helps, helpsText)];
     links := {| l_see_also := [str "G25"]; l_related_strongs := [];
                 l_topical := []; l_scripture := refs |} |}.

Definition plainEntry : LexiconEntry :=
  noteEntry (str "love, which centers in moral preference") [].

Definition verseEntry : LexiconEntry :=
  noteEntry (str "see John 3:16 here")
    [Scripture.makeScriptureRefFromSlug (str "john") (Int 3) (Int 16)].




Definition emptyVault : Vault.t := {| Vault.files := ∅; Vault.folders := ∅ |}.

(** The vault and the path after an upsert ([normalizePath] leaves these
    paths as they are). *)
Definition upsertInto (v : Vault.t) (today : jsstring) (entry : LexiconEntry)
  : Vault.t * jsstring :=
  match Writer.upsert (fun p => p) today v entry noteRecipe false with
  | Ok (v', p, _) => (v', p)
  | Throw _ => (v, [])
  end.

Definition createdNote (entry : LexiconEntry) : Vault.t * jsstring :=
  upsertInto emptyVault (str "2024-05-01") entry.

Definition mergedNote (entry : LexiconEntry) : Vault.t * jsstring :=
  upsertInto (fst (createdNote entry)) (str "2024-05-02") entry.

(** The last state of a run of at most [fuel] rounds (the first state,
    should the fuel run out). *)
Definition lastState (E : Env) (r : Recipe) (root : jsstring) (w : World E)
    (fuel : nat) : State E :=
  let st := Crawler.initial root ∅ w in
  match loopE E r false fuel st with
  | Some final => final
  | None => st
  end.

End Demo.

(** * Properties *)

(** ** The fetcher *)

Section FetcherFacts.
Import Fetcher.
Variable net : Net.

Lemma get_hit (f : t) (now : Z) (url : jsstring) (hit : CacheEntry) :
  cache f !! url = Some hit ->
  get net f now url true =
    {| returned := Ok (text hit); fetcher := f; clock := now; events := [] |}.
Proof. intros H. unfold get. rewrite H. reflexivity. Qed.

Lemma get_miss (f : t) (now : Z) (url : jsstring) (useCache : bool) :
  useCache = false \/ cache f !! url = None ->
  let o := get net f now url useCache in
  let issued := now + waitOf f now in
  events o =
    (if now - lastFetchAt f <? rateLimitMs f
     then [Sleep (rateLimitMs f - (now - lastFetchAt f))] else [])
      ++ [Request url issued]
  /\ lastFetchAt (fetcher o) = issued
  /\ clock o = issued + duration net url issued
  /\ returned o = reply net url issued
  /\ rateLimitMs (fetcher o) = rateLimitMs f
  /\ cache (fetcher o) =
       match reply net url issued with
       | Ok txt => <[url := {| at_ := clock o; text := txt |}]> (cache f)
       | Throw _ => cache f
       end.
Proof.
  intros Hmiss. cbv zeta. unfold get, waitOf.
  assert (Hc : (if useCache then cache f !! url else None) = None).
  { destruct Hmiss as [-> | Hn]; [reflexivity|]. destruct useCache; auto. }
  rewrite Hc. unfold rateLimit.
  destruct (now - lastFetchAt f <? rateLimitMs f) eqn:Hd; cbn;
    rewrite ?Z.add_0_r;
    destruct (reply net url _) eqn:Hr; cbn; rewrite ?Hr; repeat split; reflexivity.
Qed.

End FetcherFacts.

(** C1, as the code has it.  A call [get(url, useCache)] at clock [now]:
    with [useCache] set and an entry cached for [url], the entry's text is
    returned at once, with no timer and no request, and the fetcher is left
    as it was; otherwise, when less than the minimum interval has passed
    since the last recorded timestamp, the call waits exactly the remaining
    difference, and the new timestamp is the clock at the end of that wait,
    when the request is issued -- not the clock when the request completes,
    which is later by the time the request takes. *)
Theorem get_cache_hit_or_rate_limited_fetch :
  forall (net : Fetcher.Net) (f : Fetcher.t) (now : Z) (url : jsstring)
         (useCache : bool),
    let o := Fetcher.get net f now url useCache in
    let delta := now - Fetcher.lastFetchAt f in
    let wait := if delta <? Fetcher.rateLimitMs f
                then Fetcher.rateLimitMs f - delta else 0 in
    (forall hit, useCache = true /\ Fetcher.cache f !! url = Some hit ->
       Fetcher.returned o = Ok (Fetcher.text hit)
       /\ Fetcher.events o = []
       /\ Fetcher.clock o = now
       /\ Fetcher.fetcher o = f)
    /\ (useCache = false \/ Fetcher.cache f !! url = None ->
        Fetcher.events o =
          (if delta <? Fetcher.rateLimitMs f
           then [Fetcher.Sleep (Fetcher.rateLimitMs f - delta)] else [])
            ++ [Fetcher.Request url (now + wait)]
        /\ Fetcher.lastFetchAt (Fetcher.fetcher o) = now + wait
        /\ Fetcher.clock o = now + wait + Fetcher.duration net url (now + wait)).
Proof.
  intros net f now url useCache. cbv zeta. split.
  - intros hit [-> Hhit]. rewrite (get_hit net f now url hit Hhit). cbn. auto.
  - intros Hmiss. pose proof (get_miss net f now url useCache Hmiss) as H.
    cbv zeta in H. unfold waitOf in H. destruct H as (He & Hl & Hc & _).
    auto.
Qed.

(** C1 as stated fails.  With a minimum interval of 1000 ms, a first fetch
    issued at clock 5000 completes at 5800, yet the recorded timestamp is
    5000; a second call made at once, at 5800, waits 200 ms only, so the
    800 ms the first fetch took were taken off the delay of the call that
    follows. *)
Lemma last_fetch_recorded_before_request :
  let o := Fetcher.get Demo.slowNet (Fetcher.create 1000) 5000 (str "a") true in
  Fetcher.clock o = 5800
  /\ Fetcher.lastFetchAt (Fetcher.fetcher o) = 5000
  /\ Fetcher.lastFetchAt (Fetcher.fetcher o) <> Fetcher.clock o
  /\ Fetcher.events
       (Fetcher.get Demo.slowNet (Fetcher.fetcher o) (Fetcher.clock o) (str "b") true)
     = [Fetcher.Sleep 200; Fetcher.Request (str "b") 6000].
Proof. vm_compute. repeat split; discriminate. Qed.

(** C10.  A call [get(url, false)] does not read the cache: whatever the
    cache holds for [url], it issues a request, and what it returns or
    throws is the network's reply to that request.  When the reply is a
    text, the call has stored that text in the cache under [url], in
    place of what was there, so a following [get(url, true)], at any time
    and on any network, returns that text with no timer and no request.
    When the request is rejected the cache is left as it was. *)
Theorem cache_bypass_still_writes :
  forall (net : Fetcher.Net) (f : Fetcher.t) (now : Z) (url : jsstring),
    let o := Fetcher.get net f now url false in
    let delta := now - Fetcher.lastFetchAt f in
    let issued := now + (if delta <? Fetcher.rateLimitMs f
                         then Fetcher.rateLimitMs f - delta else 0) in
    In (Fetcher.Request url issued) (Fetcher.events o)
    /\ Fetcher.returned o = Fetcher.reply net url issued
    /\ (forall txt,
          Fetcher.reply net url issued = Ok txt ->
          Fetcher.cache (Fetcher.fetcher o) !! url
          = Some {| Fetcher.at_ := Fetcher.clock o; Fetcher.text := txt |}
          /\ (forall url', url' <> url ->
                Fetcher.cache (Fetcher.fetcher o) !! url' = Fetcher.cache f !! url')
          /\ forall (net' : Fetcher.Net) (now' : Z),
               Fetcher.get net' (Fetcher.fetcher o) now' url true
               = {| Fetcher.returned := Ok txt; Fetcher.fetcher := Fetcher.fetcher o;
                    Fetcher.clock := now'; Fetcher.events := [] |})
    /\ (forall msg,
          Fetcher.reply net url issued = Throw msg ->
          Fetcher.cache (Fetcher.fetcher o) = Fetcher.cache f).
Proof.
  intros net f now url. cbv zeta.
  pose proof (get_miss net f now url false (or_introl eq_refl)) as H.
  cbv zeta in H. unfold waitOf in H. destruct H as (He & _ & _ & Hr & _ & Hc).
  split; [rewrite He; apply in_or_app; right; left; reflexivity|].
  split; [exact Hr|]. split.
  - intros txt Hreply. rewrite Hreply in Hc.
    assert (Hl : Fetcher.cache (Fetcher.fetcher (Fetcher.get net f now url false)) !! url
                 = Some {| Fetcher.at_ := Fetcher.clock (Fetcher.get net f now url false);
                           Fetcher.text := txt |}).
    { rewrite Hc. apply lookup_insert_eq. }
    split; [exact Hl|]. split.
    + intros url' Hne. rewrite Hc. apply lookup_insert_ne. congruence.
    + intros net' now'. rewrite (get_hit net' _ now' url _ Hl). reflexivity.
  - intros msg Hreply. rewrite Hreply in Hc. exact Hc.
Qed.

(** C10 on a fetcher whose cache holds an older text for the address: the
    call that bypasses the cache returns the new text, and so does the
    call that reads the cache afterwards. *)
Lemma cache_bypass_still_writes_witness :
  Fetcher.get Demo.slowNet Demo.staleFetcher 5000 (str "a") true
  = {| Fetcher.returned := Ok (str "old"); Fetcher.fetcher := Demo.staleFetcher;
       Fetcher.clock := 5000; Fetcher.events := [] |}
  /\ Fetcher.returned (Fetcher.get Demo.slowNet Demo.staleFetcher 5000 (str "a") false)
     = Ok (str "ok")
  /\ Fetcher.get Demo.slowNet
       (Fetcher.fetcher (Fetcher.get Demo.slowNet Demo.staleFetcher 5000 (str "a") false))
       9000 (str "a") true
     = {| Fetcher.returned := Ok (str "ok");
          Fetcher.fetcher :=
            Fetcher.fetcher
              (Fetcher.get Demo.slowNet Demo.staleFetcher 5000 (str "a") false);
          Fetcher.clock := 9000; Fetcher.events := [] |}.
Proof.
  destruct (cache_bypass_still_writes Demo.slowNet Demo.staleFetcher 5000 (str "a"))
    as (_ & Hret & Hok & _).
  split; [reflexivity|]. split; [exact Hret|].
  destruct (Hok (str "ok") eq_refl) as (_ & _ & Hnext). apply Hnext.
Defined.

(** ** Strings and searches *)

Section StringFacts.
Local Open Scope nat_scope.

Lemma startsWith_app (p t : jsstring) : startsWith p (p ++ t) = true.
Proof. induction p as [|c p IH]; cbn; [reflexivity|]. rewrite N.eqb_refl. exact IH. Qed.

Lemma startsWith_inv (p s : jsstring) :
  startsWith p s = true -> s = p ++ drop (length p) s.
Proof.
  revert s. induction p as [|c p IH]; intros s H; cbn in *; [reflexivity|].
  destruct s as [|d s]; [discriminate|].
  apply andb_true_iff in H. destruct H as [Hc Hp].
  apply N.eqb_eq in Hc. subst d. cbn. f_equal. apply IH, Hp.
Qed.

Lemma startsWith_iff (p s : jsstring) :
  startsWith p s = true <-> take (length p) s = p.
Proof.
  split; intros H.
  - apply startsWith_inv in H. rewrite H at 1. apply take_app_length.
  - rewrite <- (take_drop (length p) s), H. apply startsWith_app.
Qed.

Lemma startsWith_length (p s : jsstring) :
  startsWith p s = true -> length p <= length s.
Proof.
  intros H. apply startsWith_inv in H. rewrite H, length_app. lia.
Qed.

(** [firstAt] finds the least position at which the test holds. *)
Lemma firstAt_Some (here : jsstring -> bool) (s : jsstring) (i : nat) :
  firstAt here s = Some i <->
  here (drop i s) = true /\ i <= length s
  /\ forall j, j < i -> here (drop j s) = false.
Proof.
  revert i. induction s as [|c s IH]; intros i; cbn.
  - destruct (here []) eqn:H0.
    + split.
      * intros [= <-]. repeat split; auto. intros j Hj. lia.
      * intros (H & Hi & Hmin). destruct i as [|i]; [reflexivity|]. cbn in Hi. lia.
    + split; [discriminate|]. intros (H & Hi & _).
      rewrite drop_nil in H. congruence.
  - destruct (here (c :: s)) eqn:H0.
    + split.
      * intros [= <-]. cbn. repeat split; auto; try lia.
      * intros (H & Hi & Hmin). destruct i as [|i]; [reflexivity|].
        specialize (Hmin 0 ltac:(lia)). cbn in Hmin. congruence.
    + destruct (firstAt here s) as [k|] eqn:Hk; cbn.
      * split.
        -- intros [= <-]. destruct (proj1 (IH k) eq_refl) as (H & Hi & Hmin).
           cbn. repeat split; auto; try lia.
           intros [|j] Hj; cbn; [exact H0|]. apply Hmin. lia.
        -- intros (H & Hi & Hmin). destruct i as [|i]; [cbn in H; congruence|].
           f_equal.
           assert (Hs : Some k = Some i); [|congruence].
           apply IH. cbn in H, Hi. repeat split; auto; try lia.
           intros j Hj. apply (Hmin (S j)). lia.
      * split; [discriminate|]. intros (H & Hi & Hmin).
        destruct i as [|i]; [cbn in H; congruence|].
        assert (Hs : @None nat = Some i); [|congruence].
        apply IH. cbn in H, Hi. repeat split; auto; try lia.
        intros j Hj. apply (Hmin (S j)). lia.
Qed.

Lemma firstAt_None (here : jsstring -> bool) (s : jsstring) :
  firstAt here s = None <-> forall j, here (drop j s) = false.
Proof.
  split.
  - intros Hn j. destruct (here (drop j s)) eqn:Hj; [|reflexivity].
    exfalso.
    assert (Hex : exists i, firstAt here s = Some i); [|destruct Hex; congruence].
    clear Hn. revert j Hj. induction s as [|c s IH]; intros j Hj.
    + rewrite drop_nil in Hj. cbn. rewrite Hj. eauto.
    + cbn. destruct (here (c :: s)) eqn:H0; [eauto|].
      destruct j as [|j]; [cbn in Hj; congruence|].
      cbn in Hj. destruct (IH j Hj) as [i Hi]. rewrite Hi. cbn. eauto.
  - intros Hall. destruct (firstAt here s) as [i|] eqn:Hi; [|reflexivity].
    apply firstAt_Some in Hi. destruct Hi as (H & _). rewrite Hall in H. discriminate.
Qed.

Lemma firstAt_le (here : jsstring -> bool) (s : jsstring) (i : nat) :
  firstAt here s = Some i -> i <= length s.
Proof. intros H. apply firstAt_Some in H. tauto. Qed.

(** When the test fails all along [x], the search goes on in what
    follows. *)
Lemma firstAt_skip (here : jsstring -> bool) (x y : jsstring) :
  (forall j, j < length x -> here (drop j (x ++ y)) = false) ->
  firstAt here (x ++ y) = option_map (fun k => length x + k) (firstAt here y).
Proof.
  induction x as [|c x IH]; intros H; cbn.
  - destruct (firstAt here y); reflexivity.
  - pose proof (H 0 ltac:(cbn; lia)) as H0. cbn in H0. rewrite H0.
    rewrite IH; [destruct (firstAt here y); reflexivity|].
    intros j Hj. apply (H (S j)). cbn. lia.
Qed.

Lemma indexOf_occurs (p s : jsstring) (i : nat) :
  indexOf p s = Some i ->
  take (length p) (drop i s) = p /\ i + length p <= length s.
Proof.
  intros H. apply firstAt_Some in H. destruct H as (H & Hi & _).
  split; [apply startsWith_iff, H|].
  apply startsWith_length in H. rewrite length_drop in H. lia.
Qed.

Lemma indexOf_split (p s : jsstring) (i : nat) :
  indexOf p s = Some i -> s = take i s ++ p ++ drop (i + length p) s.
Proof.
  intros H. apply indexOf_occurs in H. destruct H as [H Hlen].
  rewrite <- (take_drop i s) at 1. f_equal.
  rewrite <- (take_drop (length p) (drop i s)) at 1. rewrite H. f_equal.
  rewrite drop_drop. reflexivity.
Qed.

End StringFacts.

(** ** The matcher on a character class *)

Section ClassFacts.
Import Re.
Local Open Scope nat_scope.

Lemma classPrefix_split (p : N -> bool) (s : jsstring) :
  s = classPrefix p s ++ drop (length (classPrefix p s)) s.
Proof.
  induction s as [|c s IH]; cbn; [reflexivity|].
  destruct (p c); cbn; [f_equal; exact IH|reflexivity].
Qed.

Lemma classPrefix_all (p : N -> bool) (s : jsstring) :
  forallb p (classPrefix p s) = true.
Proof.
  induction s as [|c s IH]; cbn; [reflexivity|].
  destruct (p c) eqn:Hc; cbn; [rewrite Hc; exact IH|reflexivity].
Qed.

Lemma classPrefix_stop (p : N -> bool) (s : jsstring) :
  match drop (length (classPrefix p s)) s with
  | c :: _ => p c = false
  | [] => True
  end.
Proof.
  induction s as [|c s IH]; cbn; [exact I|].
  destruct (p c) eqn:Hc; cbn; [exact IH|exact Hc].
Qed.

Lemma advance_cons (st : mstate) (c : N) (t xs : jsstring) :
  rest st = c :: t ->
  advance {| prev := Some c; rest := t; caps := caps st |} xs
  = advance st (c :: xs).
Proof.
  intros Hr. unfold advance. cbn [prev rest caps]. rewrite Hr. cbn [length drop].
  f_equal. destruct xs as [|x xs]; [reflexivity|].
  change (last (c :: x :: xs)) with (last (x :: xs)).
  destruct (last (x :: xs)) eqn:Hl; [reflexivity|].
  apply last_None in Hl. discriminate.
Qed.

(** A greedy quantifier without upper bound over a class, followed by
    nothing that can fail, reads the longest run of the class; it fails
    when the run is shorter than the lower bound. *)
Lemma repLoop_class (p : N -> bool) (lo fuel count : nat) (st : mstate) :
  length (rest st) < fuel ->
  repLoop (mt (Chr p)) true lo None Some fuel count st
  = if lo <=? count + length (classPrefix p (rest st))
    then Some (advance st (classPrefix p (rest st)))
    else None.
Proof.
  revert count st. induction fuel as [|fuel IH]; intros count st Hf; [lia|].
  cbn [repLoop belowMax]. cbn [mt].
  destruct (rest st) as [|c t] eqn:Hr.
  - cbn. rewrite Nat.add_0_r. unfold advance. rewrite Hr. cbn.
    destruct (lo <=? count); [|reflexivity].
    destruct st; cbn in *; subst; reflexivity.
  - cbn [classPrefix]. destruct (p c) eqn:Hc.
    + cbn [prev rest caps length].
      replace (length t <? S (length t)) with true
        by (symmetry; apply Nat.ltb_lt; lia).
      rewrite IH by (cbn in *; lia). cbn [rest].
      replace (count + S (length (classPrefix p t)))
        with (S count + length (classPrefix p t)) by lia.
      destruct (lo <=? S count + length (classPrefix p t)) eqn:Hlo.
      * rewrite (advance_cons st c t _ Hr). reflexivity.
      * apply Nat.leb_gt in Hlo.
        replace (lo <=? count) with false by (symmetry; apply Nat.leb_gt; lia).
        reflexivity.
    + cbn. rewrite Nat.add_0_r. unfold advance. cbn. rewrite Hr.
      destruct (lo <=? count); [|reflexivity].
      destruct st; cbn in *; subst; reflexivity.
Qed.

Lemma mt_seq (a b : regex) (k : cont) (st : mstate) :
  mt (Seq a b) k st = mt a (mt b k) st.
Proof. reflexivity. Qed.

Lemma mt_chr (p : N -> bool) (k : cont) (st : mstate) :
  mt (Chr p) k st
  = match rest st with
    | c :: t =>
        if p c then k {| prev := Some c; rest := t; caps := caps st |} else None
    | [] => None
    end.
Proof. reflexivity. Qed.

Lemma mt_rep_class (p : N -> bool) (lo : nat) (st : mstate) :
  mt (Rep true lo None (Chr p)) Some st
  = if lo <=? length (classPrefix p (rest st))
    then Some (advance st (classPrefix p (rest st))) else None.
Proof.
  change (mt (Rep true lo None (Chr p)) Some st)
    with (repLoop (mt (Chr p)) true lo None Some (S (length (rest st))) 0 st).
  rewrite repLoop_class by lia. reflexivity.
Qed.

(** A search finds the first position at which the matcher succeeds. *)
Lemma searchFrom_firstAt (r : regex) (here : jsstring -> bool) :
  (forall pv s, here s = true <->
                mt r Some {| prev := pv; rest := s; caps := [] |} <> None) ->
  forall s pos pv,
    option_map index (searchFrom r pos pv s)
    = option_map (fun k => pos + k) (firstAt here s).
Proof.
  intros Hhere. induction s as [|c s IH]; intros pos pv; cbn.
  - destruct (mt r Some _) eqn:Hm.
    + assert (H : here [] = true) by (apply (Hhere pv); congruence).
      rewrite H. cbn. f_equal. lia.
    + assert (H : here [] = false).
      { destruct (here []) eqn:H; [|reflexivity]. apply (Hhere pv) in H. congruence. }
      rewrite H. reflexivity.
  - destruct (mt r Some _) eqn:Hm.
    + assert (H : here (c :: s) = true) by (apply (Hhere pv); congruence).
      rewrite H. cbn. f_equal. lia.
    + assert (H : here (c :: s) = false).
      { destruct (here (c :: s)) eqn:H; [|reflexivity].
        apply (Hhere pv) in H. congruence. }
      rewrite H. rewrite IH. destruct (firstAt here s); cbn; [f_equal; lia|reflexivity].
Qed.

End ClassFacts.

Ltac mt_step := rewrite ?mt_seq; rewrite mt_chr; cbn [Re.rest Re.caps Re.prev].

(** ** The crawl loop *)

Section CrawlerFacts.
Import Types Crawler.

Variable E : Env.
Variable recipe : Recipe.
Variable renameOnUpdate : bool.

Local Abbreviation tryBody' := (tryBodyE E recipe renameOnUpdate).
Local Abbreviation step' := (stepE E recipe renameOnUpdate).
Local Abbreviation loop' := (loopE E recipe renameOnUpdate).
Local Abbreviation LoopState' := (State E).
Local Abbreviation round' := (round E recipe renameOnUpdate).
Local Abbreviation reaches' := (reaches E recipe renameOnUpdate).

(** What the [try] block may change, whether it throws or not. *)
Lemma tryBody_effect (strong : jsstring) (d : Z) (st st' : LoopState')
    (thrown : option jsstring) :
  tryBody' strong d st = (st', thrown) ->
  seen st' = seen st
  /\ processed st' = processed st
  /\ errors (res st') = errors (res st)
  /\ skipped (res st') = skipped (res st)
  /\ (exists b : Z,
        (b = 0 \/ b = 1)
        /\ created (res st') + updated (res st')
           = created (res st) + updated (res st) + b
        /\ created (res st) <= created (res st')
        /\ updated (res st) <= updated (res st')
        /\ (thrown = None -> b = 1))
  /\ exists pushed : list QueueItem,
       q st' = q st ++ pushed
       /\ trace st'
          = trace st ++ [Fetched strong (strongsUrl strong)]
              ++ map (fun i => Enqueued (qstrong i) (depth i)) pushed
       /\ Forall (fun i => depth i = d + 1 /\ d < maxDepth recipe
                           /\ qstrong i ∉ seen st) pushed
       /\ (thrown <> None -> pushed = []).
Proof.
  unfold tryBodyE, tryBody. intros H.
  destruct (fetcherGet E (world st) (strongsUrl strong) true) as [w1 [html|msg]].
  2:{ inversion H; subst; cbn. repeat split; try reflexivity.
      - exists 0. repeat split; try lia. discriminate.
      - exists []. rewrite !app_nil_r. repeat split; auto. }
  destruct (parse E strong (strongsUrl strong) html) as [entry0|msg].
  2:{ inversion H; subst; cbn. repeat split; try reflexivity.
      - exists 0. repeat split; try lia. discriminate.
      - exists []. rewrite !app_nil_r. repeat split; auto. }
  destruct (if linkGreekHebrew recipe then _ else _) as [w2 [entry|msg]].
  2:{ inversion H; subst; cbn. repeat split; try reflexivity.
      - exists 0. repeat split; try lia. discriminate.
      - exists []. rewrite !app_nil_r. repeat split; auto. }
  destruct (writerUpsert E w2 entry recipe renameOnUpdate) as [w3 [wasCreated|msg]].
  2:{ inversion H; subst; cbn. repeat split; try reflexivity.
      - exists 0. repeat split; try lia. discriminate.
      - exists []. rewrite !app_nil_r. repeat split; auto. }
  destruct (match Writer.includesScripture (linkTypes recipe) with
            | true => _ | false => _ end) as [w4 [u|msg]].
  2:{ inversion H; subst; cbn. repeat split; try (destruct wasCreated; reflexivity).
      - exists 1. destruct wasCreated; cbn; repeat split; try lia.
      - exists []. rewrite !app_nil_r. repeat split; auto. }
  inversion H; subst; cbn. repeat split; try (destruct wasCreated; reflexivity).
  - exists 1. destruct wasCreated; cbn; repeat split; try lia.
  - eexists. split; [reflexivity|]. split; [rewrite <- app_assoc; reflexivity|].
    split; [|intros Hn; exfalso; apply Hn; reflexivity].
    destruct (d <? maxDepth recipe) eqn:Hd; [|constructor].
    apply Forall_forall. intros i Hi. apply list_elem_of_In, in_map_iff in Hi.
    destruct Hi as (next & <- & Hin). cbn.
    apply filter_In in Hin. destruct Hin as [_ Hin].
    apply negb_true_iff, bool_decide_eq_false in Hin.
    repeat split; auto. lia.
Qed.

Lemma step_round (st st' : LoopState') :
  step' st = Some st' -> processed st < maxNodes recipe /\ round' st st'.
Proof.
  unfold stepE, step. destruct (q st) as [|item rest] eqn:Hq; [discriminate|].
  destruct (processed st <? maxNodes recipe) eqn:Hp; [|discriminate].
  apply Z.ltb_lt in Hp. intros H. split; [exact Hp|].
  destruct (bool_decide (qstrong item ∈ seen st)) eqn:Hs.
  - apply bool_decide_eq_true in Hs. inversion H; subst.
    eapply Discard; eauto.
  - apply bool_decide_eq_false in Hs.
    destruct (findExisting E (world st) (qstrong item) recipe && skipExisting recipe)
      eqn:Hx.
    + inversion H; subst. eapply Skip; eauto.
    + destruct (tryBody _ _ _ _ _ _ _ _ _ _ _ _ _) as [stb thrown] eqn:Hb.
      inversion H; subst. eapply Visit; eauto.
Qed.

Lemma step_none (st : LoopState') :
  step' st = None <-> q st = [] \/ maxNodes recipe <= processed st.
Proof.
  unfold stepE, step. destruct (q st) as [|item rest]; [tauto|].
  destruct (processed st <? maxNodes recipe) eqn:Hp.
  - apply Z.ltb_lt in Hp. split; [|intros [?|?]; [discriminate|lia]].
    destruct (bool_decide _); [discriminate|].
    destruct (_ && _); [discriminate|].
    destruct (tryBody _ _ _ _ _ _ _ _ _ _ _ _ _); discriminate.
  - apply Z.ltb_ge in Hp. split; auto.
Qed.

Lemma reaches_first (st st1 st2 : LoopState') :
  step' st = Some st1 -> reaches' st1 st2 -> reaches' st st2.
Proof.
  intros Hs Hr. induction Hr.
  - eapply reaches_step; [apply reaches_here|exact Hs].
  - eapply reaches_step; eauto.
Qed.

Lemma loop_0 (st : LoopState') :
  loop' 0 st = match step' st with None => Some st | Some _ => None end.
Proof. reflexivity. Qed.

Lemma loop_S (fuel : nat) (st : LoopState') :
  loop' (S fuel) st
  = match step' st with None => Some st | Some st' => loop' fuel st' end.
Proof. reflexivity. Qed.

Lemma loop_reaches (fuel : nat) (st final : LoopState') :
  loop' fuel st = Some final -> reaches' st final /\ step' final = None.
Proof.
  revert st. induction fuel as [|fuel IH]; intros st;
    rewrite ?loop_0, ?loop_S;
    destruct (step' st) as [st1|] eqn:Hs; try discriminate.
  - intros [= <-]. split; [apply reaches_here|exact Hs].
  - intros H. apply IH in H. destruct H as [Hr Hn].
    split; [eapply reaches_first; eauto|exact Hn].
  - intros [= <-]. split; [apply reaches_here|exact Hs].
Qed.

(** *** Termination *)

Lemma loop_more_fuel (fuel : nat) (st final : LoopState') :
  loop' fuel st = Some final -> loop' (S fuel) st = Some final.
Proof.
  revert st. induction fuel as [|fuel IH]; intros st H.
  - rewrite loop_0 in H. rewrite loop_S.
    destruct (step' st); [discriminate|exact H].
  - rewrite loop_S in H. rewrite loop_S.
    destruct (step' st) as [st1|]; [|exact H].
    apply IH in H. exact H.
Qed.

Lemma loop_terminates (st : LoopState') :
  exists fuel final, loop' fuel st = Some final.
Proof.
  remember (Z.to_nat (maxNodes recipe - processed st)) as n eqn:Hn.
  revert st Hn. induction n as [n IHn] using lt_wf_ind. intros st Hn.
  remember (length (q st)) as k eqn:Hk.
  revert st Hn Hk. induction k as [k IHk] using lt_wf_ind. intros st Hn Hk.
  destruct (step' st) as [st1|] eqn:Hs.
  - destruct (step_round _ _ Hs) as [Hp Hr].
    assert (Hrec : exists fuel final, loop' fuel st1 = Some final).
    { destruct Hr as [item rest Hq Hseen ->|item rest Hq Hseen Hx ->
                     |item rest stb thrown Hq Hseen Hx Hb ->].
      - eapply (IHk (length rest)); cbn; [rewrite Hk, Hq; cbn; lia|exact Hn|reflexivity].
      - eapply (IHn (Z.to_nat (maxNodes recipe - (processed st + 1))));
          [lia|reflexivity].
      - apply tryBody_effect in Hb; unfold entering in Hb;
      cbn [q seen processed res trace lemmaIndex world] in Hb. destruct Hb as (_ & Hp' & _). cbn in Hp'.
        eapply (IHn (Z.to_nat (maxNodes recipe - (processed stb + 1))));
          [lia|reflexivity]. }
    destruct Hrec as (fuel & final & Hl).
    exists (S fuel), final. rewrite loop_S, Hs. exact Hl.
  - exists 0%nat, st. rewrite loop_0, Hs. reflexivity.
Qed.

(** *** Invariants of the loop *)

Lemma fetchedIds_app (a b : list Event) :
  fetchedIds (a ++ b) = fetchedIds a ++ fetchedIds b.
Proof. apply omap_app. Qed.

Lemma fetchedIds_enqueued (l : list QueueItem) :
  fetchedIds (map (fun i => Enqueued (qstrong i) (depth i)) l) = [].
Proof. induction l; cbn; auto. Qed.

Lemma enqueued_app (a b : list Event) :
  enqueued (a ++ b) = enqueued a ++ enqueued b.
Proof. apply omap_app. Qed.

Lemma enqueued_pushed (l : list QueueItem) :
  enqueued (map (fun i => Enqueued (qstrong i) (depth i)) l)
  = map (fun i => (qstrong i, depth i)) l.
Proof. induction l; cbn; [reflexivity|]. f_equal. exact IHl. Qed.

Lemma round_fetchedOnce (st st' : LoopState') :
  round' st st' -> fetchedOnce st -> fetchedOnce st'.
Proof.
  intros Hr [Hnd Hsub].
  destruct Hr as [item rest Hq Hseen ->|item rest Hq Hseen Hx ->
                 |item rest stb thrown Hq Hseen Hx Hb ->].
  - split; assumption.
  - split; cbn [seen trace]; [assumption|]. intros s Hs. apply Hsub in Hs. set_solver.
  - apply tryBody_effect in Hb; unfold entering in Hb;
      cbn [q seen processed res trace lemmaIndex world] in Hb.
    destruct Hb as (Hs' & _ & _ & _ & _ & pushed & _ & Htr & _).
    cbn [seen trace] in *.
    unfold fetchedOnce. cbn [seen trace]. rewrite Htr, Hs'.
    rewrite !fetchedIds_app, fetchedIds_enqueued, app_nil_r.
    change (fetchedIds [Fetched (qstrong item) (strongsUrl (qstrong item))])
      with [qstrong item].
    split.
    + apply NoDup_app. split; [exact Hnd|]. split; [|apply NoDup_singleton].
      intros s Hs Hin. apply list_elem_of_singleton in Hin. subst s.
      apply Hseen, Hsub, Hs.
    + intros s Hs. apply elem_of_app in Hs. destruct Hs as [Hs|Hs].
      * apply Hsub in Hs. set_solver.
      * apply list_elem_of_singleton in Hs. set_solver.
Qed.

Lemma reaches_fetchedOnce (st0 st : LoopState') :
  reaches' st0 st -> fetchedOnce st0 -> fetchedOnce st.
Proof.
  intros Hr H0. induction Hr; [exact H0|].
  eapply round_fetchedOnce; [|exact IHHr].
  apply step_round in H. tauto.
Qed.

Lemma round_withinBudget (st st' : LoopState') :
  processed st < maxNodes recipe ->
  round' st st' -> withinBudget recipe st -> withinBudget recipe st'.
Proof.
  intros Hlt Hr (Hp & Hc & Hu & Hk & Hsum & Herr & Hle & Hq & Htr).
  destruct Hr as [item rest Hq' Hseen ->|item rest Hq' Hseen Hx ->
                 |item rest stb thrown Hq' Hseen Hx Hb ->];
    rewrite Hq' in Hq; apply Forall_cons in Hq; destruct Hq as [Hd Hq];
    unfold withinBudget.
  - cbn. repeat split; auto; lia.
  - cbn. repeat split; auto; lia.
  - apply tryBody_effect in Hb; unfold entering in Hb;
      cbn [q seen processed res trace lemmaIndex world] in Hb.
    destruct Hb as (_ & Hp' & He' & Hk' & (b & Hb & Hcu & Hc' & Hu' & Hnone)
                      & pushed & Hqb & Htrb & Hpushed & Hthrown).
    cbn [q seen processed res trace] in *.
    assert (Hlen : thrown = None \/ exists msg, thrown = Some msg)
      by (destruct thrown; eauto).
    rewrite Hqb, Htrb, !enqueued_app, enqueued_pushed.
    change (enqueued [Fetched (qstrong item) (strongsUrl (qstrong item))])
      with (@nil (jsstring * Z)).
    rewrite app_nil_l.
    assert (HF : Forall (fun i => 0 <= depth i <= maxDepth recipe) pushed).
    { eapply Forall_impl; [exact Hpushed|]. cbn. intros i (-> & ? & _). lia. }
    destruct Hlen as [->|[msg ->]]; cbn.
    + specialize (Hnone eq_refl). subst b. rewrite He'.
      repeat split; try lia.
      * apply Forall_app. split; assumption.
      * apply Forall_app. split; [assumption|].
        apply Forall_map. exact HF.
    + rewrite He', length_app. cbn.
      repeat split; try lia.
      * apply Forall_app. split; assumption.
      * apply Forall_app. split; [assumption|].
        apply Forall_map. exact HF.
Qed.

Lemma reaches_withinBudget (st0 st : LoopState') :
  reaches' st0 st -> withinBudget recipe st0 -> withinBudget recipe st.
Proof.
  intros Hr H0. induction Hr; [exact H0|].
  apply step_round in H. destruct H as [Hlt Hround].
  eapply round_withinBudget; eauto.
Qed.

Lemma initial_withinBudget (rootStrong : jsstring) idx (w : World E) :
  1 <= maxNodes recipe -> 0 <= maxDepth recipe ->
  withinBudget recipe (initial rootStrong idx w).
Proof.
  intros Hn Hd. unfold withinBudget, initial. cbn.
  repeat split; try lia; repeat constructor; cbn; lia.
Qed.

Lemma initial_fetchedOnce (rootStrong : jsstring) idx (w : World E) :
  fetchedOnce (initial rootStrong idx w).
Proof.
  split; cbn; [constructor|]. intros s Hs. inversion Hs.
Qed.

(** The error list only grows. *)
Lemma round_errors_prefix (st st' : LoopState') :
  round' st st' -> errors (res st) `prefix_of` errors (res st').
Proof.
  intros Hr.
  destruct Hr as [item rest Hq' Hseen ->|item rest Hq' Hseen Hx ->
                 |item rest stb thrown Hq' Hseen Hx Hb ->]; cbn; try reflexivity.
  apply tryBody_effect in Hb; unfold entering in Hb;
      cbn [q seen processed res trace lemmaIndex world] in Hb. destruct Hb as (_ & _ & He & _). cbn in He.
  destruct thrown; cbn; rewrite He; [apply prefix_app_r|]; reflexivity.
Qed.

Lemma reaches_errors_prefix (st0 st : LoopState') :
  reaches' st0 st -> errors (res st0) `prefix_of` errors (res st).
Proof.
  intros Hr. induction Hr; [reflexivity|].
  etransitivity; [exact IHHr|]. apply round_errors_prefix.
  apply step_round in H. tauto.
Qed.

(** *** One run, one path *)

Lemma reaches_first_step (st final : LoopState') :
  reaches' st final ->
  final = st \/ exists st1, step' st = Some st1 /\ reaches' st1 final.
Proof.
  intros Hr. induction Hr as [|a b Hr IH Hs]; [left; reflexivity|].
  right. destruct IH as [->|(st1 & H1 & Hr1)].
  - exists b. split; [exact Hs|apply reaches_here].
  - exists st1. split; [exact H1|]. eapply reaches_step; eauto.
Qed.

(** Every state a run passes through leads to the state it ends in. *)
Lemma reaches_final (st0 st final : LoopState') :
  reaches' st0 st -> reaches' st0 final -> step' final = None ->
  reaches' st final.
Proof.
  intros Hr Hf Hn. induction Hr as [|a b Hr IH Hs]; [exact Hf|].
  destruct (reaches_first_step _ _ IH) as [->|(st1 & H1 & Hr1)].
  - congruence.
  - rewrite Hs in H1. injection H1 as <-. exact Hr1.
Qed.

End CrawlerFacts.

(** ** The merge: what it leaves alone *)

Section MergeFrame.
Import Re Types Writer.
Local Open Scope nat_scope.

Lemma mt_reHeading (pv : option N) (s : jsstring) :
  headingHere s = true <->
  mt reHeading Some {| prev := pv; rest := s; caps := [] |} <> None.
Proof.
  unfold reHeading, plus. cbn [lit].
  destruct s as [|c1 [|c2 [|c3 r]]]; mt_step; cbn [headingHere];
    unfold only; rewrite ?(N.eqb_sym 10).
  - split; congruence.
  - destruct (c1 =? 10)%N; [mt_step|]; split; congruence.
  - destruct (c1 =? 10)%N; [mt_step|split; congruence].
    rewrite ?(N.eqb_sym 35).
    destruct (c2 =? 35)%N; [mt_step|]; split; congruence.
  - destruct (c1 =? 10)%N; cbn [andb];
      [mt_step|destruct r; split; congruence].
    rewrite ?(N.eqb_sym 35).
    destruct (c2 =? 35)%N; cbn [andb];
      [mt_step|destruct r; split; congruence].
    rewrite ?(N.eqb_sym 35).
    destruct (c3 =? 35)%N; cbn [andb];
      [rewrite mt_rep_class; cbn [rest]|destruct r; split; congruence].
    destruct r as [|w r]; cbn [classPrefix]; [cbn; split; congruence|].
    destruct (isSpace w); cbn; split; congruence.
Qed.

Lemma search_reHeading (s : jsstring) :
  search reHeading s = firstAt headingHere s.
Proof.
  unfold search, exec.
  rewrite (searchFrom_firstAt reHeading headingHere mt_reHeading s 0 None).
  destruct (firstAt headingHere s); reflexivity.
Qed.

Lemma firstAt_orb (f g : jsstring -> bool) (s : jsstring) :
  firstAt (fun x => f x || g x) s
  = match firstAt f s, firstAt g s with
    | Some a, Some b => Some (Nat.min a b)
    | Some a, None => Some a
    | None, Some b => Some b
    | None, None => None
    end.
Proof.
  induction s as [|c s IH]; cbn.
  - destruct (f []), (g []); reflexivity.
  - destruct (f (c :: s)), (g (c :: s)); cbn; try reflexivity.
    + destruct (firstAt g s); reflexivity.
    + destruct (firstAt f s); reflexivity.
    + rewrite IH. destruct (firstAt f s), (firstAt g s); reflexivity.
Qed.

(** The end of a span is the first boundary after the marker, or the end
    of the document. *)
Lemma endRel_boundary (rest : jsstring) :
  endRel rest
  = match firstAt boundaryHere rest with
    | Some k => k
    | None => length rest
    end.
Proof.
  unfold endRel, boundaryHere. rewrite firstAt_orb, search_reHeading.
  unfold indexOf, markerHere.
  destruct (firstAt headingHere rest), (firstAt _ rest); reflexivity.
Qed.

Lemma endRel_le (rest : jsstring) : endRel rest <= length rest.
Proof.
  rewrite endRel_boundary. destruct (firstAt boundaryHere rest) eqn:H; [|lia].
  apply firstAt_le in H. exact H.
Qed.

(** The new text that [replaceImportedBlock] puts after the marker. *)
Lemma replaceImportedBlock_found (doc key replacement : jsstring) (idx : nat) :
  indexOf (marker key) doc = Some idx ->
  replaceImportedBlock doc key replacement
  = take (idx + length (marker key)) doc
      ++ ([10%N] ++ trim replacement ++ [10%N])
      ++ drop (idx + length (marker key)
               + endRel (drop (idx + length (marker key)) doc)) doc.
Proof.
  intros H. unfold replaceImportedBlock. rewrite H. f_equal.
  destruct (trim replacement); reflexivity.
Qed.

Lemma replaceImportedBlock_absent (doc key replacement : jsstring) :
  indexOf (marker key) doc = None ->
  replaceImportedBlock doc key replacement = doc.
Proof. intros H. unfold replaceImportedBlock. rewrite H. reflexivity. Qed.

(** A text in which [p] does not occur is not reached by a replacement
    that starts at an occurrence of [p]. *)
Lemma occurrence_past_prefix (p header body : jsstring) (idx : nat) :
  includes p header = false ->
  indexOf p (header ++ body) = Some idx ->
  length header < idx + length p \/ (p = [] /\ idx = 0 /\ header = []).
Proof.
  intros Hinc Hidx.
  destruct (Nat.lt_ge_cases (length header) (idx + length p)) as [Hlt|Hge];
    [left; exact Hlt|exfalso].
  apply indexOf_occurs in Hidx. destruct Hidx as [Hocc _].
  unfold includes, indexOf in Hinc.
  destruct (firstAt (startsWith p) header) eqn:Hf; [discriminate|].
  pose proof (proj1 (firstAt_None _ _) Hf idx) as Hno.
  assert (Hyes : startsWith p (drop idx header) = true).
  { apply startsWith_iff.
    rewrite drop_app_le in Hocc by lia.
    rewrite take_app_le in Hocc by (rewrite length_drop; lia). exact Hocc. }
  congruence.
Qed.

Lemma marker_nonempty (key : jsstring) : marker key <> [].
Proof. unfold marker. discriminate. Qed.

Lemma replaceImportedBlock_keeps_header (header body key replacement : jsstring) :
  includes (marker key) header = false ->
  exists body', replaceImportedBlock (header ++ body) key replacement
                = header ++ body'.
Proof.
  intros Hinc.
  destruct (indexOf (marker key) (header ++ body)) as [idx|] eqn:Hidx.
  - rewrite (replaceImportedBlock_found _ _ _ _ Hidx).
    destruct (occurrence_past_prefix _ _ _ _ Hinc Hidx) as [Hlt|[Hm _]];
      [|destruct (marker_nonempty _ Hm)].
    rewrite take_app, take_ge by lia. rewrite <- app_assoc. eauto.
  - rewrite (replaceImportedBlock_absent _ _ _ Hidx). eauto.
Qed.

Lemma mergeText_keeps_header (header body : jsstring) (entry : LexiconEntry)
    (recipe : Recipe) :
  (forall k, In k (includeSections recipe) ->
             includes (marker (keyName k)) header = false) ->
  exists body', mergeText (header ++ body) entry recipe = header ++ body'.
Proof.
  unfold mergeText. generalize (includeSections recipe) as secs.
  intros secs. revert body. induction secs as [|k secs IH]; intros body H; cbn.
  - eauto.
  - destruct (replaceImportedBlock_keeps_header header body (keyName k)
                (orEmpty (getBlock k (blocks entry)))) as [b' Hb'].
    { apply H. left. reflexivity. }
    rewrite Hb'. apply IH. intros k' Hk'. apply H. right. exact Hk'.
Qed.

End MergeFrame.

(** C3.  Merging a block into a document changes only the span of its
    section.  When the marker does not occur, the document is returned as
    it is.  When it occurs, with [a] the end of its first occurrence and
    [e] the end boundary computed from there -- the first position from [a]
    on where a heading or a marker line starts, or the end of the document
    -- the result is the text before [a], the new block, and the text from
    [e] on, each unchanged.  And a header in which no marker of the
    recipe's sections occurs comes out of the whole merge as it went in. *)
Theorem merge_changes_only_the_section_span :
  forall (doc key replacement : jsstring),
    (indexOf (Writer.marker key) doc = None ->
     Writer.replaceImportedBlock doc key replacement = doc)
    /\ (forall idx, indexOf (Writer.marker key) doc = Some idx ->
        let a := (idx + length (Writer.marker key))%nat in
        let e := (a + Writer.endRel (drop a doc))%nat in
        (a <= e <= length doc)%nat
        /\ (e = length doc \/ boundaryHere (drop e doc) = true)
        /\ (forall j, (a <= j < e)%nat -> boundaryHere (drop j doc) = false)
        /\ Writer.replaceImportedBlock doc key replacement
           = take a doc ++ ([10%N] ++ trim replacement ++ [10%N]) ++ drop e doc)
    /\ (forall (header body : jsstring) (entry : Types.LexiconEntry)
               (recipe : Types.Recipe),
          (forall k, In k (Types.includeSections recipe) ->
                     includes (Writer.marker (Types.keyName k)) header = false) ->
          exists body',
            Writer.mergeText (header ++ body) entry recipe = header ++ body').
Proof.
  intros doc key replacement. split; [|split].
  - apply replaceImportedBlock_absent.
  - intros idx Hidx. cbv zeta.
    pose proof (indexOf_occurs _ _ _ Hidx) as [_ Hlen].
    pose proof (endRel_le (drop (idx + length (Writer.marker key)) doc)) as Hle.
    rewrite length_drop in Hle.
    split; [lia|]. split; [|split].
    + rewrite endRel_boundary.
      destruct (firstAt boundaryHere _) as [k|] eqn:Hk.
      * right. apply firstAt_Some in Hk. destruct Hk as (Hk & _).
        rewrite drop_drop in Hk. exact Hk.
      * left. rewrite length_drop. lia.
    + intros j Hj. rewrite endRel_boundary in Hj.
      destruct (firstAt boundaryHere _) as [k|] eqn:Hk.
      * apply firstAt_Some in Hk. destruct Hk as (_ & _ & Hmin).
        specialize (Hmin (j - (idx + length (Writer.marker key)))%nat ltac:(lia)).
        rewrite drop_drop in Hmin.
        replace (idx + length (Writer.marker key)
                 + (j - (idx + length (Writer.marker key))))%nat with j in Hmin by lia.
        exact Hmin.
      * pose proof (proj1 (firstAt_None _ _) Hk
                      (j - (idx + length (Writer.marker key)))%nat) as Hno.
        rewrite drop_drop in Hno.
        replace (idx + length (Writer.marker key)
                 + (j - (idx + length (Writer.marker key))))%nat with j in Hno by lia.
        exact Hno.
    + apply replaceImportedBlock_found. exact Hidx.
  - intros header body entry recipe. apply mergeText_keeps_header.
Qed.

Section CrawlerClaims.
Import Types Crawler.

Variable E : Env.
Variable recipe : Recipe.
Variable renameOnUpdate : bool.

(** A round that finds its item visited already only takes it off the
    queue. *)
Lemma step_discard (st : State E) (item : QueueItem) (rest : list QueueItem) :
  q st = item :: rest ->
  qstrong item ∈ seen st ->
  processed st < maxNodes recipe ->
  stepE E recipe renameOnUpdate st
  = Some {| q := rest; seen := seen st; processed := processed st;
            res := res st; lemmaIndex := lemmaIndex st; world := world st;
            trace := trace st |}.
Proof.
  intros Hq Hs Hp. unfold stepE, step. rewrite Hq.
  apply Z.ltb_lt in Hp. rewrite Hp.
  rewrite (bool_decide_eq_true_2 _ Hs). reflexivity.
Qed.

(** A round that enters the [try] block. *)
Lemma step_visit (st : State E) (item : QueueItem) (rest : list QueueItem)
    (stb : State E) (thrown : option jsstring) :
  q st = item :: rest ->
  processed st < maxNodes recipe ->
  qstrong item ∉ seen st ->
  findExisting E (world st) (qstrong item) recipe && skipExisting recipe = false ->
  tryBodyE E recipe renameOnUpdate (qstrong item) (depth item)
    (entering st item rest) = (stb, thrown) ->
  stepE E recipe renameOnUpdate st
  = Some {| q := q stb; seen := seen stb; processed := processed stb + 1;
            res := match thrown with
                   | Some msg => addError (qstrong item) msg (res stb)
                   | None => res stb
                   end;
            lemmaIndex := lemmaIndex stb; world := world stb;
            trace := trace stb |}.
Proof.
  intros Hq Hp Hs Hx Hb. unfold stepE, step. rewrite Hq.
  apply Z.ltb_lt in Hp. rewrite Hp.
  rewrite (bool_decide_eq_false_2 _ Hs), Hx.
  unfold tryBodyE, entering in Hb. rewrite Hb. reflexivity.
Qed.

(** The [try] block ends with an exception exactly when one of its
    calls throws, and with that call's message. *)
Lemma tryBody_throws (strong : jsstring) (d : Z) (st : State E) (msg : jsstring) :
  bodyThrows E recipe renameOnUpdate strong st msg <->
  snd (tryBodyE E recipe renameOnUpdate strong d st) = Some msg.
Proof.
  unfold bodyThrows, tryBodyE, tryBody, applyLemmaLinksE. cbv zeta.
  destruct (fetcherGet E (world st) (strongsUrl strong) true) as [w1 [html|m]];
    [|cbn; split; congruence].
  destruct (parse E strong (strongsUrl strong) html) as [entry0|m];
    [|cbn; split; congruence].
  destruct (if linkGreekHebrew recipe then _ else _) as [w2 [entry|m]];
    [|cbn; split; congruence].
  destruct (writerUpsert E w2 entry recipe renameOnUpdate) as [w3 [wasCreated|m]];
    [|cbn; split; congruence].
  destruct (Writer.includesScripture (linkTypes recipe));
    [|cbn; split; [tauto|discriminate]].
  destruct (l_scripture (links entry)) as [|ref refs];
    [cbn; split; [tauto|discriminate]|].
  destruct (forEachAwait _ _ _ _) as [w4 [u|m]]; cbn; split;
    try tauto; try congruence; discriminate.
Qed.

(** What a round adds to the trace. *)
Lemma round_enqueues (st st' : State E) (item : QueueItem) (rest : list QueueItem) :
  q st = item :: rest ->
  round E recipe renameOnUpdate st st' ->
  exists pushed,
    enqueued (trace st') = enqueued (trace st) ++ pushed
    /\ Forall (fun e => snd e = depth item + 1 /\ depth item < maxDepth recipe)
              pushed.
Proof.
  intros Hq Hr.
  destruct Hr as [item' rest' Hq' Hseen ->|item' rest' Hq' Hseen Hx ->
                 |item' rest' stb thrown Hq' Hseen Hx Hb ->];
    rewrite Hq in Hq'; injection Hq' as <- <-; cbn [trace].
  - exists []. rewrite app_nil_r. split; [reflexivity|constructor].
  - exists []. rewrite app_nil_r. split; [reflexivity|constructor].
  - apply tryBody_effect in Hb. unfold entering in Hb.
    cbn [q seen processed res trace] in Hb.
    destruct Hb as (_ & _ & _ & _ & _ & pushed & _ & Htr & HF & _).
    exists (map (fun i => (qstrong i, depth i)) pushed).
    rewrite Htr, !enqueued_app, enqueued_pushed.
    split; [reflexivity|].
    apply Forall_map. eapply Forall_impl; [exact HF|].
    cbn. intros i (? & ? & _). split; assumption.
Qed.

Lemma reaches_trace_head (st0 st : State E) (e : jsstring * Z) :
  reaches E recipe renameOnUpdate st0 st ->
  head (enqueued (trace st0)) = Some e ->
  head (enqueued (trace st)) = Some e.
Proof.
  intros Hr H0. induction Hr as [|st1 st2 Hr IH Hs]; [exact H0|].
  apply step_round in Hs. destruct Hs as [_ Hround].
  destruct (q st1) as [|item rest] eqn:Hq.
  - destruct Hround; congruence.
  - destruct (round_enqueues _ _ _ _ Hq Hround) as (pushed & -> & _).
    destruct (enqueued (trace st1)); [discriminate|exact IH].
Qed.

End CrawlerClaims.

(** C4.  In every state a run passes through, no id has been fetched more
    than once and every fetched id is in the visited set; and a round
    whose item is in the visited set already only takes the item off the
    queue: nothing is fetched, counted or recorded for it. *)
Theorem each_id_fetched_at_most_once :
  forall (E : Env) (recipe : Types.Recipe) (renameOnUpdate : bool)
         (rootStrong : jsstring) (idx : gmap jsstring jsstring) (w : World E)
         (st : State E),
    reaches E recipe renameOnUpdate (Crawler.initial rootStrong idx w) st ->
    NoDup (fetchedIds (Crawler.trace st))
    /\ (forall s, s ∈ fetchedIds (Crawler.trace st) -> s ∈ Crawler.seen st)
    /\ forall item rest,
         Crawler.q st = item :: rest ->
         Crawler.qstrong item ∈ Crawler.seen st ->
         Crawler.processed st < Types.maxNodes recipe ->
         stepE E recipe renameOnUpdate st
         = Some {| Crawler.q := rest; Crawler.seen := Crawler.seen st;
                   Crawler.processed := Crawler.processed st;
                   Crawler.res := Crawler.res st;
                   Crawler.lemmaIndex := Crawler.lemmaIndex st;
                   Crawler.world := Crawler.world st;
                   Crawler.trace := Crawler.trace st |}.
Proof.
  intros E recipe ren root idx w st Hr.
  destruct (reaches_fetchedOnce E recipe ren _ _ Hr (initial_fetchedOnce E root idx w))
    as [Hnd Hsub].
  split; [exact Hnd|]. split; [exact Hsub|].
  intros item rest. apply step_discard.
Qed.

(** The last state of a run is one the run passes through. *)
Lemma lastState_reached (E : Env) (r : Types.Recipe) (root : jsstring)
    (w : World E) (fuel : nat) :
  reaches E r false (Crawler.initial root ∅ w) (Demo.lastState E r root w fuel).
Proof.
  unfold Demo.lastState.
  destruct (loopE E r false fuel (Crawler.initial root ∅ w)) as [final|] eqn:Hl.
  - apply loop_reaches in Hl. tauto.
  - apply reaches_here.
Qed.

Lemma each_id_fetched_at_most_once_witness :
  NoDup (fetchedIds (Crawler.trace
           (Demo.lastState Demo.good (Demo.recipe 2 10) (str "G1") [] 20))).
Proof.
  apply (each_id_fetched_at_most_once Demo.good (Demo.recipe 2 10) false
           (str "G1") ∅ [] _ (lastState_reached _ _ _ _ _)).
Defined.

(** C5.  With [maxNodes >= 1] and [maxDepth >= 0], in every state a run
    passes through the number of processed nodes is at most [maxNodes];
    every processed node has an outcome, and no more nodes are created,
    updated or skipped, and no more errors recorded, than were processed;
    the first item enqueued is the seed at depth 0, every item enqueued
    and every item in the queue has a depth between 0 and [maxDepth], and
    a round for an item at depth [d] enqueues at depth [d + 1] only, and
    only when [d < maxDepth]. *)
Theorem crawl_stays_within_budget :
  forall (E : Env) (recipe : Types.Recipe) (renameOnUpdate : bool)
         (rootStrong : jsstring) (idx : gmap jsstring jsstring) (w : World E)
         (st : State E),
    1 <= Types.maxNodes recipe ->
    0 <= Types.maxDepth recipe ->
    reaches E recipe renameOnUpdate (Crawler.initial rootStrong idx w) st ->
    let r := Crawler.res st in
    Crawler.processed st <= Types.maxNodes recipe
    /\ Types.created r + Types.updated r + Types.skipped r <= Crawler.processed st
    /\ Z.of_nat (length (Types.errors r)) <= Crawler.processed st
    /\ Crawler.processed st
       <= Types.created r + Types.updated r + Types.skipped r
          + Z.of_nat (length (Types.errors r))
    /\ head (enqueued (Crawler.trace st)) = Some (rootStrong, 0)
    /\ Forall (fun e => 0 <= snd e <= Types.maxDepth recipe)
              (enqueued (Crawler.trace st))
    /\ Forall (fun i => 0 <= Crawler.depth i <= Types.maxDepth recipe) (Crawler.q st)
    /\ forall st' item rest,
         Crawler.q st = item :: rest ->
         stepE E recipe renameOnUpdate st = Some st' ->
         exists pushed,
           enqueued (Crawler.trace st') = enqueued (Crawler.trace st) ++ pushed
           /\ Forall (fun e => snd e = Crawler.depth item + 1
                               /\ Crawler.depth item < Types.maxDepth recipe) pushed.
Proof.
  intros E recipe ren root idx w st Hn Hd Hr. cbv zeta.
  pose proof (reaches_withinBudget E recipe ren _ _ Hr
                (initial_withinBudget E recipe root idx w Hn Hd)) as HB.
  unfold withinBudget in HB. cbv zeta in HB.
  destruct HB as (Hp & _ & _ & _ & Hsum & Herr & Hle & Hq & Htr).
  repeat (split; [first [lia|assumption]|]).
  split; [eapply reaches_trace_head; [exact Hr|reflexivity]|].
  split; [exact Htr|]. split; [exact Hq|].
  intros st' item rest Hq' Hs. apply step_round in Hs. destruct Hs as [_ Hround].
  eapply round_enqueues; eauto.
Qed.

Lemma crawl_stays_within_budget_witness :
  Crawler.processed (Demo.lastState Demo.good (Demo.recipe 1 2) (str "G1") [] 20) <= 2.
Proof.
  apply (crawl_stays_within_budget Demo.good (Demo.recipe 1 2) false (str "G1") ∅ []
           _ ltac:(cbn; lia) ltac:(cbn; lia) (lastState_reached _ _ _ _ _)).
Defined.

(** C6, as the code has it.  Once the lemma index has been built --
    which happens before the loop and outside its [try] block -- the run
    returns, whatever the fetcher, the parser, the writer and the vault
    do: its result is that of the state in which the loop ends, and
    every state the run passes through leads there.  In every round,
    when a call of the [try] block (the fetch, the parsing, the lemma
    linking, the upsert, the creation of a scripture note) throws [msg],
    the round still completes: [(id, msg)] is appended to the error list,
    the node counts as processed, and the loop goes on with the rest of
    the queue.  No round removes an entry, so the list that the run
    returns holds every error recorded on the way. *)
Theorem node_errors_are_recorded_and_the_result_returned :
  forall (E : Env) (recipe : Types.Recipe) (renameOnUpdate : bool)
         (rootStrong : jsstring) (w w1 : World E) (idx : gmap jsstring jsstring),
    buildLemmaIndex E (setRateLimit E (Types.rateLimitMs recipe) w)
      (Types.rootFolder recipe) = (w1, Ok idx) ->
    exists fuel final,
      runE E rootStrong recipe renameOnUpdate w fuel = Some (Ok final)
      /\ reaches E recipe renameOnUpdate (Crawler.initial rootStrong idx w1) final
      /\ stepE E recipe renameOnUpdate final = None
      /\ forall st,
           reaches E recipe renameOnUpdate (Crawler.initial rootStrong idx w1) st ->
           reaches E recipe renameOnUpdate st final
           /\ Types.errors (Crawler.res st)
                `prefix_of` Types.errors (Crawler.res final)
           /\ forall item rest msg,
                Crawler.q st = item :: rest ->
                Crawler.processed st < Types.maxNodes recipe ->
                Crawler.qstrong item ∉ Crawler.seen st ->
                findExisting E (Crawler.world st) (Crawler.qstrong item) recipe
                  && Types.skipExisting recipe = false ->
                bodyThrows E recipe renameOnUpdate (Crawler.qstrong item)
                  (entering st item rest) msg ->
                exists st',
                  stepE E recipe renameOnUpdate st = Some st'
                  /\ Types.errors (Crawler.res st')
                     = Types.errors (Crawler.res st) ++ [(Crawler.qstrong item, msg)]
                  /\ Crawler.processed st' = Crawler.processed st + 1
                  /\ (exists pushed, Crawler.q st' = rest ++ pushed)
                  /\ In (Crawler.qstrong item, msg)
                        (Types.errors (Crawler.res final)).
Proof.
  intros E recipe ren root w w1 idx Hidx.
  destruct (loop_terminates E recipe ren (Crawler.initial root idx w1))
    as (fuel & final & Hl).
  exists fuel, final.
  destruct (loop_reaches E recipe ren _ _ _ Hl) as [Hfinal Hend].
  split.
  { unfold runE, Crawler.run. rewrite Hidx.
    unfold loopE in Hl. rewrite Hl. reflexivity. }
  split; [exact Hfinal|]. split; [exact Hend|].
  intros st Hr.
  pose proof (reaches_final E recipe ren _ _ _ Hr Hfinal Hend) as Hto.
  split; [exact Hto|]. split; [apply (reaches_errors_prefix E recipe ren), Hto|].
  intros item rest msg Hq Hp Hseen Hx Hthrow.
  apply (tryBody_throws E recipe ren _ (Crawler.depth item)) in Hthrow.
  destruct (tryBodyE E recipe ren (Crawler.qstrong item) (Crawler.depth item)
              (entering st item rest)) as [stb thrown] eqn:Hb.
  cbn in Hthrow. subst thrown.
  pose proof (step_visit E recipe ren st item rest stb (Some msg) Hq Hp Hseen Hx Hb)
    as Hstep.
  eexists. split; [exact Hstep|].
  apply tryBody_effect in Hb. unfold entering in Hb.
  cbn [Crawler.q Crawler.seen Crawler.processed Crawler.res Crawler.trace] in Hb.
  destruct Hb as (_ & Hp' & He & _ & _ & pushed & Hqb & _).
  cbn [Crawler.res Crawler.processed Crawler.q]. cbn [Crawler.addError Types.errors].
  rewrite He, Hp'. split; [reflexivity|]. split; [reflexivity|].
  split; [eauto|].
  destruct (reaches_first_step E recipe ren _ _ Hto) as [->|(st1 & H1 & Hr1)];
    [congruence|].
  rewrite Hstep in H1. injection H1 as <-.
  apply (reaches_errors_prefix E recipe ren) in Hr1.
  cbn [Crawler.res Crawler.addError Types.errors] in Hr1. rewrite He in Hr1.
  destruct Hr1 as (more & ->).
  apply in_or_app. left. apply in_or_app. right. left. reflexivity.
Qed.

Lemma node_errors_are_recorded_and_the_result_returned_witness :
  exists fuel final,
    runE Demo.garbled (str "G1") (Demo.recipe 2 10) false [] fuel = Some (Ok final)
    /\ reaches Demo.garbled (Demo.recipe 2 10) false
         (Crawler.initial (str "G1") ∅ []) final
    /\ stepE Demo.garbled (Demo.recipe 2 10) false final = None.
Proof.
  destruct (node_errors_are_recorded_and_the_result_returned Demo.garbled
              (Demo.recipe 2 10) false (str "G1") [] [] ∅ eq_refl)
    as (fuel & final & Hrun & Hreach & Hend & _).
  exists fuel, final. split; [exact Hrun|]. split; [exact Hreach|exact Hend].
Defined.

(** C6 as stated fails: when reading a note fails while the lemma index is
    built, the exception leaves [run], and no result is returned, with
    whatever fuel. *)
Lemma no_result_when_the_lemma_index_fails :
  ~ exists fuel final,
      runE Demo.unreadable (str "G1") (Demo.recipe 2 10) false [] fuel
      = Some (Ok final).
Proof. intros (fuel & final & H). discriminate H. Qed.

(** The scenarios of the design document. *)
Example crawl_scenario_all_four :
  let st := Demo.lastState Demo.good (Demo.recipe 2 10) (str "G1") [] 20 in
  fetchedIds (Crawler.trace st) = [str "G1"; str "G2"; str "G3"; str "G4"]
  /\ Crawler.res st
     = {| Types.created := 4; Types.updated := 0; Types.skipped := 0;
          Types.errors := [] |}.
Proof. vm_compute. split; reflexivity. Qed.

Example crawl_scenario_budget_of_two :
  let st := Demo.lastState Demo.good (Demo.recipe 1 2) (str "G1") [] 20 in
  fetchedIds (Crawler.trace st) = [str "G1"; str "G2"]
  /\ enqueued (Crawler.trace st)
     = [(str "G1", 0); (str "G2", 1); (str "G3", 1)]
  /\ Types.created (Crawler.res st) = 2.
Proof. vm_compute. repeat split; reflexivity. Qed.

Example crawl_scenario_every_fetch_fails :
  let st := Demo.lastState Demo.offline (Demo.recipe 2 10) (str "G1") [] 20 in
  Crawler.res st
  = {| Types.created := 0; Types.updated := 0; Types.skipped := 0;
       Types.errors := [(str "G1", str "net::ERR_FAILED")] |}.
Proof. vm_compute. reflexivity. Qed.

Example crawl_scenario_a_page_breaks_the_parser :
  let st := Demo.lastState Demo.garbled (Demo.recipe 2 10) (str "G1") [] 20 in
  fetchedIds (Crawler.trace st) = [str "G1"; str "G2"; str "G3"]
  /\ Crawler.res st
     = {| Types.created := 2; Types.updated := 0; Types.skipped := 0;
          Types.errors := [(str "G2", str "Cannot read properties of null")] |}.
Proof. vm_compute. split; reflexivity. Qed.

(** ** Script runs and lemma links *)

Section Runs.
Import Re.
Local Open Scope nat_scope.

Variable p : N -> bool.

Local Abbreviation notp := (fun c => negb (p c)).

Lemma classPrefix_nil_iff (f : N -> bool) (s : jsstring) :
  classPrefix f s = [] <-> match s with c :: _ => f c = false | [] => True end.
Proof.
  destruct s as [|c s]; cbn; [tauto|].
  destruct (f c); split; congruence.
Qed.

Lemma classPrefix_app_stop (f : N -> bool) (xs ys : jsstring) :
  forallb f xs = true ->
  match ys with c :: _ => f c = false | [] => True end ->
  classPrefix f (xs ++ ys) = xs.
Proof.
  intros Hall Hstop. induction xs as [|x xs IH]; cbn.
  - apply classPrefix_nil_iff. exact Hstop.
  - cbn in Hall. apply andb_true_iff in Hall. destruct Hall as [Hx Hall].
    rewrite Hx. f_equal. apply IH, Hall.
Qed.

(** A search for [[class]+] passes over what is not of the class and
    matches the run that follows, if one does. *)
Lemma searchFrom_plus_class (s : jsstring) (pos : nat) (pv : option N) :
  let skip := classPrefix notp s in
  let s' := drop (length skip) s in
  let run := classPrefix p s' in
  searchFrom (plus (Chr p)) pos pv s
  = match run with
    | [] => None
    | _ :: _ =>
        Some {| index := pos + length skip;
                matched := run;
                after := {| prev := last run;
                            rest := drop (length run) s';
                            caps := [] |} |}
    end.
Proof.
  cbv zeta. revert pos pv. induction s as [|c s IH]; intros pos pv.
  - cbn [searchFrom]. unfold plus. rewrite mt_rep_class. reflexivity.
  - cbn [searchFrom]. unfold plus. rewrite mt_rep_class. cbn [rest classPrefix].
    destruct (p c) eqn:Hc; cbn [negb length drop classPrefix].
    + rewrite Hc. cbn [length Nat.leb]. f_equal.
      unfold consumed, advance. cbn [rest prev caps length].
      rewrite Nat.add_0_r. f_equal.
      * rewrite length_drop. cbn [length drop].
        pose proof (classPrefix_split p s) as Hs.
        assert (Hlen : length (classPrefix p s) <= length s).
        { rewrite Hs at 2. rewrite length_app. lia. }
        replace (S (length s) - (S (length s) - S (length (classPrefix p s))))
          with (S (length (classPrefix p s))) by lia.
        cbn [take]. f_equal.
        rewrite Hs at 2. rewrite take_app_length. reflexivity.
      * f_equal. destruct (last (c :: classPrefix p s)) eqn:Hl; [reflexivity|].
        apply last_None in Hl. discriminate.
    + cbn [length Nat.leb]. unfold plus in IH. rewrite IH.
      destruct (classPrefix p (drop (length (classPrefix notp s)) s));
        [reflexivity|]. do 2 f_equal. lia.
Qed.

Lemma forallb_notp_no_run (s t : jsstring) :
  forallb notp s = true -> ~ maximalRun p s t.
Proof.
  intros Hall (Hne & Hp & before & after & Hs & _).
  destruct t as [|c t]; [congruence|].
  cbn in Hp. apply andb_true_iff in Hp. destruct Hp as [Hc _].
  rewrite Hs in Hall. rewrite !forallb_app in Hall. cbn in Hall.
  rewrite Hc in Hall. cbn in Hall. rewrite andb_false_r in Hall. discriminate.
Qed.

Lemma last_app_ne {A : Type} (l k : list A) :
  k <> [] -> last (l ++ k) = last k.
Proof.
  intros Hk. destruct k as [|x k]; [congruence|].
  rewrite last_app. destruct (last (x :: k)) eqn:Hl; [reflexivity|].
  apply last_None in Hl. discriminate.
Qed.

(** The runs of a text that starts with what is not of the class, then a
    run, then the rest: the run, and the runs of the rest. *)
Lemma maximalRun_split (skip run rest' t : jsstring) :
  forallb notp skip = true ->
  run <> [] -> forallb p run = true ->
  match rest' with c :: _ => p c = false | [] => True end ->
  maximalRun p (skip ++ run ++ rest') t <-> t = run \/ maximalRun p rest' t.
Proof.
  intros Hskip Hne Hrun Hstop. split.
  - intros (Htne & Htp & before & after & Hs & Hl & Hr).
    destruct (Nat.lt_ge_cases (length before) (length skip)) as [Hlt|Hge].
    { (* the run would start inside [skip] *)
      exfalso. destruct t as [|c t]; [congruence|].
      cbn in Htp. apply andb_true_iff in Htp. destruct Htp as [Hc _].
      assert (Hin : skip !! length before = Some c).
      { assert (H1 : (skip ++ run ++ rest') !! length before = Some c).
        { rewrite Hs. rewrite lookup_app_r by lia.
          rewrite Nat.sub_diag. reflexivity. }
        rewrite lookup_app_l in H1 by lia. exact H1. }
      apply list_elem_of_lookup_2 in Hin.
      rewrite forallb_forall in Hskip. apply list_elem_of_In in Hin.
      apply Hskip in Hin. rewrite Hc in Hin. discriminate. }
    assert (Hb : before = skip ++ drop (length skip) before
                 /\ drop (length skip) before ++ t ++ after = run ++ rest').
    { assert (H1 : take (length skip) (before ++ t ++ after) = skip)
        by (rewrite <- Hs; apply take_app_length).
      rewrite take_app_le in H1 by lia.
      split.
      - rewrite <- H1 at 1. symmetry. apply take_drop.
      - assert (H2 : drop (length skip) (before ++ t ++ after) = run ++ rest')
          by (rewrite <- Hs; apply drop_app_length).
        rewrite drop_app_le in H2 by lia. exact H2. }
    destruct Hb as [Hb Hrest].
    remember (drop (length skip) before) as b' eqn:Hdef. clear Hdef.
    destruct (Nat.lt_ge_cases (length b') (length run)) as [Hlt|Hge'].
    + (* the run starts inside [run]: at its start, and it is [run] *)
      destruct b' as [|x b1].
      * left. cbn in Hrest.
        assert (H1 : classPrefix p (t ++ after) = t)
          by (apply classPrefix_app_stop; assumption).
        assert (H2 : classPrefix p (run ++ rest') = run)
          by (apply classPrefix_app_stop; assumption).
        congruence.
      * exfalso.
        assert (Hlast : exists y, last before = Some y /\ y ∈ run).
        { rewrite Hb. rewrite last_app_ne by discriminate.
          destruct (last (x :: b1)) as [y|] eqn:Hy;
            [|apply last_None in Hy; discriminate].
          exists y. split; [reflexivity|].
          apply last_Some in Hy. destruct Hy as [l' Hl'].
          assert (Hpre : take (length (x :: b1)) (run ++ rest') = x :: b1).
          { rewrite <- Hrest. apply take_app_length. }
          rewrite take_app_le in Hpre by lia.
          assert (Hin : y ∈ take (length (x :: b1)) run).
          { rewrite Hpre, Hl'. apply elem_of_app. right. apply list_elem_of_singleton.
            reflexivity. }
          eapply subseteq_take; eauto. }
        destruct Hlast as (y & Hy & Hin). rewrite Hy in Hl.
        rewrite forallb_forall in Hrun. apply list_elem_of_In in Hin.
        apply Hrun in Hin. congruence.
    + (* the run lies in the rest *)
      right. split; [exact Htne|]. split; [exact Htp|].
      exists (drop (length run) b'), after.
      assert (H1 : take (length run) (b' ++ t ++ after) = run)
        by (rewrite Hrest; apply take_app_length).
      rewrite take_app_le in H1 by lia.
      assert (H2 : drop (length run) (b' ++ t ++ after) = rest')
        by (rewrite Hrest; apply drop_app_length).
      rewrite drop_app_le in H2 by lia.
      split; [symmetry; exact H2|]. split; [|exact Hr].
      destruct (drop (length run) b') as [|z b''] eqn:Hd; [cbn; exact I|].
      assert (Hbb : before = (skip ++ take (length run) b') ++ z :: b'').
      { rewrite Hb at 1. rewrite <- app_assoc. f_equal.
        rewrite <- Hd. symmetry. apply take_drop. }
      rewrite Hbb in Hl. rewrite last_app_ne in Hl by discriminate. exact Hl.
  - intros [->|(Htne & Htp & before & after & Hs & Hl & Hr)].
    + split; [exact Hne|]. split; [exact Hrun|].
      exists skip, rest'. split; [reflexivity|]. split; [|exact Hstop].
      destruct (last skip) as [y|] eqn:Hy; [|exact I].
      apply last_Some in Hy. destruct Hy as [l' ->].
      rewrite forallb_app in Hskip. apply andb_true_iff in Hskip.
      destruct Hskip as [_ Hy]. cbn in Hy. rewrite andb_true_r in Hy.
      apply negb_true_iff in Hy. exact Hy.
    + split; [exact Htne|]. split; [exact Htp|].
      exists (skip ++ run ++ before), after.
      split; [rewrite Hs, <- !app_assoc; reflexivity|]. split; [|exact Hr].
      destruct before as [|x before].
      * exfalso. destruct t as [|c t]; [congruence|].
        cbn in Hs. rewrite Hs in Hstop.
        cbn in Htp. apply andb_true_iff in Htp. destruct Htp as [Hc _]. congruence.
      * rewrite app_assoc, last_app_ne by discriminate. exact Hl.
Qed.

(** The matches of [[class]+] with the [g] flag are the maximal runs of the
    class. *)
Lemma matchAllFuel_runs (fuel : nat) (s : jsstring) (pos : nat) (pv : option N)
    (t : jsstring) :
  length s < fuel ->
  In t (map matched (matchAllFuel fuel (plus (Chr p)) pos pv s))
  <-> maximalRun p s t.
Proof.
  revert s pos pv. induction fuel as [|fuel IH]; intros s pos pv Hf; [lia|].
  cbn [matchAllFuel]. rewrite searchFrom_plus_class.
  pose proof (classPrefix_split notp s) as Hs.
  pose proof (classPrefix_all notp s) as Hskip.
  pose proof (classPrefix_stop notp s) as Hgo.
  remember (classPrefix notp s) as skip eqn:Eskip. clear Eskip.
  remember (drop (length skip) s) as s' eqn:Es'.
  pose proof (classPrefix_split p s') as Hs'.
  pose proof (classPrefix_all p s') as Hrun.
  pose proof (classPrefix_stop p s') as Hstop.
  remember (classPrefix p s') as run eqn:Erun.
  remember (drop (length run) s') as rest' eqn:Erest.
  destruct run as [|c run'].
  - cbn. split; [tauto|]. intros Hm. exfalso.
    revert Hm. apply forallb_notp_no_run.
    assert (Hnil : s' = []).
    { destruct s' as [|d s'']; [reflexivity|]. exfalso.
      symmetry in Erun. apply classPrefix_nil_iff in Erun.
      rewrite Erun in Hgo. discriminate. }
    rewrite Hs, Hnil, app_nil_r. exact Hskip.
  - cbn [matched after prev rest map In].
    rewrite IH.
    + rewrite Hs, Hs'.
      rewrite maximalRun_split; try assumption; [|discriminate].
      split; intros [H|H]; auto.
    + assert (Hlen : length s' <= length s) by (subst s'; rewrite length_drop; lia).
      apply (f_equal length) in Hs'. rewrite length_app in Hs'. cbn in Hs', Hf. lia.
Qed.

Lemma matchAll_runs (s t : jsstring) :
  In t (map matched (matchAll (plus (Chr p)) s)) <-> maximalRun p s t.
Proof. unfold matchAll. apply matchAllFuel_runs. lia. Qed.

End Runs.

Section Uniq.
Import Types.

Lemma existsb_eqb (x : jsstring) (l : list jsstring) :
  existsb (eqb x) l = true <-> In x l.
Proof.
  rewrite existsb_exists. unfold eqb. split.
  - intros (y & Hy & He). apply bool_decide_eq_true in He. subst. exact Hy.
  - intros H. exists x. split; [exact H|]. apply bool_decide_eq_true. reflexivity.
Qed.

Lemma uniqAcc_In (x : jsstring) (seen l : list jsstring) :
  In x (uniqAcc seen l) <-> In x l /\ ~ In x seen.
Proof.
  revert seen. induction l as [|y l IH]; intros seen; cbn; [tauto|].
  destruct (existsb (eqb y) seen) eqn:He.
  - apply existsb_eqb in He. rewrite IH. split.
    + tauto.
    + intros [[->|H] Hn]; tauto.
  - assert (Hn : ~ In y seen).
    { intros H. apply existsb_eqb in H. congruence. }
    cbn. rewrite IH. cbn. split.
    + intros [->|[H Hx]]; tauto.
    + intros [[->|H] Hx]; [tauto|].
      destruct (decide (y = x)) as [->|Hne]; [tauto|]. right. tauto.
Qed.

Lemma uniq_In (x : jsstring) (l : list jsstring) : In x (uniq l) <-> In x l.
Proof. unfold uniq. rewrite uniqAcc_In. cbn. tauto. Qed.

End Uniq.

(** C8, as the code has it.  The tokens that [applyLemmaLinks] looks up in
    the lemma index are exactly the maximal runs of Greek-script characters
    and the maximal runs of Hebrew-script characters of the joined section
    text (read by code points) whose length, in UTF-16 code units, is at
    least 2 -- runs of both scripts, whatever the language of the entry:
    the result of the linking does not depend on the entry's language. *)
Theorem tokens_are_the_runs_of_both_scripts :
  forall (isGreek isHebrew : N -> bool) (text token : jsstring),
    (In token (Crawler.extractGreekHebrewTokens isGreek isHebrew text)
     <-> (2 <= length token)%nat
         /\ exists run, token = fromCodePoints run
                        /\ (maximalRun isGreek (toCodePoints text) run
                            \/ maximalRun isHebrew (toCodePoints text) run))
    /\ forall (entry : Types.LexiconEntry) (idx : gmap jsstring jsstring)
              (l : Normalize.Lang),
         Crawler.linkLemmas isGreek isHebrew
           {| Types.strong := Types.strong entry; Types.lang := l;
              Types.lemma := Types.lemma entry;
              Types.transliteration := Types.transliteration entry;
              Types.pronunciation := Types.pronunciation entry;
              Types.phonetic := Types.phonetic entry;
              Types.part_of_speech := Types.part_of_speech entry;
              Types.source_primary := Types.source_primary entry;
              Types.source_alt := Types.source_alt entry;
              Types.blocks := Types.blocks entry;
              Types.links := Types.links entry |} idx
         = Crawler.linkLemmas isGreek isHebrew entry idx.
Proof.
  intros isGreek isHebrew text token. split; [|reflexivity].
  unfold Crawler.extractGreekHebrewTokens.
  rewrite uniq_In, filter_In, in_app_iff.
  unfold Crawler.matchScript.
  rewrite !in_map_iff.
  split.
  - intros [[(m & Hm & Hin)|(m & Hm & Hin)] Hlen];
      apply Nat.leb_le in Hlen; (split; [exact Hlen|]);
      exists (Re.matched m); (split; [symmetry; exact Hm|]).
    + left. apply matchAll_runs. apply in_map. exact Hin.
    + right. apply matchAll_runs. apply in_map. exact Hin.
  - intros (Hlen & run & -> & [Hr|Hr]); (split; [|apply Nat.leb_le; exact Hlen]);
      apply matchAll_runs in Hr; apply in_map_iff in Hr;
      destruct Hr as (m & Hm & Hin).
    + left. exists m. rewrite Hm. tauto.
    + right. exists m. rewrite Hm. tauto.
Qed.

(** C8, where it fails as stated: in the entry of a Greek word the run of
    Hebrew letters is a token, is resolved against the lemma index and is
    rewritten into a link. *)
Lemma hebrew_run_is_linked_in_a_greek_entry :
  Types.lang Demo.greekEntry = Normalize.greek
  /\ Crawler.extractGreekHebrewTokens Demo.greekLetter Demo.hebrewLetter
       (str "Of Hebrew origin, " ++ Demo.av ++ str "; father") = [Demo.av]
  /\ Crawler.linkLemmas Demo.greekLetter Demo.hebrewLetter Demo.greekEntry
       Demo.avIndex
     = ([(Types.strongs_definition,
          str "Of Hebrew origin, [[" ++ Demo.av ++ str "]]; father")],
        [Demo.av]).
Proof. vm_compute. repeat split; reflexivity. Qed.

(** ** What a successful match tells *)

Section Soundness.
Import Re.
Local Open Scope nat_scope.

Lemma repLoop_sound (a : regex) (greedy : bool) (lo : nat) (hi : option nat)
    (k : cont) :
  (forall k' st x, mt a k' st = Some x ->
                   exists st', matches a st st' /\ k' st' = Some x) ->
  forall fuel count st x,
    repLoop (mt a) greedy lo hi k fuel count st = Some x ->
    withinMax count hi ->
    exists n st', iter (matches a) n st st'
                  /\ lo <= count + n /\ withinMax (count + n) hi
                  /\ k st' = Some x.
Proof.
  intros IHa. induction fuel as [|fuel IH]; intros count st x H Hc; [discriminate|].
  cbn [repLoop] in H.
  assert (Hagain :
            (if belowMax count hi
             then mt a (fun s' => if length (rest s') <? length (rest st)
                                  then repLoop (mt a) greedy lo hi k fuel (S count) s'
                                  else None) st
             else None) = Some x ->
            exists n st', iter (matches a) n st st'
                          /\ lo <= count + n /\ withinMax (count + n) hi
                          /\ k st' = Some x).
  { intros Hx. destruct (belowMax count hi) eqn:Hb; [|discriminate].
    apply IHa in Hx. destruct Hx as (s1 & Hm & Hx).
    destruct (length (rest s1) <? length (rest st)); [|discriminate].
    apply IH in Hx.
    - destruct Hx as (n & st' & Hit & Hlo & Hhi & Hk).
      exists (S n), st'. split; [exists s1; tauto|].
      replace (count + S n) with (S count + n) by lia. tauto.
    - destruct hi as [h|]; cbn in *; [apply Nat.ltb_lt in Hb; lia|exact I]. }
  assert (Hstop :
            (if lo <=? count then k st else None) = Some x ->
            exists n st', iter (matches a) n st st'
                          /\ lo <= count + n /\ withinMax (count + n) hi
                          /\ k st' = Some x).
  { intros Hx. destruct (lo <=? count) eqn:Hl; [|discriminate].
    apply Nat.leb_le in Hl. exists 0, st. rewrite Nat.add_0_r. cbn. tauto. }
  destruct greedy.
  - destruct (if belowMax count hi then _ else None) eqn:Ha.
    + apply Hagain. congruence.
    + apply Hstop. exact H.
  - destruct (if lo <=? count then k st else None) eqn:Hs.
    + apply Hstop. congruence.
    + apply Hagain. exact H.
Qed.

(** The matcher is sound: what it returns comes from a match of the
    pattern followed by a success of the continuation. *)
Lemma mt_sound (r : regex) :
  forall (k : cont) (st x : mstate),
    mt r k st = Some x -> exists st', matches r st st' /\ k st' = Some x.
Proof.
  induction r as [|p|a IHa b IHb|a IHa b IHb|g lo hi a IHa|i a IHa|];
    intros k st x H; cbn [mt] in H; cbn [matches].
  - eauto.
  - destruct (rest st) as [|c t] eqn:Hr; [discriminate|].
    destruct (p c) eqn:Hp; [|discriminate]. eauto 8.
  - apply IHa in H. destruct H as (m & Ha & H).
    apply IHb in H. destruct H as (st' & Hb & H). eauto.
  - destruct (mt a k st) eqn:Ha.
    + injection H as ->. apply IHa in Ha. destruct Ha as (st' & Hm & Hk). eauto.
    + apply IHb in H. destruct H as (st' & Hm & Hk). eauto.
  - apply (repLoop_sound a g lo hi k IHa) in H.
    + destruct H as (n & st' & Hit & Hlo & Hhi & Hk). eauto 8.
    + destruct hi; cbn; [lia|exact I].
  - apply IHa in H. destruct H as (m & Hm & Hk). eauto.
  - destruct (atWordBoundary st) eqn:Hb; [|discriminate]. eauto.
Qed.

(** What a search returns is a match of the pattern that starts with no
    group captured. *)
Lemma searchFrom_sound (r : regex) (s : jsstring) (pos : nat) (pv : option N)
    (m : found) :
  searchFrom r pos pv s = Some m ->
  exists (pv' : option N) (before s' : jsstring),
    s = before ++ s'
    /\ index m = pos + length before
    /\ matches r {| prev := pv'; rest := s'; caps := [] |} (after m)
    /\ matched m = consumed {| prev := pv'; rest := s'; caps := [] |} (after m).
Proof.
  revert pos pv. induction s as [|c s IH]; intros pos pv; cbn [searchFrom].
  - destruct (mt r Some _) as [s'|] eqn:Hm; [|discriminate].
    intros [= <-]. apply mt_sound in Hm. destruct Hm as (st' & Hm & [= <-]).
    exists pv, [], []. cbn. rewrite Nat.add_0_r. auto.
  - destruct (mt r Some _) as [s'|] eqn:Hm.
    + intros [= <-]. apply mt_sound in Hm. destruct Hm as (st' & Hm & [= <-]).
      exists pv, [], (c :: s). cbn. rewrite Nat.add_0_r. auto.
    + intros H. apply IH in H.
      destruct H as (pv' & before & s' & -> & Hi & Hm' & Hc).
      exists pv', (c :: before), s'. cbn. repeat split; auto. lia.
Qed.

(** A run of a character class, read by [n] steps. *)
Lemma iter_class (p : N -> bool) (n : nat) (s s' : mstate) :
  iter (matches (Chr p)) n s s' ->
  exists xs, rest s = xs ++ rest s' /\ length xs = n /\ forallb p xs = true
             /\ caps s' = caps s.
Proof.
  revert s. induction n as [|n IH]; intros s; cbn [iter].
  - intros ->. exists []. auto.
  - intros (m & (c & t & Hr & Hp & ->) & Hit).
    apply IH in Hit. cbn [rest caps] in Hit.
    destruct Hit as (xs & Hx & Hl & Hall & Hc).
    exists (c :: xs). rewrite Hr, Hx. cbn. rewrite Hp, Hall, Hl. auto.
Qed.

Lemma consumed_app (s s' : mstate) (xs : jsstring) :
  rest s = xs ++ rest s' -> consumed s s' = xs.
Proof.
  intros H. unfold consumed. rewrite H, length_app.
  replace (length xs + length (rest s') - length (rest s')) with (length xs) by lia.
  apply take_app_length.
Qed.

(** A literal read under the [i] flag. *)
Lemma matches_litCI (l : jsstring) (s s' : mstate) :
  matches (litCI l) s s' ->
  exists xs, rest s = xs ++ rest s'
             /\ map asciiLower xs = map asciiLower l
             /\ caps s' = caps s.
Proof.
  revert s. induction l as [|c l IH]; intros s.
  - cbn. intros ->. exists []. auto.
  - destruct l as [|d l].
    + cbn. intros (x & t & Hr & Hp & ->). exists [x]. rewrite Hr. cbn.
      unfold onlyCI in Hp. apply N.eqb_eq in Hp. rewrite Hp. auto.
    + change (litCI (c :: d :: l)) with (Seq (Chr (onlyCI c)) (litCI (d :: l))).
      cbn [matches]. intros (m & (x & t & Hr & Hp & ->) & Hm).
      apply IH in Hm. cbn [rest caps] in Hm.
      destruct Hm as (xs & Hx & Hmap & Hc).
      exists (x :: xs). rewrite Hr, Hx.
      unfold onlyCI in Hp. apply N.eqb_eq in Hp.
      cbn [map]. rewrite Hp, Hmap. auto.
Qed.

End Soundness.

(** ** Decimal numerals *)

Section Decimal.
Local Open Scope N_scope.

Lemma decimalFuel_acc (fuel : nat) (n : N) (acc : jsstring) :
  decimalFuel fuel n acc = decimalFuel fuel n [] ++ acc.
Proof.
  revert n acc. induction fuel as [|fuel IH]; intros n acc; cbn; [reflexivity|].
  destruct (n <? 10); [reflexivity|].
  rewrite IH. rewrite (IH _ [_]). rewrite <- app_assoc. reflexivity.
Qed.

(** Enough fuel is as good as more. *)
Lemma decimalFuel_enough (f1 f2 : nat) (n : N) (acc : jsstring) :
  n < 2 ^ N.of_nat (S f1) -> n < 2 ^ N.of_nat (S f2) ->
  decimalFuel (S f1) n acc = decimalFuel (S f2) n acc.
Proof.
  revert f2 n acc. induction f1 as [|f1 IH]; intros f2 n acc H1 H2.
  - change (2 ^ N.of_nat 1) with 2 in H1.
    cbn [decimalFuel].
    replace (n <? 10) with true by (symmetry; apply N.ltb_lt; lia). reflexivity.
  - cbn [decimalFuel]. destruct (n <? 10) eqn:Hn; [reflexivity|].
    apply N.ltb_ge in Hn.
    destruct f2 as [|f2].
    { change (2 ^ N.of_nat 1) with 2 in H2. lia. }
    apply IH.
    + rewrite Nat2N.inj_succ, N.pow_succ_r' in H1.
      apply N.Div0.div_lt_upper_bound. lia.
    + rewrite Nat2N.inj_succ, N.pow_succ_r' in H2.
      apply N.Div0.div_lt_upper_bound. lia.
Qed.

Lemma log2_fuel (n : N) : n < 2 ^ N.of_nat (S (N.to_nat (N.log2 n))).
Proof.
  rewrite Nat2N.inj_succ, N2Nat.id.
  destruct (N.eq_dec n 0) as [->|Hn]; [reflexivity|].
  apply N.log2_spec. lia.
Qed.

Lemma numToString_small (n : N) : n < 10 -> numToString n = [48 + n].
Proof.
  intros H. unfold numToString. cbn [decimalFuel].
  replace (n <? 10) with true by (symmetry; apply N.ltb_lt; lia).
  rewrite N.mod_small by lia. reflexivity.
Qed.

Lemma numToString_step (n : N) :
  10 <= n -> numToString n = numToString (n / 10) ++ [48 + n mod 10].
Proof.
  intros H. unfold numToString at 1. cbn [decimalFuel].
  replace (n <? 10) with false by (symmetry; apply N.ltb_ge; lia).
  rewrite decimalFuel_acc. f_equal.
  assert (Hlog : 3 <= N.log2 n).
  { change 3 with (N.log2 8). apply N.log2_le_mono. lia. }
  destruct (N.to_nat (N.log2 n)) as [|f] eqn:Hf; [lia|].
  unfold numToString. apply decimalFuel_enough; [|apply log2_fuel].
  pose proof (log2_fuel n) as Hn. rewrite Hf in Hn.
  rewrite Nat2N.inj_succ, N.pow_succ_r' in Hn.
  apply N.Div0.div_lt_upper_bound. lia.
Qed.

(** Induction on a number through its decimal digits. *)
Lemma decimal_ind (P : N -> Prop) :
  (forall n, n < 10 -> P n) ->
  (forall n, 10 <= n -> P (n / 10) -> P n) ->
  forall n, P n.
Proof.
  intros Hsmall Hstep n.
  induction n as [n IH] using (well_founded_induction N.lt_wf_0).
  destruct (N.lt_ge_cases n 10) as [Hlt|Hge]; [apply Hsmall, Hlt|].
  apply Hstep; [exact Hge|]. apply IH. apply N.Div0.div_lt_upper_bound. lia.
Qed.

Lemma isDigit_code (d : N) : d < 10 -> isDigit (48 + d) = true.
Proof.
  intros H. unfold isDigit, inRange. apply andb_true_iff.
  split; apply N.leb_le; lia.
Qed.

Lemma numToString_digits (n : N) : forallb isDigit (numToString n) = true.
Proof.
  induction n as [n Hn|n Hn IH] using decimal_ind.
  - rewrite numToString_small by exact Hn. cbn. rewrite isDigit_code by lia. reflexivity.
  - rewrite numToString_step by exact Hn. rewrite forallb_app, IH. cbn.
    rewrite isDigit_code; [reflexivity|]. apply N.mod_lt. lia.
Qed.

Lemma numToString_nonempty (n : N) : numToString n <> [].
Proof.
  destruct (N.lt_ge_cases n 10) as [Hlt|Hge].
  - rewrite numToString_small by exact Hlt. discriminate.
  - rewrite numToString_step by exact Hge. intros H.
    apply app_eq_nil in H. destruct H as [_ H]. discriminate.
Qed.

Lemma digitsValue_app (xs ys : jsstring) (acc : N) :
  forallb isDigit xs = true ->
  digitsValue acc (xs ++ ys) = digitsValue (digitsValue acc xs) ys.
Proof.
  revert acc. induction xs as [|x xs IH]; intros acc H; cbn; [reflexivity|].
  cbn in H. apply andb_true_iff in H. destruct H as [Hx H].
  rewrite Hx. apply IH, H.
Qed.

Lemma numToString_value (n : N) : digitsValue 0 (numToString n) = n.
Proof.
  induction n as [n Hn|n Hn IH] using decimal_ind.
  - rewrite numToString_small by exact Hn. cbn [digitsValue].
    rewrite isDigit_code by lia. lia.
  - rewrite numToString_step by exact Hn.
    rewrite digitsValue_app by apply numToString_digits. rewrite IH. cbn [digitsValue].
    rewrite isDigit_code by (apply N.mod_lt; lia).
    pose proof (N.div_mod n 10 ltac:(lia)) as Hdm.
    pose proof (N.mod_lt n 10 ltac:(lia)) as Hm.
    set (d := n / 10) in *. set (m := n mod 10) in *. lia.
Qed.

(** Below 2^53 an integer is its own Number value. *)
Lemma toNumber_exact (n : N) : n < 9007199254740992 -> toNumber n = Int n.
Proof.
  intros Hn. unfold toNumber. apply N.ltb_lt in Hn. rewrite Hn. reflexivity.
Qed.

Lemma numberToString_exact (n : N) :
  n < 9007199254740992 -> numberToString (Int n) = numToString n.
Proof.
  intros Hn. unfold numberToString. apply N.ltb_lt in Hn. rewrite Hn. reflexivity.
Qed.

Lemma parseInt_digits (ds : jsstring) :
  forallb isDigit ds = true -> ds <> [] ->
  parseInt ds = toNumber (digitsValue 0 ds).
Proof.
  intros Hd Hne. unfold parseInt. destruct ds as [|c t]; [congruence|].
  cbn [forallb] in Hd. apply andb_true_iff in Hd. destruct Hd as [Hc _].
  rewrite Hc. reflexivity.
Qed.

Lemma numToString_parseInt (n : N) :
  n < 9007199254740992 -> parseInt (numToString n) = Int n.
Proof.
  intros Hn. rewrite parseInt_digits.
  - rewrite numToString_value. apply toNumber_exact, Hn.
  - apply numToString_digits.
  - apply numToString_nonempty.
Qed.

(** A numeral has no leading zero, except for zero itself. *)
Lemma numToString_head (n : N) :
  0 < n -> exists c t, numToString n = c :: t /\ c <> 48.
Proof.
  induction n as [n Hn|n Hn IH] using decimal_ind; intros Hpos.
  - rewrite numToString_small by exact Hn. exists (48 + n), []. split; [reflexivity|lia].
  - rewrite numToString_step by exact Hn.
    destruct IH as (c & t & -> & Hc).
    { apply N.div_str_pos. lia. }
    exists c, (t ++ [48 + n mod 10]). split; [reflexivity|exact Hc].
Qed.

Lemma numToString_length_le (k : nat) (n : N) :
  n < 10 ^ N.of_nat (S k) -> (length (numToString n) <= S k)%nat.
Proof.
  revert n. induction k as [|k IH]; intros n H.
  - change (10 ^ N.of_nat 1) with 10 in H. rewrite numToString_small by exact H.
    cbn. lia.
  - destruct (N.lt_ge_cases n 10) as [Hlt|Hge].
    + rewrite numToString_small by exact Hlt. cbn. lia.
    + rewrite numToString_step by exact Hge. rewrite length_app. cbn [length].
      assert (Hk : (length (numToString (n / 10)) <= S k)%nat); [|lia].
      apply IH. rewrite Nat2N.inj_succ, N.pow_succ_r' in H.
      apply N.Div0.div_lt_upper_bound. lia.
Qed.

Lemma numToString_length_ge (k : nat) (n : N) :
  10 ^ N.of_nat k <= n -> (S k <= length (numToString n))%nat.
Proof.
  revert n. induction k as [|k IH]; intros n H.
  - pose proof (numToString_nonempty n). destruct (numToString n); [congruence|cbn; lia].
  - rewrite Nat2N.inj_succ, N.pow_succ_r' in H.
    assert (Hge : 10 <= n).
    { assert (1 <= 10 ^ N.of_nat k) by (apply N.lt_pred_le, N.neq_0_lt_0, N.pow_nonzero; lia).
      lia. }
    rewrite numToString_step by exact Hge. rewrite length_app. cbn [length].
    assert (Hk : (S k <= length (numToString (n / 10)))%nat); [|lia].
    apply IH. apply N.div_le_lower_bound; lia.
Qed.

(** The value of at most [k] digits is below [10 ^ k]. *)
Lemma digitsValue_bound (xs : jsstring) (acc : N) :
  forallb isDigit xs = true ->
  digitsValue acc xs < (acc + 1) * 10 ^ N.of_nat (length xs).
Proof.
  revert acc. induction xs as [|x xs IH]; intros acc H.
  - cbn. lia.
  - cbn [digitsValue length]. cbn in H. apply andb_true_iff in H.
    destruct H as [Hx H]. rewrite Hx.
    eapply N.lt_le_trans; [apply IH, H|].
    rewrite Nat2N.inj_succ, N.pow_succ_r'.
    unfold isDigit, inRange in Hx. apply andb_true_iff in Hx.
    destruct Hx as [H1 H2]. apply N.leb_le in H1, H2.
    assert (Hle : acc * 10 + (x - 48) + 1 <= (acc + 1) * 10) by lia.
    rewrite N.mul_assoc.
    apply N.mul_le_mono_r. lia.
Qed.

End Decimal.

(** ** Normalisation of Strong's ids *)

Section NormalizeFacts.
Import Re Normalize.

(** *** What a match of the id patterns captures *)

Lemma matches_chr_inv (p : N -> bool) (s s' : mstate) :
  matches (Chr p) s s' ->
  exists c, rest s = c :: rest s' /\ p c = true /\ caps s' = caps s
            /\ prev s' = Some c.
Proof.
  intros (c & t & Hr & Hp & ->). exists c. cbn. auto.
Qed.

Lemma matches_class_rep (g : bool) (lo : nat) (hi : option nat)
    (p : N -> bool) (s s' : mstate) :
  matches (Rep g lo hi (Chr p)) s s' ->
  exists xs, rest s = xs ++ rest s' /\ (lo <= length xs)%nat
             /\ withinMax (length xs) hi /\ forallb p xs = true
             /\ caps s' = caps s.
Proof.
  intros (n & Hlo & Hhi & Hit). apply iter_class in Hit.
  destruct Hit as (xs & Hr & <- & Hp & Hc). exists xs. auto.
Qed.

Lemma matches_alt_litCI (a b : jsstring) (s s' : mstate) :
  matches (Alt (litCI a) (litCI b)) s s' ->
  exists xs, rest s = xs ++ rest s'
             /\ (map asciiLower xs = map asciiLower a
                 \/ map asciiLower xs = map asciiLower b)
             /\ caps s' = caps s.
Proof.
  intros [H|H]; apply matches_litCI in H; destruct H as (xs & Hr & Hx & Hc);
    exists xs; auto.
Qed.

Lemma reStrongId_groups (s : jsstring) (m : found) :
  exec reStrongId s = Some m ->
  exists c ds,
    (asciiLower c = 103 \/ asciiLower c = 104)%N
    /\ forallb isDigit ds = true /\ (1 <= length ds <= 5)%nat
    /\ grp 1 m = [c] /\ grp 2 m = ds.
Proof.
  unfold exec. intros H. apply searchFrom_sound in H.
  destruct H as (pv & before & s' & _ & _ & Hm & _).
  destruct Hm as (m1 & [_ ->] & m2 & (mm & Halt & ->) & m3 & Hsp & m4 & Hz
                  & m5 & (mm2 & Hd & ->) & [_ Ha]).
  apply matches_class_rep in Hsp, Hz, Hd.
  destruct Hsp as (_ & _ & _ & _ & _ & Hc3).
  destruct Hz as (_ & _ & _ & _ & _ & Hc4).
  destruct Hd as (ds & Hr & Hlo & Hhi & Hds & Hc5).
  assert (Hone : exists c, (asciiLower c = 103 \/ asciiLower c = 104)%N
                           /\ rest {| prev := pv; rest := s'; caps := [] |}
                              = [c] ++ rest mm
                           /\ caps mm = []).
  { destruct Halt as [H|H]; apply matches_chr_inv in H;
      destruct H as (c & Hrc & Hp & Hcc & _); exists c;
      unfold onlyCI in Hp; apply N.eqb_eq in Hp; auto. }
  destruct Hone as (c & Hc & Hrc & Hcc).
  exists c, ds. repeat split; auto.
  - unfold grp, group. rewrite Ha. cbn [after setCap caps lookupCap Nat.eqb].
    rewrite Hc5, Hc4, Hc3. cbn [setCap caps lookupCap Nat.eqb].
    apply consumed_app. exact Hrc.
  - unfold grp, group. rewrite Ha. cbn [after setCap caps lookupCap Nat.eqb].
    apply consumed_app. exact Hr.
Qed.

Lemma reBareNumber_groups (s : jsstring) (m : found) :
  exec reBareNumber s = Some m ->
  exists ds,
    forallb isDigit ds = true /\ (1 <= length ds <= 5)%nat /\ grp 1 m = ds.
Proof.
  unfold exec. intros H. apply searchFrom_sound in H.
  destruct H as (pv & before & s' & _ & _ & Hm & _).
  destruct Hm as (m1 & [_ ->] & m2 & Hz & m3 & (mm & Hd & ->) & [_ Ha]).
  apply matches_class_rep in Hd.
  destruct Hd as (ds & Hr & Hlo & Hhi & Hds & Hc).
  exists ds. repeat split; auto.
  unfold grp, group. rewrite Ha. cbn [after setCap caps lookupCap Nat.eqb].
  apply consumed_app. exact Hr.
Qed.

Lemma reDigits_groups (s : jsstring) (m : found) :
  exec reDigits s = Some m ->
  exists ds,
    forallb isDigit ds = true /\ (1 <= length ds <= 5)%nat /\ grp 1 m = ds.
Proof.
  unfold exec. intros H. apply searchFrom_sound in H.
  destruct H as (pv & before & s' & _ & _ & Hm & _).
  destruct Hm as (m1 & [_ ->] & m2 & (mm & Hd & ->) & [_ Ha]).
  apply matches_class_rep in Hd.
  destruct Hd as (ds & Hr & Hlo & Hhi & Hds & Hc).
  exists ds. repeat split; auto.
  unfold grp, group. rewrite Ha. cbn [after setCap caps lookupCap Nat.eqb].
  apply consumed_app. exact Hr.
Qed.

(** A match of a page address: the language word, the digits, and how
    long the text before the language word is. *)
Lemma url_groups (host : jsstring) (s : jsstring) (m : found) :
  exec (seqs [litCI host;
              Grp 1 (Alt (litCI (str "greek")) (litCI (str "hebrew")));
              Chr (only 47); Grp 2 (plus (Chr isDigit)); litCI (str ".htm")]) s
  = Some m ->
  exists l ds,
    (map asciiLower l = str "greek" \/ map asciiLower l = str "hebrew")
    /\ forallb isDigit ds = true /\ ds <> []
    /\ grp 1 m = l /\ grp 2 m = ds
    /\ (length host <= length s)%nat.
Proof.
  unfold exec. intros H. apply searchFrom_sound in H.
  destruct H as (pv & before & s' & Hs & _ & Hm & _).
  destruct Hm as (m1 & Hhost & m2 & (mm & Halt & ->) & m3 & Hsl
                  & m4 & (mm2 & Hd & ->) & Hext).
  apply matches_litCI in Hhost. destruct Hhost as (hs & Hrh & Hh & Hc1).
  apply matches_alt_litCI in Halt. destruct Halt as (l & Hrl & Hl & Hcl).
  apply matches_chr_inv in Hsl. destruct Hsl as (c & _ & _ & Hc3 & _).
  apply matches_class_rep in Hd.
  destruct Hd as (ds & Hr & Hlo & _ & Hds & Hc4).
  apply matches_litCI in Hext. destruct Hext as (_ & _ & _ & Hc5).
  exists l, ds. repeat split; auto.
  - destruct ds; [cbn in Hlo; lia|discriminate].
  - unfold grp, group. rewrite Hc5. cbn [setCap caps lookupCap Nat.eqb].
    rewrite Hc4, Hc3. cbn [setCap caps lookupCap Nat.eqb].
    apply consumed_app. exact Hrl.
  - unfold grp, group. rewrite Hc5. cbn [setCap caps lookupCap Nat.eqb].
    apply consumed_app. exact Hr.
  - cbn [rest] in Hrh. rewrite Hs, Hrh, !length_app.
    apply (f_equal (@length N)) in Hh. rewrite !length_map in Hh. lia.
Qed.

(** *** Running the id pattern on a canonical id *)

Lemma mt_wordb (k : cont) (st : mstate) :
  mt WordB k st = if atWordBoundary st then k st else None.
Proof. reflexivity. Qed.

Lemma mt_grp (i : nat) (a : regex) (k : cont) (st : mstate) :
  mt (Grp i a) k st = mt a (fun s' => k (setCap i (consumed st s') s')) st.
Proof. reflexivity. Qed.

Lemma mt_alt (a b : regex) (k : cont) (st : mstate) :
  mt (Alt a b) k st
  = match mt a k st with Some r => Some r | None => mt b k st end.
Proof. reflexivity. Qed.

Lemma mt_rep (g : bool) (lo : nat) (hi : option nat) (a : regex) (k : cont)
    (st : mstate) :
  mt (Rep g lo hi a) k st
  = repLoop (mt a) g lo hi k (S (length (rest st))) 0 st.
Proof. reflexivity. Qed.

(** A greedy quantifier over a class reads nothing where no character
    of the class stands. *)
Lemma repLoop_class_none (p : N -> bool) (lo : nat) (hi : option nat)
    (k : cont) (fuel count : nat) (st : mstate) :
  match rest st with c :: _ => p c = false | [] => True end ->
  repLoop (mt (Chr p)) true lo hi k (S fuel) count st
  = if (lo <=? count)%nat then k st else None.
Proof.
  intros H. cbn [repLoop]. rewrite mt_chr.
  destruct (belowMax count hi); [|reflexivity].
  destruct (rest st) as [|c t]; [reflexivity|]. rewrite H. reflexivity.
Qed.

(** It reads the whole rest of the input when that is of the class,
    within the bounds, and what follows the quantifier succeeds there. *)
Lemma repLoop_class_all (p : N -> bool) (lo : nat) (hi : option nat)
    (k : cont) (xs : jsstring) :
  forall (fuel count : nat) (st : mstate),
    rest st = xs -> forallb p xs = true -> (length xs < fuel)%nat ->
    (lo <= count + length xs)%nat -> withinMax (count + length xs) hi ->
    k (advance st xs) <> None ->
    repLoop (mt (Chr p)) true lo hi k fuel count st = k (advance st xs).
Proof.
  induction xs as [|x xs IH]; intros fuel count st Hr Hp Hf Hlo Hhi Hk;
    (destruct fuel as [|fuel]; [cbn in Hf; lia|]).
  - rewrite repLoop_class_none by (rewrite Hr; exact I).
    cbn [length] in Hlo. rewrite Nat.add_0_r in Hlo.
    replace (lo <=? count)%nat with true by (symmetry; apply Nat.leb_le; exact Hlo).
    f_equal. unfold advance. cbn [last length drop]. destruct st; reflexivity.
  - cbn [repLoop]. rewrite mt_chr, Hr.
    cbn [forallb] in Hp. apply andb_true_iff in Hp. destruct Hp as [Hx Hp].
    rewrite Hx. cbn [rest caps length] in *.
    replace (belowMax count hi) with true.
    2:{ destruct hi as [h|]; [|reflexivity]. cbn in Hhi |- *.
        symmetry. apply Nat.ltb_lt. lia. }
    replace (length xs <? S (length xs))%nat with true
      by (symmetry; apply Nat.ltb_lt; lia).
    rewrite <- (advance_cons st x xs xs Hr) in Hk |- *.
    rewrite IH; cbn [rest]; auto; try lia.
    + destruct (k _); [reflexivity|congruence].
    + destruct hi as [h|]; [|exact I]. cbn in Hhi |- *. lia.
Qed.

Lemma advance_all (st : mstate) (c : N) (xs : jsstring) :
  rest st = xs -> last xs = Some c ->
  advance st xs = {| prev := Some c; rest := []; caps := caps st |}.
Proof.
  intros Hr Hl. unfold advance. rewrite Hl, Hr, drop_all. reflexivity.
Qed.

Lemma digit_cases (d : N) :
  isDigit d = true -> In d [48; 49; 50; 51; 52; 53; 54; 55; 56; 57]%N.
Proof.
  unfold isDigit, inRange. intros H. apply andb_true_iff in H.
  destruct H as [H1 H2]. apply N.leb_le in H1, H2. cbn [In]. lia.
Qed.

Lemma digit_not_space (d : N) : isDigit d = true -> isSpace d = false.
Proof.
  intros H. apply digit_cases in H. cbn [In] in H.
  repeat (destruct H as [<-|H]; [reflexivity|]). destruct H.
Qed.

Lemma digit_is_word (d : N) : isDigit d = true -> isWord d = true.
Proof.
  intros H. unfold isWord. rewrite H. rewrite orb_true_r. reflexivity.
Qed.

Lemma last_digit (c : N) (xs : jsstring) :
  forallb isDigit xs = true -> last xs = Some c -> isDigit c = true.
Proof.
  intros Hd Hl. apply last_Some in Hl. destruct Hl as (l & ->).
  rewrite forallb_app in Hd. apply andb_true_iff in Hd. destruct Hd as [_ Hd].
  cbn in Hd. rewrite andb_true_r in Hd. exact Hd.
Qed.

(** The part of the id pattern after the letter, on digits with no
    leading zero. *)
Lemma mt_digits_tail (pc : option N) (d : N) (t : jsstring)
    (cs : list (nat * jsstring)) :
  d <> 48%N -> forallb isDigit (d :: t) = true -> (length (d :: t) <= 5)%nat ->
  mt (seqs [star (Chr isSpace); star (Chr (only 48));
            Grp 2 (between 1 5 (Chr isDigit)); WordB]) Some
     {| prev := pc; rest := d :: t; caps := cs |}
  = Some {| prev := last (d :: t); rest := []; caps := (2%nat, d :: t) :: cs |}.
Proof.
  intros Hd Hds Hlen. set (ds := d :: t) in *.
  assert (Hdd : isDigit d = true).
  { cbn in Hds. apply andb_true_iff in Hds. tauto. }
  destruct (last ds) as [c|] eqn:Hl; [|apply last_None in Hl; discriminate].
  pose proof (last_digit c ds Hds Hl) as Hc.
  unfold star, between. cbn [seqs].
  rewrite mt_seq, mt_rep, repLoop_class_none
    by (cbn [rest]; apply digit_not_space, Hdd).
  cbn [Nat.leb].
  rewrite mt_seq, mt_rep, repLoop_class_none
    by (cbn [rest]; unfold only; apply N.eqb_neq; congruence).
  cbn [Nat.leb].
  rewrite mt_seq, mt_grp, mt_rep.
  set (st := {| prev := pc; rest := ds; caps := cs |}).
  assert (Hadv : advance st ds = {| prev := Some c; rest := []; caps := cs |}).
  { apply advance_all; [reflexivity|exact Hl]. }
  assert (Hend : mt WordB Some (setCap 2 (consumed st (advance st ds)) (advance st ds))
                 = Some {| prev := Some c; rest := []; caps := (2%nat, ds) :: cs |}).
  { rewrite Hadv, mt_wordb. unfold atWordBoundary, wordBefore, wordAfter, setCap.
    cbn [prev rest caps]. rewrite (digit_is_word c Hc). cbn [xorb].
    unfold consumed. cbn [rest length]. rewrite Nat.sub_0_r, firstn_all.
    reflexivity. }
  assert (Hlo : (1 <= 0 + length ds)%nat) by (subst ds; cbn [length]; lia).
  assert (Hf : (length ds < S (length (rest st)))%nat) by (unfold st; cbn [rest]; lia).
  assert (Hk : (fun s' => mt WordB Some (setCap 2 (consumed st s') s'))
                 (advance st ds) <> None).
  { cbv beta. rewrite Hend. discriminate. }
  rewrite (repLoop_class_all isDigit 1 (Some 5%nat) _ ds _ 0%nat st
             eq_refl Hds Hf Hlo Hlen Hk).
  exact Hend.
Qed.

Lemma exec_reStrongId_digits (pc d : N) (t : jsstring) :
  (pc = 71 \/ pc = 72)%N ->
  d <> 48%N -> forallb isDigit (d :: t) = true -> (length (d :: t) <= 5)%nat ->
  exists m, exec reStrongId (pc :: d :: t) = Some m
            /\ grp 1 m = [pc] /\ grp 2 m = d :: t.
Proof.
  intros Hpc Hd Hds Hlen.
  pose proof (mt_digits_tail (Some pc) d t [(1%nat, [pc])] Hd Hds Hlen) as Htail.
  assert (Hm : mt reStrongId Some {| prev := None; rest := pc :: d :: t; caps := [] |}
               = Some {| prev := last (d :: t); rest := [];
                         caps := [(2%nat, d :: t); (1%nat, [pc])] |}).
  { unfold reStrongId.
    change (seqs (WordB :: Grp 1 ?a :: ?l)) with (Seq WordB (Seq (Grp 1 a) (seqs l))).
    rewrite mt_seq, mt_wordb.
    replace (atWordBoundary _) with true by (destruct Hpc as [->| ->]; reflexivity).
    rewrite mt_seq, mt_grp, mt_alt, !mt_chr. cbn [rest caps].
    assert (Hcons : consumed {| prev := None; rest := pc :: d :: t; caps := [] |}
                      {| prev := Some pc; rest := d :: t; caps := [] |} = [pc]).
    { apply consumed_app. reflexivity. }
    rewrite Hcons. unfold setCap. cbn [prev rest caps]. unfold jsstring in *.
    rewrite Htail.
    destruct Hpc as [->| ->]; reflexivity. }
  unfold exec. cbn [searchFrom]. rewrite Hm.
  eexists. split; [reflexivity|]. split; reflexivity.
Qed.

(** *** Canonical ids are what normalisation returns and keeps *)

Lemma trim_strongId (p n : N) :
  (p = 71 \/ p = 72)%N -> trim (p :: numToString n) = p :: numToString n.
Proof.
  intros Hp. pose proof (numToString_digits n) as Hd.
  destruct (last (numToString n)) as [c|] eqn:Hl.
  2:{ apply last_None in Hl. destruct (numToString_nonempty n Hl). }
  pose proof (last_digit c _ Hd Hl) as Hc.
  apply last_Some in Hl. destruct Hl as (l & ->).
  unfold trim. cbn [trimStart].
  replace (isSpace p) with false by (destruct Hp as [->| ->]; reflexivity).
  unfold trimEnd. change (p :: l ++ [c]) with ((p :: l) ++ [c]).
  rewrite rev_unit. cbn [trimStart]. rewrite (digit_not_space c Hc).
  change (c :: rev (p :: l)) with ([c] ++ rev (p :: l)).
  rewrite rev_app_distr, rev_involutive. reflexivity.
Qed.

(** A run of digits whose value is below 2^53 is printed digit by digit,
    without its leading zeros. *)
Lemma stringOfParseInt_digits (ds : jsstring) :
  forallb isDigit ds = true -> ds <> [] ->
  (digitsValue 0 ds < 9007199254740992)%N ->
  stringOfParseInt ds = numToString (digitsValue 0 ds).
Proof.
  intros Hd Hne Hv. unfold stringOfParseInt.
  rewrite parseInt_digits, toNumber_exact by assumption.
  apply numberToString_exact, Hv.
Qed.

Lemma digitsValue_five (ds : jsstring) :
  forallb isDigit ds = true -> (length ds <= 5)%nat ->
  (digitsValue 0 ds < 100000)%N.
Proof.
  intros Hd Hlen. pose proof (digitsValue_bound ds 0 Hd) as Hb.
  eapply N.lt_le_trans; [exact Hb|].
  change (0 + 1)%N with 1%N. rewrite N.mul_1_l.
  change 100000%N with (10 ^ N.of_nat 5)%N.
  apply N.pow_le_mono_r; lia.
Qed.

Lemma stringOfParseInt_five (ds : jsstring) :
  forallb isDigit ds = true -> ds <> [] -> (length ds <= 5)%nat ->
  stringOfParseInt ds = numToString (digitsValue 0 ds)
  /\ (digitsValue 0 ds < 100000)%N.
Proof.
  intros Hd Hne Hlen.
  assert (Hv : (digitsValue 0 ds < 100000)%N)
    by (apply digitsValue_five; assumption).
  split; [|exact Hv]. apply stringOfParseInt_digits; try assumption. lia.
Qed.

Lemma normalizeStrongId_shape (raw : jsstring) (hint : option Lang)
    (id : jsstring) :
  normalizeStrongId raw hint = Some id -> strongId id.
Proof.
  unfold normalizeStrongId.
  destruct (exec reStrongId (trim raw)) as [m1|] eqn:H1.
  - intros [= <-]. apply reStrongId_groups in H1.
    destruct H1 as (c & ds & Hc & Hd & Hlen & -> & ->).
    assert (Hne : ds <> []) by (destruct ds; [cbn in Hlen; lia|discriminate]).
    destruct (stringOfParseInt_five ds Hd Hne ltac:(lia)) as [-> _].
    assert (Hup : (asciiUpper c = 71 \/ asciiUpper c = 72)%N).
    { unfold asciiLower, asciiUpper, isUpper, isLower, inRange in *.
      destruct Hc as [Hc|Hc].
      - left.
        destruct ((65 <=? c)%N && (c <=? 90)%N) eqn:Hu.
        + assert (c = 71%N) as -> by lia. reflexivity.
        + subst c. reflexivity.
      - right.
        destruct ((65 <=? c)%N && (c <=? 90)%N) eqn:Hu.
        + assert (c = 72%N) as -> by lia. reflexivity.
        + subst c. reflexivity. }
    exists (asciiUpper c), (digitsValue 0 ds).
    split; [exact Hup|]. split; [apply digitsValue_five; [exact Hd|lia]|].
    reflexivity.
  - destruct (exec reBareNumber (trim raw)) as [m2|] eqn:H2; [|discriminate].
    destruct hint as [hint|]; [|discriminate].
    intros [= <-]. apply reBareNumber_groups in H2.
    destruct H2 as (ds & Hd & Hlen & ->).
    assert (Hne : ds <> []) by (destruct ds; [cbn in Hlen; lia|discriminate]).
    destruct (stringOfParseInt_five ds Hd Hne ltac:(lia)) as [-> _].
    exists (match hint with greek => 71 | hebrew => 72 end)%N, (digitsValue 0 ds).
    split; [destruct hint; auto|].
    split; [apply digitsValue_five; [exact Hd|lia]|].
    destruct hint; reflexivity.
Qed.

Lemma normalizeStrongId_fixed (p n : N) (hint : option Lang) :
  (p = 71 \/ p = 72)%N -> (n < 100000)%N ->
  normalizeStrongId (p :: numToString n) hint = Some (p :: numToString n).
Proof.
  intros Hp Hn. unfold normalizeStrongId. rewrite trim_strongId by exact Hp.
  destruct (N.eq_dec n 0%N) as [->|Hn0].
  { destruct Hp as [->| ->]; vm_compute; reflexivity. }
  destruct (numToString_head n) as (d & t & Hs & Hd); [lia|].
  pose proof (numToString_digits n) as Hds.
  pose proof (numToString_length_le 4 n Hn) as Hlen.
  pose proof (numToString_parseInt n ltac:(lia)) as Hpi.
  pose proof (numberToString_exact n ltac:(lia)) as Hex.
  rewrite Hs in *.
  destruct (exec_reStrongId_digits p d t Hp Hd Hds Hlen) as (m & -> & -> & ->).
  unfold stringOfParseInt. rewrite Hpi, Hex.
  destruct Hp as [->| ->]; reflexivity.
Qed.

Lemma urlPrefix_letter (l : jsstring) :
  exists p, (p = 71 \/ p = 72)%N /\ urlPrefix l = [p].
Proof.
  unfold urlPrefix. destruct (eqb _ _); eauto.
Qed.

(** The id made of a page address whose number is below 100000. *)
Lemma url_id_shape (l ds id : jsstring) :
  forallb isDigit ds = true -> ds <> [] ->
  (digitsValue 0 ds < 100000)%N ->
  urlPrefix l ++ stringOfParseInt ds = id ->
  strongId id.
Proof.
  intros Hd Hne Hv <-. rewrite stringOfParseInt_digits by (auto; lia).
  destruct (urlPrefix_letter l) as (p & Hp & Hl). rewrite Hl.
  exists p, (digitsValue 0 ds). split; [exact Hp|]. split; [exact Hv|reflexivity].
Qed.

(** A seed that is not the address of a page is normalised to a canonical
    id. *)
Lemma normalizeSeedToStrong_shape (seed id : jsstring) :
  normalizeSeedToStrong seed = Some id ->
  exec reStrongsUrl (trim seed) = None ->
  exec reLangUrl (trim seed) = None ->
  strongId id.
Proof.
  unfold normalizeSeedToStrong. intros H H1 H2. rewrite H1, H2 in H.
  destruct (normalizeStrongId (trim seed) None) as [m3|] eqn:H3.
  { injection H as <-. eapply normalizeStrongId_shape; eauto. }
  destruct (exec reDigits (trim seed)) as [nm|]; [|discriminate].
  eapply normalizeStrongId_shape; eauto.
Qed.

Lemma normalizeSeedToStrong_fixed (id : jsstring) :
  strongId id -> normalizeSeedToStrong id = Some id.
Proof.
  intros (p & n & Hp & Hn & ->).
  pose proof (numToString_length_le 4 n Hn) as Hlen.
  unfold normalizeSeedToStrong. rewrite trim_strongId by exact Hp.
  destruct (exec reStrongsUrl _) as [m|] eqn:H1.
  { apply url_groups in H1. destruct H1 as (_ & _ & _ & _ & _ & _ & _ & Hl).
    change (length (str "biblehub.com/strongs/")) with 21%nat in Hl.
    cbn [length] in Hl. lia. }
  destruct (exec reLangUrl _) as [m|] eqn:H2.
  { apply url_groups in H2. destruct H2 as (_ & _ & _ & _ & _ & _ & _ & Hl).
    change (length (str "biblehub.com/")) with 13%nat in Hl.
    cbn [length] in Hl. lia. }
  rewrite normalizeStrongId_fixed by auto. reflexivity.
Qed.

End NormalizeFacts.

(** The three shapes of a seed, and what the tests of the repository
    expect of [normalizeStrongId]. *)
Example seeds_of_the_three_shapes :
  Normalize.normalizeSeedToStrong (str "G2198") = Some (str "G2198")
  /\ Normalize.normalizeSeedToStrong (str " h 0430 ") = Some (str "H430")
  /\ Normalize.normalizeSeedToStrong (str "2198") = Some (str "G2198")
  /\ Normalize.normalizeSeedToStrong (str "https://biblehub.com/strongs/hebrew/430.htm")
     = Some (str "H430")
  /\ Normalize.normalizeSeedToStrong (str "https://biblehub.com/greek/2198.htm")
     = Some (str "G2198")
  /\ Normalize.normalizeSeedToStrong (str "zoe") = None
  /\ Normalize.normalizeStrongId (str "2198") (Some Normalize.hebrew)
     = Some (str "H2198")
  /\ Normalize.normalizeStrongId (str "2198") None = None.
Proof. vm_compute. repeat split; reflexivity. Qed.

(** X17.  Whatever [normalizeStrongId] returns is a canonical id (the
    letter G or H and a number below 100000 without leading zeros), and
    so is whatever [normalizeSeedToStrong] returns for a seed in which
    neither pattern of a page address is found; and every canonical id is
    returned unchanged by both functions, whatever the language hint.
    Hence normalising such a result again gives the same id. *)
Theorem normalization_fixes_canonical_ids :
  (forall (raw : jsstring) (hint : option Normalize.Lang) (id : jsstring),
     Normalize.normalizeStrongId raw hint = Some id ->
     strongId id
     /\ forall hint', Normalize.normalizeStrongId id hint' = Some id)
  /\ (forall seed id : jsstring,
        Normalize.normalizeSeedToStrong seed = Some id ->
        Re.exec Normalize.reStrongsUrl (trim seed) = None ->
        Re.exec Normalize.reLangUrl (trim seed) = None ->
        strongId id /\ Normalize.normalizeSeedToStrong id = Some id)
  /\ (forall id : jsstring,
        strongId id ->
        Normalize.normalizeSeedToStrong id = Some id
        /\ forall hint, Normalize.normalizeStrongId id hint = Some id).
Proof.
  assert (Hfix : forall id, strongId id ->
                   Normalize.normalizeSeedToStrong id = Some id
                   /\ forall hint, Normalize.normalizeStrongId id hint = Some id).
  { intros id Hid. split; [apply normalizeSeedToStrong_fixed, Hid|].
    destruct Hid as (p & n & Hp & Hn & ->). intros hint.
    apply normalizeStrongId_fixed; assumption. }
  split; [|split; [|exact Hfix]].
  - intros raw hint id H. apply normalizeStrongId_shape in H.
    split; [exact H|]. apply Hfix, H.
  - intros seed id H H1 H2. apply normalizeSeedToStrong_shape in H; [|exact H1|exact H2].
    split; [exact H|]. apply Hfix, H.
Qed.

(** C9.  The address of a page whose number has six digits is accepted
    as a seed, and the id it is normalised to is itself rejected: the
    patterns for an address take any run of digits where those for an id
    take at most five. *)
Lemma six_digit_page_id_is_not_renormalized :
  Normalize.normalizeSeedToStrong
    (str "https://biblehub.com/strongs/greek/123456.htm") = Some (str "G123456")
  /\ Normalize.normalizeSeedToStrong (str "G123456") = None
  /\ Normalize.normalizeStrongId (str "G123456") None = None.
Proof. vm_compute. repeat split; reflexivity. Qed.

(** A longer number is first rounded to a double and then printed with an
    exponent; normalising the result once more gives another id. *)
Example long_page_number_is_printed_with_an_exponent :
  Normalize.normalizeSeedToStrong
    (str "https://biblehub.com/greek/1000000000000000000000.htm")
  = Some (str "G1e+21")
  /\ Normalize.normalizeSeedToStrong (str "G1e+21") = Some (str "G21")
  /\ Normalize.normalizeSeedToStrong
       (str "https://biblehub.com/greek/9007199254740993.htm")
     = Some (str "G9007199254740992").
Proof. vm_compute. repeat split; reflexivity. Qed.

(** ** The parser *)

Section ParserFacts.
Import Re Types Parser.

(** A label that does not occur in the text gives no field. *)
Lemma pickLabel_absent (text label : jsstring) :
  ~ occursCI label text -> pickLabel text label = None.
Proof.
  intros Habs. unfold pickLabel.
  destruct (exec (reLabel label) text) as [m|] eqn:Hm; [|reflexivity].
  exfalso. apply Habs. unfold exec in Hm. apply searchFrom_sound in Hm.
  destruct Hm as (pv & before & s' & -> & _ & Hm & _).
  destruct Hm as (m1 & Hl & _).
  apply matches_litCI in Hl. destruct Hl as (w & Hr & Hw & _).
  cbn [rest] in Hr. exists before, w, (rest m1). rewrite Hr. auto.
Qed.

(** The pattern of a label needs a colon: there is no field in an empty
    text. *)
Lemma pickLabel_empty (label : jsstring) : pickLabel [] label = None.
Proof.
  unfold pickLabel.
  destruct (exec (reLabel label) []) as [m|] eqn:Hm; [|reflexivity].
  exfalso. unfold exec in Hm. apply searchFrom_sound in Hm.
  destruct Hm as (pv & before & s' & Hs & _ & Hm & _).
  symmetry in Hs. apply app_eq_nil in Hs. destruct Hs as [_ ->].
  destruct Hm as (m1 & Hl & m2 & Hsp & m3 & Hcolon & _).
  apply matches_litCI in Hl. destruct Hl as (w & Hr & _ & _).
  cbn [rest] in Hr. symmetry in Hr. apply app_eq_nil in Hr. destruct Hr as [_ Hr1].
  apply matches_class_rep in Hsp. destruct Hsp as (xs & Hr2 & _).
  rewrite Hr1 in Hr2. symmetry in Hr2. apply app_eq_nil in Hr2.
  destruct Hr2 as [_ Hr2].
  apply matches_chr_inv in Hcolon. destruct Hcolon as (c & Hr3 & _).
  rewrite Hr2 in Hr3. discriminate.
Qed.

Lemma fillEmpty_id (b : Blocks) : fillEmpty b = b.
Proof.
  unfold fillEmpty. induction b as [|[k v] b IH]; cbn [map]; [reflexivity|].
  rewrite IH. cbn [fst snd]. destruct v; reflexivity.
Qed.

Lemma trim_nil : trim [] = [].
Proof. reflexivity. Qed.

Lemma extractSectionApprox_empty (toLowerCase : jsstring -> jsstring)
    (header : jsstring) (maxChars : nat) :
  extractSectionApprox toLowerCase [] header maxChars = [].
Proof.
  unfold extractSectionApprox, slice.
  destruct (indexOf _ _); [|reflexivity].
  rewrite drop_nil, take_nil. reflexivity.
Qed.

Lemma extractSectionApprox_absent (toLowerCase : jsstring -> jsstring)
    (text header : jsstring) (maxChars : nat) :
  indexOf (toLowerCase header) (toLowerCase text) = None ->
  extractSectionApprox toLowerCase text header maxChars = [].
Proof.
  intros H. unfold extractSectionApprox. rewrite H. reflexivity.
Qed.

End ParserFacts.

(** Documents without text. *)
Example documents_without_text :
  Parser.htmlToText [] = []
  /\ Parser.htmlToText (str "<html><body><div> </div></body></html>") = []
  /\ Parser.htmlToText
       (str "<script>var a = 'Definition: x';</script><p><br/></p>") = [].
Proof. vm_compute. repeat split; reflexivity. Qed.

(** X1.  [parseStrongsPage] returns, for every id, address and document,
    an entry that carries the id, the address and the language of the
    id, and in which every section key has a block.  A field whose label
    does not occur in the text of the document is left unset; a section
    none of whose headers occurs in the text has the empty block, and so
    have the definition and the summary sections when their labels do
    not occur.  When the document has no text at all, every optional
    field is unset and every block is empty. *)
Theorem missing_data_gives_unset_fields_and_empty_blocks :
  forall (toLowerCase : jsstring -> jsstring) (strong url html : jsstring),
    let text := Parser.htmlToText html in
    let e := Parser.parseStrongsPage toLowerCase strong url html in
    (Types.strong e = strong /\ Types.source_primary e = url
     /\ Types.lang e = Normalize.langFromStrong strong)
    /\ (forall k, exists s, Types.getBlock k (Types.blocks e) = Some s)
    /\ (~ occursCI (str "Original Word") text -> Types.lemma e = None)
    /\ (~ occursCI (str "Transliteration") text -> Types.transliteration e = None)
    /\ (~ occursCI (str "Phonetic Spelling") text -> Types.phonetic e = None)
    /\ (~ occursCI (str "Pronunciation") text -> Types.pronunciation e = None)
    /\ (~ occursCI (str "Part of Speech") text -> Types.part_of_speech e = None)
    /\ (forall k,
          sectionHeaders k <> [] ->
          Forall (fun h => indexOf (toLowerCase h) (toLowerCase text) = None)
                 (sectionHeaders k) ->
          Types.getBlock k (Types.blocks e) = Some [])
    /\ (~ occursCI (str "Definition") text ->
        Types.getBlock Types.strongs_definition (Types.blocks e) = Some [])
    /\ (Forall (fun l => ~ occursCI l text)
          [str "Original Word"; str "Transliteration"; str "Phonetic Spelling";
           str "Pronunciation"; str "Part of Speech"; str "Definition"] ->
        Types.getBlock Types.lexical_summary (Types.blocks e) = Some [])
    /\ (text = [] ->
        Types.lemma e = None /\ Types.transliteration e = None
        /\ Types.phonetic e = None /\ Types.pronunciation e = None
        /\ Types.part_of_speech e = None
        /\ forall k, Types.getBlock k (Types.blocks e) = Some []).
Proof.
  intros toLowerCase strong url html text e.
  unfold e, Parser.parseStrongsPage. fold text.
  cbn [Types.strong Types.source_primary Types.lang Types.lemma
       Types.transliteration Types.phonetic Types.pronunciation
       Types.part_of_speech Types.blocks].
  rewrite fillEmpty_id.
  split; [auto|].
  split; [intros k; destruct k; cbn [Types.getBlock Types.SectionKey_eqb]; eauto|].
  do 5 (split; [apply pickLabel_absent|]).
  split.
  { intros k Hk Habs.
    destruct k; try (exfalso; apply Hk; reflexivity); cbn [sectionHeaders] in Habs;
      repeat match goal with
             | H : Forall _ (_ :: _) |- _ =>
                 let H1 := fresh "Hh" in
                 apply Forall_cons_iff in H; destruct H as [H1 H]
             end;
      cbn [Types.getBlock Types.SectionKey_eqb];
      rewrite ?(extractSectionApprox_absent _ _ _ _ Hh),
              ?(extractSectionApprox_absent _ _ _ _ Hh0); reflexivity. }
  split.
  { intros H. cbn [Types.getBlock Types.SectionKey_eqb].
    rewrite (pickLabel_absent _ _ H). reflexivity. }
  split.
  { intros H.
    repeat match goal with
           | H : Forall _ (_ :: _) |- _ =>
               let H1 := fresh "Hl" in
               apply Forall_cons_iff in H; destruct H as [H1 H]
           end.
    cbn [Types.getBlock Types.SectionKey_eqb].
    rewrite !pickLabel_absent by assumption. reflexivity. }
  intros ->. rewrite !pickLabel_empty.
  do 5 (split; [reflexivity|]).
  intros k. rewrite !extractSectionApprox_empty. destruct k; reflexivity.
Qed.

(** ** Occurrences in a text made of lines *)

Section Occurrences.
Local Open Scope nat_scope.

Lemma firstAt_here (here : jsstring -> bool) (s : jsstring) :
  here s = true -> firstAt here s = Some 0.
Proof. intros H. destruct s; cbn; rewrite H; reflexivity. Qed.

Lemma startsWith_grow (p s t : jsstring) :
  startsWith p s = true -> startsWith p (s ++ t) = true.
Proof.
  revert s. induction p as [|a p IH]; intros s H; [reflexivity|].
  destruct s as [|b s]; [discriminate|]. cbn in H |- *.
  apply andb_true_iff in H. destruct H as [-> H]. cbn. apply IH, H.
Qed.

Lemma startsWith_prefix (p q s : jsstring) :
  startsWith (p ++ q) s = true -> startsWith p s = true.
Proof.
  revert s. induction p as [|a p IH]; intros s H; [reflexivity|].
  destruct s as [|b s]; [discriminate|]. cbn in H |- *.
  apply andb_true_iff in H. destruct H as [-> H]. cbn. eapply IH, H.
Qed.

(** A text without line feed that starts before a line feed ends before
    it. *)
Lemma startsWith_line (p x r : jsstring) :
  lineText p -> startsWith p (x ++ [10%N] ++ r) = true ->
  startsWith p x = true.
Proof.
  unfold lineText. revert x. induction p as [|a p IH]; intros x Hp H; [reflexivity|].
  cbn [forallb] in Hp. apply andb_true_iff in Hp. destruct Hp as [Ha Hp].
  destruct x as [|b x]; cbn in H |- *.
  - apply andb_true_iff in H. destruct H as [H _]. rewrite H in Ha. discriminate.
  - apply andb_true_iff in H. destruct H as [-> H]. cbn. apply IH; assumption.
Qed.

Lemma clearOf_nil (p : jsstring) : clearOf p [].
Proof. intros j r Hj. cbn in Hj. lia. Qed.

Lemma clearOf_app (p a b : jsstring) :
  clearOf p a -> clearOf p b -> clearOf p (a ++ b).
Proof.
  intros Ha Hb j r Hj. rewrite length_app in Hj. rewrite <- app_assoc.
  destruct (Nat.lt_ge_cases j (length a)) as [Hlt|Hge].
  - apply Ha, Hlt.
  - rewrite drop_app_ge by lia. apply Hb. lia.
Qed.

Lemma clearOf_line (p x : jsstring) :
  lineText p -> indexOf p x = None -> clearOf p (x ++ [10%N]).
Proof.
  intros Hp Hx j r Hj. rewrite length_app in Hj. cbn in Hj.
  destruct (startsWith p (drop j ((x ++ [10%N]) ++ r))) eqn:E; [|reflexivity].
  exfalso. rewrite <- app_assoc in E. rewrite drop_app_le in E by lia.
  apply startsWith_line in E; [|exact Hp].
  pose proof (proj1 (firstAt_None _ _) Hx j) as Hno. congruence.
Qed.

Lemma clearOf_longer (p q a : jsstring) : clearOf p a -> clearOf (p ++ q) a.
Proof.
  intros H j r Hj. specialize (H j r Hj).
  destruct (startsWith (p ++ q) _) eqn:E; [|reflexivity].
  apply startsWith_prefix in E. congruence.
Qed.

Lemma indexOf_shorter (p x t : jsstring) :
  indexOf p (x ++ t) = None -> indexOf p x = None.
Proof.
  intros H. apply firstAt_None. intros j.
  pose proof (proj1 (firstAt_None _ _) H j) as Hno.
  destruct (startsWith p (drop j x)) eqn:E; [|reflexivity].
  destruct (Nat.le_gt_cases j (length x)) as [Hle|Hgt].
  - rewrite drop_app_le in Hno by exact Hle.
    rewrite (startsWith_grow _ _ _ E) in Hno. discriminate.
  - rewrite drop_ge in E by lia. rewrite drop_app_ge in Hno by lia.
    destruct p; [|discriminate]. cbn in Hno. discriminate.
Qed.

Lemma includes_false (p s : jsstring) :
  includes p s = false <-> indexOf p s = None.
Proof. unfold includes. destruct (indexOf p s); split; congruence. Qed.

(** The first occurrence of [p] after a text clear of it. *)
Lemma indexOf_clear (p a r : jsstring) :
  clearOf p a -> indexOf p (a ++ p ++ r) = Some (length a).
Proof.
  intros H. unfold indexOf. rewrite firstAt_skip by (intros j Hj; apply H, Hj).
  rewrite (firstAt_here _ _ (startsWith_app p r)). cbn. f_equal. lia.
Qed.

End Occurrences.

(** ** Trimming *)

Section Trim.

Lemma trimStart_spaces (ws s : jsstring) :
  forallb isSpace ws = true -> trimStart (ws ++ s) = trimStart s.
Proof.
  induction ws as [|c ws IH]; intros H; [reflexivity|].
  cbn in H. apply andb_true_iff in H. destruct H as [Hc H].
  cbn. rewrite Hc. apply IH, H.
Qed.

Lemma trimStart_split (s : jsstring) :
  exists ws, s = ws ++ trimStart s /\ forallb isSpace ws = true.
Proof.
  induction s as [|c s IH]; [exists []; auto|].
  cbn. destruct (isSpace c) eqn:Hc.
  - destruct IH as (ws & Hs & Hws). exists (c :: ws). cbn.
    rewrite Hc, Hws, <- Hs. auto.
  - exists []. auto.
Qed.

Lemma trimStart_head (s : jsstring) :
  match trimStart s with c :: _ => isSpace c = false | [] => True end.
Proof.
  induction s as [|c s IH]; cbn; [exact I|].
  destruct (isSpace c) eqn:Hc; [exact IH|exact Hc].
Qed.

Lemma trimStart_fixed (s : jsstring) :
  match s with c :: _ => isSpace c = false | [] => True end ->
  trimStart s = s.
Proof. destruct s as [|c s]; cbn; [reflexivity|]. intros ->. reflexivity. Qed.

Lemma trimStart_idem (s : jsstring) : trimStart (trimStart s) = trimStart s.
Proof. apply trimStart_fixed, trimStart_head. Qed.

Lemma trimEnd_spaces (s ws : jsstring) :
  forallb isSpace ws = true -> trimEnd (s ++ ws) = trimEnd s.
Proof.
  intros H. unfold trimEnd. rewrite rev_app_distr, trimStart_spaces; [reflexivity|].
  rewrite forallb_forall in *. intros x Hx. apply H. apply in_rev. exact Hx.
Qed.

Lemma trimEnd_split (s : jsstring) :
  exists ws, s = trimEnd s ++ ws /\ forallb isSpace ws = true.
Proof.
  unfold trimEnd. destruct (trimStart_split (rev s)) as (ws & Hs & Hws).
  exists (rev ws). split.
  - rewrite <- rev_app_distr, <- Hs, rev_involutive. reflexivity.
  - rewrite forallb_forall in *. intros x Hx. apply Hws. apply in_rev. exact Hx.
Qed.

Lemma trimEnd_idem (s : jsstring) : trimEnd (trimEnd s) = trimEnd s.
Proof. unfold trimEnd. rewrite rev_involutive, trimStart_idem. reflexivity. Qed.

Lemma trim_head (s : jsstring) :
  match trim s with c :: _ => isSpace c = false | [] => True end.
Proof.
  unfold trim. pose proof (trimStart_head s) as Hh.
  destruct (trimEnd_split (trimStart s)) as (ws & Hs & _).
  destruct (trimEnd (trimStart s)) as [|c t]; [exact I|].
  rewrite Hs in Hh. exact Hh.
Qed.

(** A trimmed text between two line feeds trims to itself. *)
Lemma trim_framed (s : jsstring) : trim ([10%N] ++ trim s ++ [10%N]) = trim s.
Proof.
  pose proof (trim_head s) as Hh.
  assert (He : trimEnd (trim s) = trim s) by (unfold trim; apply trimEnd_idem).
  unfold trim at 1.
  rewrite (trimStart_spaces [10%N]) by reflexivity.
  destruct (trim s) as [|c t] eqn:Ht; [reflexivity|].
  rewrite trimStart_fixed by exact Hh.
  rewrite (trimEnd_spaces (c :: t) [10%N]) by reflexivity. exact He.
Qed.

Lemma trim_idem (s : jsstring) : trim (trim s) = trim s.
Proof.
  pose proof (trim_head s) as Hh. unfold trim at 1.
  rewrite trimStart_fixed by exact Hh. unfold trim. apply trimEnd_idem.
Qed.

End Trim.

(** ** The sections of a note *)

Section Markers.
Import Types Writer.
Local Open Scope nat_scope.

Lemma marker_line (k : SectionKey) : lineText (marker (keyName k)).
Proof. destruct k; reflexivity. Qed.

Lemma markerPrefix_line : lineText markerPrefix.
Proof. reflexivity. Qed.

Lemma marker_has_prefix (key : jsstring) :
  marker key = markerPrefix ++ ([32%N] ++ key ++ str " -->").
Proof. reflexivity. Qed.

Lemma clearOf_marker (key a : jsstring) :
  clearOf markerPrefix a -> clearOf (marker key) a.
Proof. rewrite marker_has_prefix. apply clearOf_longer. Qed.

Lemma other_marker (k k' : SectionKey) :
  k <> k' -> indexOf (marker (keyName k)) (marker (keyName k')) = None.
Proof. destruct k, k'; intros H; try congruence; reflexivity. Qed.

Lemma title_clear (k : SectionKey) :
  indexOf markerPrefix (str "## " ++ sectionTitle k) = None.
Proof. destruct k; reflexivity. Qed.

Lemma clearOf_gap (g : jsstring) : isGap g -> clearOf markerPrefix g.
Proof.
  intros [->|[->| ->]].
  - apply clearOf_nil.
  - apply (clearOf_line markerPrefix ([10%N] ++ str "---")); reflexivity.
  - apply (clearOf_line markerPrefix (rule ++ [10%N] ++ [10%N] ++ str "---"));
      reflexivity.
Qed.

Lemma clearOf_block (b : jsstring) :
  includes markerPrefix b = false -> clearOf markerPrefix (b ++ [10%N]).
Proof.
  intros H. apply clearOf_line; [reflexivity|]. apply includes_false, H.
Qed.

(** A section is clear of the marker of every other section. *)
Lemma clearOf_secText (k k' : SectionKey) (b g : jsstring) :
  k <> k' -> plainBlock b -> isGap g ->
  clearOf (marker (keyName k)) (secText k' b g).
Proof.
  intros Hk [Hb _] Hg. unfold secText.
  replace ([10%N] ++ str "## " ++ sectionTitle k' ++ [10%N]
            ++ marker (keyName k') ++ [10%N] ++ b ++ [10%N] ++ g)
    with (([] ++ [10%N]) ++ ((str "## " ++ sectionTitle k') ++ [10%N])
            ++ (marker (keyName k') ++ [10%N]) ++ (b ++ [10%N]) ++ g)
    by (rewrite <- !app_assoc; reflexivity).
  apply clearOf_app; [|apply clearOf_app; [|apply clearOf_app; [|apply clearOf_app]]].
  - apply clearOf_line; [apply marker_line|]. destruct k; reflexivity.
  - apply clearOf_marker, clearOf_line; [reflexivity|apply title_clear].
  - apply clearOf_line; [apply marker_line|apply other_marker, Hk].
  - apply clearOf_marker, clearOf_block, Hb.
  - apply clearOf_marker, clearOf_gap, Hg.
Qed.

Lemma clearOf_sections (k : SectionKey) (ks : list SectionKey)
    (block gap : SectionKey -> jsstring) :
  ~ In k ks ->
  (forall k', In k' ks -> plainBlock (block k') /\ isGap (gap k')) ->
  clearOf (marker (keyName k))
    (flat_map (fun k' => secText k' (block k') (gap k')) ks).
Proof.
  induction ks as [|k' ks IH]; intros Hk H; cbn [flat_map].
  - apply clearOf_nil.
  - apply clearOf_app.
    + destruct (H k' (or_introl eq_refl)) as [Hb Hg].
      apply clearOf_secText; auto. intros ->. apply Hk. left. reflexivity.
    + apply IH; [intros Hin; apply Hk; right; exact Hin|].
      intros k'' Hin. apply H. right. exact Hin.
Qed.

(** The heading of a section is clear of its own marker. *)
Lemma clearOf_heading (k : SectionKey) :
  clearOf (marker (keyName k)) ([10%N] ++ str "## " ++ sectionTitle k ++ [10%N]).
Proof.
  replace ([10%N] ++ str "## " ++ sectionTitle k ++ [10%N])
    with (([] ++ [10%N]) ++ (str "## " ++ sectionTitle k) ++ [10%N])
    by (rewrite <- !app_assoc; reflexivity).
  apply clearOf_app.
  - apply clearOf_line; [apply marker_line|]. destruct k; reflexivity.
  - apply clearOf_marker, clearOf_line; [reflexivity|apply title_clear].
Qed.

End Markers.

Section Boundaries.
Import Types Writer.
Local Open Scope nat_scope.

(** Whether a heading starts in a line does not depend on the lines
    after it. *)
Lemma heading_window (u z : jsstring) :
  u <> [] -> headingHere (u ++ [10%N] ++ z) = headingHere (u ++ [10%N]).
Proof.
  intros Hu. destruct u as [|a [|b [|c [|d u]]]]; [congruence| | |reflexivity|reflexivity].
  - destruct z as [|z1 [|z2 z]]; cbn; try reflexivity.
    destruct (a =? 10)%N; reflexivity.
  - destruct z as [|z1 z]; cbn; try reflexivity.
    destruct (a =? 10)%N, (b =? 35)%N; reflexivity.
Qed.

Lemma headed_inv (s : jsstring) :
  headingHere s = true ->
  exists w r, s = 10%N :: 35%N :: 35%N :: w :: r /\ isSpace w = true.
Proof.
  destruct s as [|c1 [|c2 [|c3 [|w r]]]]; cbn; try discriminate.
  intros H. apply andb_true_iff in H. destruct H as [H Hw].
  apply andb_true_iff in H. destruct H as [H H3].
  apply andb_true_iff in H. destruct H as [H1 H2].
  apply N.eqb_eq in H1, H2, H3. subst. eauto.
Qed.

Lemma headed_secText (k : SectionKey) (b g r : jsstring) :
  headingHere (secText k b g ++ r) = true.
Proof. reflexivity. Qed.

(** No heading starts in a gap that a heading follows. *)
Lemma gap_quiet (g next : jsstring) (j : nat) :
  isGap g -> headingHere next = true -> j < 1 + length g ->
  headingHere (drop j ([10%N] ++ g ++ next)) = false.
Proof.
  intros Hg Hn Hj. apply headed_inv in Hn. destruct Hn as (w & r & -> & _).
  destruct Hg as [->|[->| ->]];
    [change (j < 1) in Hj|change (j < 6) in Hj|change (j < 12) in Hj];
    repeat (destruct j as [|j]; [reflexivity|]); lia.
Qed.

Lemma markerHere_tail (s : jsstring) :
  markerHere s = true -> startsWith markerPrefix (drop 1 s) = true.
Proof.
  unfold markerHere. destruct s as [|c s]; [discriminate|].
  cbn [startsWith]. intros H. apply andb_true_iff in H. destruct H as [_ H].
  exact H.
Qed.

(** The span of a plain block ends where the next heading starts. *)
Lemma span_end (b g next : jsstring) :
  plainBlock b -> isGap g -> headingHere next = true ->
  endRel ([10%N] ++ b ++ [10%N] ++ g ++ next)
  = length ([10%N] ++ b ++ [10%N] ++ g).
Proof.
  intros [Hb Hh] Hg Hn. rewrite endRel_boundary.
  set (x := [10%N] ++ b ++ [10%N] ++ g).
  replace ([10%N] ++ b ++ [10%N] ++ g ++ next) with (x ++ next)
    by (unfold x; rewrite <- !app_assoc; reflexivity).
  rewrite firstAt_skip.
  - rewrite firstAt_here; [cbn; f_equal; lia|].
    unfold boundaryHere. rewrite Hn. reflexivity.
  - intros j Hj. unfold boundaryHere. apply orb_false_iff. split.
    + destruct (Nat.lt_ge_cases j (1 + length b)) as [Hlt|Hge].
      * replace (x ++ next) with (([10%N] ++ b) ++ [10%N] ++ (g ++ next))
          by (unfold x; rewrite <- !app_assoc; reflexivity).
        rewrite drop_app_le by (rewrite length_app; cbn; lia).
        rewrite heading_window.
        2:{ intros E. apply (f_equal (@length N)) in E.
            rewrite length_drop, length_app in E. cbn in E. lia. }
        pose proof (proj1 (firstAt_None _ _) Hh j) as Hno.
        replace ([10%N] ++ b ++ [10%N]) with (([10%N] ++ b) ++ [10%N]) in Hno
          by (rewrite <- !app_assoc; reflexivity).
        rewrite drop_app_le in Hno by (rewrite length_app; cbn; lia).
        exact Hno.
      * replace (x ++ next) with (([10%N] ++ b) ++ [10%N] ++ g ++ next)
          by (unfold x; rewrite <- !app_assoc; reflexivity).
        rewrite drop_app_ge by (rewrite length_app; cbn; lia).
        apply gap_quiet; auto.
        unfold x in Hj. rewrite !length_app in *. cbn in *. lia.
    + destruct (markerHere (drop j (x ++ next))) eqn:E; [|reflexivity].
      exfalso. apply markerHere_tail in E. rewrite drop_drop in E.
      replace (x ++ next) with ([10%N] ++ ((b ++ [10%N]) ++ g) ++ next) in E
        by (unfold x; rewrite <- !app_assoc; reflexivity).
      replace (j + 1) with (S j) in E by lia. cbn [app drop] in E.
      assert (Hc : clearOf markerPrefix ((b ++ [10%N]) ++ g)).
      { apply clearOf_app; [apply clearOf_block, Hb|apply clearOf_gap, Hg]. }
      assert (Hlen : length x = S (length ((b ++ [10%N]) ++ g))).
      { unfold x. rewrite !length_app. cbn. lia. }
      destruct (Nat.lt_ge_cases j (length ((b ++ [10%N]) ++ g))) as [Hlt|Hge].
      * rewrite (Hc j next Hlt) in E. discriminate.
      * rewrite drop_app_ge in E by lia.
        replace (j - length ((b ++ [10%N]) ++ g)) with 0 in E by lia.
        apply headed_inv in Hn. destruct Hn as (w & r & -> & _).
        cbn in E. discriminate.
Qed.

End Boundaries.

(** ** Merging into a note *)

Section MergeSteps.
Import Types Writer.
Local Open Scope nat_scope.

Lemma SectionKey_eqb_eq (a b : SectionKey) : SectionKey_eqb a b = true <-> a = b.
Proof. destruct a, b; cbn; split; congruence. Qed.

Lemma SectionKey_eqb_refl (a : SectionKey) : SectionKey_eqb a a = true.
Proof. apply SectionKey_eqb_eq. reflexivity. Qed.

Lemma SectionKey_eqb_neq (a b : SectionKey) : a <> b -> SectionKey_eqb a b = false.
Proof.
  intros H. destruct (SectionKey_eqb a b) eqn:E; [|reflexivity].
  apply SectionKey_eqb_eq in E. congruence.
Qed.

Lemma closeGap_isGap (k : SectionKey) (gap : SectionKey -> jsstring) (k' : SectionKey) :
  isGap (gap k') -> isGap (closeGap k gap k').
Proof.
  intros H. unfold closeGap. destruct (SectionKey_eqb k' k); [left; reflexivity|exact H].
Qed.

Lemma nodup_split (k : SectionKey) (ks : list SectionKey) :
  List.NoDup ks -> In k ks ->
  exists ks1 ks2, ks = ks1 ++ k :: ks2 /\ ~ In k ks1 /\ ~ In k ks2.
Proof.
  intros Hnd Hin. apply in_split in Hin. destruct Hin as (ks1 & ks2 & ->).
  exists ks1, ks2. split; [reflexivity|].
  apply List.NoDup_remove_2 in Hnd. rewrite in_app_iff in Hnd. tauto.
Qed.

Lemma sections_closeGap (k : SectionKey) (ks : list SectionKey)
    (block gap : SectionKey -> jsstring) :
  ~ In k ks ->
  flat_map (fun k' => secText k' (block k') (closeGap k gap k')) ks
  = flat_map (fun k' => secText k' (block k') (gap k')) ks.
Proof.
  intros Hk. induction ks as [|a ks IH]; [reflexivity|]. cbn [flat_map].
  rewrite IH by (intros H; apply Hk; right; exact H).
  unfold closeGap at 1. rewrite SectionKey_eqb_neq; [reflexivity|].
  intros ->. apply Hk. left. reflexivity.
Qed.

Section Note.
Variables (pre tail : jsstring) (ks : list SectionKey)
          (block : SectionKey -> jsstring).
Hypothesis Hpre : clearOf markerPrefix pre.
Hypothesis Htail : headingHere tail = true.
Hypothesis Hnodup : List.NoDup ks.
Hypothesis Hblocks : forall k, In k ks -> plainBlock (block k).

Lemma headed_next (ks2 : list SectionKey) (gap : SectionKey -> jsstring) :
  headingHere (flat_map (fun k' => secText k' (block k') (gap k')) ks2 ++ tail)
  = true.
Proof.
  destruct ks2 as [|k2 ks2]; [exact Htail|].
  cbn [flat_map]. rewrite <- app_assoc. apply headed_secText.
Qed.

(** Where the marker of a section is found in a note, and what follows
    it. *)
Lemma note_at_marker (k : SectionKey) (ks1 ks2 : list SectionKey)
    (gap : SectionKey -> jsstring) :
  ks = ks1 ++ k :: ks2 -> ~ In k ks1 ->
  (forall k', In k' ks -> isGap (gap k')) ->
  exists a next,
    noteOf pre ks block gap tail
    = a ++ marker (keyName k)
        ++ ([10%N] ++ block k ++ [10%N] ++ gap k ++ next)
    /\ next = flat_map (fun k' => secText k' (block k') (gap k')) ks2 ++ tail
    /\ a = pre ++ flat_map (fun k' => secText k' (block k') (gap k')) ks1
             ++ [10%N] ++ str "## " ++ sectionTitle k ++ [10%N]
    /\ indexOf (marker (keyName k)) (noteOf pre ks block gap tail)
       = Some (length a)
    /\ headingHere next = true.
Proof.
  intros Hks Hk1 Hgaps.
  set (F := fun k' => secText k' (block k') (gap k')).
  set (next := flat_map F ks2 ++ tail).
  set (a := pre ++ flat_map F ks1 ++ [10%N] ++ str "## " ++ sectionTitle k ++ [10%N]).
  assert (Hdoc : noteOf pre ks block gap tail
                 = a ++ marker (keyName k)
                     ++ ([10%N] ++ block k ++ [10%N] ++ gap k ++ next)).
  { unfold noteOf. rewrite Hks. fold F. rewrite flat_map_app. cbn [flat_map].
    unfold a, next, F at 2, secText. rewrite <- !app_assoc. reflexivity. }
  exists a, next. split; [exact Hdoc|]. split; [reflexivity|].
  split; [reflexivity|]. split; [|apply headed_next].
  rewrite Hdoc. apply indexOf_clear. unfold a.
  apply clearOf_app; [apply clearOf_marker, Hpre|].
  apply clearOf_app; [|apply clearOf_heading].
  apply clearOf_sections; [exact Hk1|].
  intros k' Hin. assert (Hin' : In k' ks).
  { rewrite Hks. apply in_or_app. left. exact Hin. }
  split; [apply Hblocks, Hin'|apply Hgaps, Hin'].
Qed.

(** Merging a section closes its gap and changes nothing else. *)
Lemma merge_step (k : SectionKey) (gap : SectionKey -> jsstring)
    (replacement : jsstring) :
  In k ks -> (forall k', In k' ks -> isGap (gap k')) ->
  trim replacement = block k ->
  replaceImportedBlock (noteOf pre ks block gap tail) (keyName k) replacement
  = noteOf pre ks block (closeGap k gap) tail.
Proof.
  intros Hin Hgaps Hrepl.
  destruct (nodup_split k ks Hnodup Hin) as (ks1 & ks2 & Hks & Hk1 & Hk2).
  destruct (note_at_marker k ks1 ks2 gap Hks Hk1 Hgaps)
    as (a & next & Hdoc & Hnext & Ha & Hidx & Hhead).
  rewrite (replaceImportedBlock_found _ _ _ _ Hidx).
  rewrite <- !length_app.
  set (x := [10%N] ++ block k ++ [10%N] ++ gap k).
  assert (Hdoc' : noteOf pre ks block gap tail
                  = (a ++ marker (keyName k)) ++ x ++ next).
  { rewrite Hdoc. unfold x. rewrite <- !app_assoc. reflexivity. }
  rewrite Hdoc'. clear Hdoc Hdoc' Hidx.
  set (am := a ++ marker (keyName k)).
  rewrite take_app_length, drop_app_length.
  replace (x ++ next) with ([10%N] ++ block k ++ [10%N] ++ gap k ++ next) at 1
    by (unfold x; rewrite <- !app_assoc; reflexivity).
  rewrite span_end; [|apply Hblocks, Hin|apply Hgaps, Hin|exact Hhead].
  fold x. rewrite <- length_app, (app_assoc am x next), drop_app_length.
  rewrite Hrepl.
  unfold noteOf. rewrite Hks, flat_map_app. cbn [flat_map].
  rewrite !sections_closeGap by assumption.
  unfold closeGap at 1. rewrite SectionKey_eqb_refl.
  unfold am. rewrite Ha, Hnext. unfold secText. rewrite <- !app_assoc. reflexivity.
Qed.

(** The block of a merged section. *)
Lemma merged_block (k : SectionKey) (gap : SectionKey -> jsstring) :
  In k ks -> (forall k', In k' ks -> isGap (gap k')) ->
  gap k = [] -> trim (block k) = block k ->
  blockOf (noteOf pre ks block gap tail) (keyName k) = Some (block k).
Proof.
  intros Hin Hgaps Hgap Htrim.
  destruct (nodup_split k ks Hnodup Hin) as (ks1 & ks2 & Hks & Hk1 & Hk2).
  destruct (note_at_marker k ks1 ks2 gap Hks Hk1 Hgaps)
    as (a & next & Hdoc & Hnext & Ha & Hidx & Hhead).
  unfold blockOf, sectionSpan. rewrite Hidx. cbn [option_map]. f_equal.
  rewrite <- !length_app. rewrite Hdoc, (app_assoc a), drop_app_length.
  rewrite span_end; [|apply Hblocks, Hin|apply Hgaps, Hin|exact Hhead].
  rewrite Hgap.
  replace ([10%N] ++ block k ++ [10%N] ++ [] ++ next)
    with (([10%N] ++ block k ++ [10%N] ++ []) ++ next)
    by (rewrite <- !app_assoc; reflexivity).
  rewrite take_app_length.
  rewrite app_nil_r, <- Htrim. apply trim_framed.
Qed.

(** The merge loop closes the gap of every section it is given. *)
Lemma merge_loop (repl : SectionKey -> jsstring) (secs : list SectionKey) :
  (forall k, In k ks -> trim (repl k) = block k) ->
  forall gap,
    (forall k, In k ks -> isGap (gap k)) ->
    (forall k, In k secs -> In k ks) ->
    exists gap',
      fold_left (fun text section =>
                   replaceImportedBlock text (keyName section) (repl section))
        secs (noteOf pre ks block gap tail)
      = noteOf pre ks block gap' tail
      /\ (forall k, In k ks -> isGap (gap' k))
      /\ (forall k, In k secs -> gap' k = [])
      /\ (forall k, gap k = [] -> gap' k = []).
Proof.
  intros Hrepl. induction secs as [|k secs IH]; intros gap Hgaps Hsecs.
  - exists gap. cbn. repeat split; auto. intros k [].
  - cbn [fold_left].
    rewrite merge_step; [|apply Hsecs; left; reflexivity|exact Hgaps
                         |apply Hrepl, Hsecs; left; reflexivity].
    destruct (IH (closeGap k gap)) as (gap' & Hfold & Hg' & Hdone & Hkeep).
    { intros k' Hin. apply closeGap_isGap, Hgaps, Hin. }
    { intros k' Hin. apply Hsecs. right. exact Hin. }
    exists gap'. split; [exact Hfold|]. split; [exact Hg'|]. split.
    + intros k' [<-|Hin]; [|apply Hdone, Hin].
      apply Hkeep. unfold closeGap. rewrite SectionKey_eqb_refl. reflexivity.
    + intros k' Hk'. apply Hkeep. unfold closeGap.
      destruct (SectionKey_eqb k' k); [reflexivity|exact Hk'].
Qed.

End Note.

End MergeSteps.

(** ** A new note and its second upsert *)

Section NewNote.
Import Types Writer.
Local Open Scope nat_scope.

Lemma join_snoc (sep : jsstring) (l : list jsstring) (x : jsstring) :
  join sep (l ++ [x]) = flat_map (fun y => y ++ sep) l ++ x.
Proof.
  induction l as [|a l IH]; [reflexivity|].
  cbn [flat_map].
  transitivity (a ++ sep ++ join sep (l ++ [x])).
  - destruct l; reflexivity.
  - rewrite IH, <- !app_assoc. reflexivity.
Qed.

Lemma flat_map_flat_map {A B C : Type} (f : B -> list C) (g : A -> list B)
    (l : list A) :
  flat_map f (flat_map g l) = flat_map (fun x => flat_map f (g x)) l.
Proof.
  induction l as [|a l IH]; [reflexivity|].
  cbn [flat_map]. rewrite flat_map_app, IH. reflexivity.
Qed.

Lemma shift_line_feed {A : Type} (a : A -> jsstring) (l : list A) (x : jsstring) :
  [10%N] ++ flat_map (fun k => a k ++ [10%N]) l ++ x
  = flat_map (fun k => [10%N] ++ a k) l ++ [10%N] ++ x.
Proof.
  induction l as [|k l IH]; [reflexivity|].
  cbn [flat_map]. rewrite <- !app_assoc. cbn [app]. f_equal.
  f_equal. exact IH.
Qed.

(** A new note is its preamble, its sections, each followed by a rule,
    a line feed and a rule, and a text that starts with a heading. *)
Lemma renderNew_note (today : jsstring) (entry : LexiconEntry) (recipe : Recipe) :
  exists th,
    headingHere th = true
    /\ renderNew today entry recipe
       = noteOf (preamble today entry recipe) (enabledKeys recipe)
           (firstBlock entry recipe) (fun _ => rule) ([10%N] ++ rule ++ th).
Proof.
  unfold renderNew, renderBody. cbv zeta.
  match goal with
  | |- context [join ?sep (?h ++ ?s ++ ?t)] =>
      replace t with (removelast t ++ [[]]) by reflexivity;
      replace (h ++ s ++ removelast t ++ [[]])
        with ((h ++ s ++ removelast t) ++ [[]])
        by (rewrite <- !app_assoc; reflexivity)
  end.
  rewrite join_snoc, app_nil_r, !flat_map_app.
  unfold renderSections. rewrite flat_map_flat_map.
  cbn [removelast flat_map]. unfold renderSection. cbn [flat_map].
  eexists. split; [|unfold noteOf, preamble; cbn [flat_map];
                    rewrite <- !app_assoc;
                    repeat (match goal with
                            | |- ?a ++ ?x = ?a ++ ?y => apply (f_equal (app a))
                            end)].
  2:{ set (a := fun k => str "## " ++ sectionTitle k ++ [10%N]
                          ++ marker (keyName k) ++ [10%N]
                          ++ firstBlock entry recipe k ++ [10%N] ++ rule).
      match goal with
      | |- [10%N] ++ [] ++ flat_map ?G ?ks ++ ?T = _ =>
          assert (HG : forall k, G k = a k ++ [10%N])
            by (intros k; unfold a, firstBlock, rule;
                rewrite ?app_nil_r, <- !app_assoc; reflexivity);
          rewrite (flat_map_ext G _ HG ks);
          change ([10%N] ++ [] ++ flat_map (fun k => a k ++ [10%N]) ks ++ T)
            with ([10%N] ++ flat_map (fun k => a k ++ [10%N]) ks ++ T)
      end.
      rewrite shift_line_feed.
      assert (HS : forall k, [10%N] ++ a k = secText k (firstBlock entry recipe k) rule)
        by reflexivity.
      rewrite (flat_map_ext _ _ HS). unfold enabledKeys.
      apply (f_equal (app _)). apply (f_equal (app _)).
      reflexivity. }
  reflexivity.
Qed.

Lemma flat_map_ext_on {A B : Type} (f g : A -> list B) (l : list A) :
  (forall x, In x l -> f x = g x) -> flat_map f l = flat_map g l.
Proof.
  induction l as [|a l IH]; intros H; [reflexivity|]. cbn [flat_map].
  rewrite (H a (or_introl eq_refl)), IH; [reflexivity|].
  intros x Hx. apply H. right. exact Hx.
Qed.

Lemma newGaps_isGap (ks : list SectionKey) (k : SectionKey) : isGap (newGaps ks k).
Proof.
  unfold newGaps, isGap. destruct (last ks) as [l|]; [|auto].
  destruct (SectionKey_eqb k l); auto.
Qed.

(** The rule that follows the sections belongs to the gap of the last
    of them. *)
Lemma note_newGaps (pre th : jsstring) (ks : list SectionKey)
    (block : SectionKey -> jsstring) :
  ks <> [] -> List.NoDup ks ->
  noteOf pre ks block (fun _ => rule) ([10%N] ++ rule ++ th)
  = noteOf pre ks block (newGaps ks) th.
Proof.
  intros Hne Hnd. destruct (exists_last Hne) as (ks' & l & ->).
  unfold noteOf, newGaps. rewrite last_snoc, !flat_map_app. cbn [flat_map].
  rewrite !app_nil_r. f_equal.
  assert (Hl : ~ In l ks').
  { apply List.NoDup_remove_2 in Hnd. rewrite app_nil_r in Hnd. exact Hnd. }
  rewrite SectionKey_eqb_refl. rewrite <- !app_assoc. f_equal.
  - apply flat_map_ext_on. intros k Hin.
    rewrite SectionKey_eqb_neq; [reflexivity|]. intros ->. contradiction.
  - unfold secText. rewrite <- !app_assoc. reflexivity.
Qed.

Lemma sectionOrder_NoDup : List.NoDup sectionOrder.
Proof.
  unfold sectionOrder.
  repeat (constructor; [cbn; intuition discriminate|]). constructor.
Qed.

Lemma enabledKeys_NoDup (recipe : Recipe) : List.NoDup (enabledKeys recipe).
Proof. apply List.NoDup_filter, sectionOrder_NoDup. Qed.

Lemma enabledKeys_In (recipe : Recipe) (k : SectionKey) :
  In k (enabledKeys recipe) <-> In k (includeSections recipe).
Proof.
  unfold enabledKeys, includesKey. rewrite filter_In, existsb_exists. split.
  - intros (_ & x & Hx & He). apply SectionKey_eqb_eq in He. subst. exact Hx.
  - intros H. split; [destruct k; cbn; tauto|].
    exists k. split; [exact H|apply SectionKey_eqb_refl].
Qed.

Lemma preamble_clear (today : jsstring) (entry : LexiconEntry) (recipe : Recipe) :
  includes markerPrefix (preamble today entry recipe) = false ->
  clearOf markerPrefix (preamble today entry recipe).
Proof.
  unfold preamble.
  match goal with
  | |- context [flat_map ?f ?l] =>
      replace l with (removelast l ++ [str "---"]) by reflexivity
  end.
  rewrite flat_map_app. cbn [flat_map]. rewrite app_nil_r, !app_assoc.
  intros H. apply clearOf_line; [reflexivity|].
  apply includes_false in H. apply indexOf_shorter in H. exact H.
Qed.

(** After the merge that follows the first rendering, every section of
    the recipe holds the block of the first rendering, when the blocks
    and the preamble are plain and the merge is given the blocks that
    were rendered. *)
Lemma mergeText_blocks (today : jsstring) (entry : LexiconEntry) (recipe : Recipe) :
  includes markerPrefix (preamble today entry recipe) = false ->
  (forall k, In k (includeSections recipe) ->
             plainBlock (firstBlock entry recipe k)
             /\ mergedBlock entry k = firstBlock entry recipe k) ->
  forall k, In k (includeSections recipe) ->
    blockOf (mergeText (renderNew today entry recipe) entry recipe) (keyName k)
    = Some (firstBlock entry recipe k).
Proof.
  intros Hpre Hblocks k Hk.
  destruct (renderNew_note today entry recipe) as (th & Hth & ->).
  pose proof (enabledKeys_NoDup recipe) as Hnd.
  assert (Hne : enabledKeys recipe <> []).
  { intros E. apply enabledKeys_In in Hk. rewrite E in Hk. destruct Hk. }
  rewrite note_newGaps by assumption.
  assert (Hplain : forall k', In k' (enabledKeys recipe) ->
                              plainBlock (firstBlock entry recipe k')).
  { intros k' Hin. apply Hblocks, enabledKeys_In, Hin. }
  unfold mergeText.
  destruct (merge_loop (preamble today entry recipe) th (enabledKeys recipe)
              (firstBlock entry recipe) (preamble_clear _ _ _ Hpre) Hth Hnd Hplain
              (fun k' => orEmpty (getBlock k' (blocks entry)))
              (includeSections recipe))
    with (gap := newGaps (enabledKeys recipe))
    as (gap' & -> & Hg' & Hdone & _).
  - intros k' Hin. apply (Hblocks k'), enabledKeys_In, Hin.
  - intros k' _. apply newGaps_isGap.
  - intros k' Hin. apply enabledKeys_In, Hin.
  - apply merged_block; auto.
    + apply preamble_clear, Hpre.
    + apply enabledKeys_In, Hk.
    + unfold firstBlock. apply trim_idem.
Qed.

End NewNote.

Section Upserts.
Import Types Writer.

Lemma ensureFolder_exists (np : jsstring -> jsstring) (v : Vault.t) (recipe : Recipe) :
  Vault.exists_ (ensureFolder np v recipe)
    (np (stripSlashes (rootFolder recipe))) = true.
Proof.
  unfold ensureFolder.
  destruct (Vault.exists_ v _) eqn:E; [exact E|].
  unfold Vault.exists_, Vault.getAbstractFileByPath, Vault.createFolder.
  cbn [Vault.files Vault.folders].
  destruct (Vault.files v !! _); [reflexivity|].
  rewrite bool_decide_eq_true_2; [reflexivity|]. set_solver.
Qed.

(** A vault in which a note has just been created: the second upsert
    merges into that note. *)
Lemma upsert_again (np : jsstring -> jsstring) (today today' : jsstring)
    (v v1 : Vault.t) (entry : LexiconEntry) (recipe : Recipe)
    (ren ren' : bool) (p : jsstring) :
  upsert np today v entry recipe ren = Ok (v1, p, true) ->
  Vault.read v1 p = renderNew today entry recipe
  /\ upsert np today' v1 entry recipe ren'
     = Ok (Vault.modify v1 p (mergeText (renderNew today entry recipe) entry recipe),
           p, false).
Proof.
  unfold upsert.
  pose proof (ensureFolder_exists np v recipe) as Hfolder.
  set (v' := ensureFolder np v recipe) in *.
  set (path := filePath np (buildTitle entry recipe) recipe).
  set (folder := np (stripSlashes (rootFolder recipe))) in *.
  destruct (Vault.getAbstractFileByPath v' path) as [[f|f]|] eqn:Hg;
    [discriminate| |]; unfold Vault.create; rewrite Hg; [discriminate|].
  intros [= <- <-].
  assert (Hread : Vault.read
                    {| Vault.files := <[path := renderNew today entry recipe]> (Vault.files v');
                       Vault.folders := Vault.folders v' |} path
                  = renderNew today entry recipe).
  { unfold Vault.read. cbn [Vault.files]. rewrite lookup_insert_eq. reflexivity. }
  split; [exact Hread|].
  set (v1 := {| Vault.files := _; Vault.folders := _ |}) in *.
  assert (Hsame : ensureFolder np v1 recipe = v1).
  { unfold ensureFolder. fold folder.
    replace (Vault.exists_ v1 folder) with true; [reflexivity|].
    symmetry. unfold Vault.exists_, Vault.getAbstractFileByPath in Hfolder |- *.
    unfold v1. cbn [Vault.files Vault.folders].
    destruct (decide (path = folder)) as [->|Hne].
    - rewrite lookup_insert_eq. reflexivity.
    - rewrite lookup_insert_ne by exact Hne. exact Hfolder. }
  rewrite Hsame.
  assert (Hfile : Vault.getAbstractFileByPath v1 path = Some (Vault.TFile path)).
  { unfold Vault.getAbstractFileByPath, v1. cbn [Vault.files].
    rewrite lookup_insert_eq. reflexivity. }
  rewrite Hfile. unfold mergeIntoFile. rewrite Hread. reflexivity.
Qed.

Lemma read_modify (v : Vault.t) (p text : jsstring) :
  Vault.read (Vault.modify v p text) p = text.
Proof.
  unfold Vault.read, Vault.modify. cbn [Vault.files].
  rewrite lookup_insert_eq. reflexivity.
Qed.

End Upserts.

(** X2.  When [upsert] has created a note from an entry and
    a recipe, a second [upsert] of the same entry and recipe merges into
    that note, and afterwards the block of every section of the recipe
    -- the text of its span, trimmed -- is the block of the first
    rendering, provided that the front matter and the title of the note
    do not contain the marker prefix, that the blocks of the first
    rendering are plain (no marker prefix in them, none of their lines a
    second-level heading) and that they are the blocks that the merge
    writes, which are the entry's blocks without scripture links. *)
Theorem second_upsert_keeps_plain_blocks :
  forall (np : jsstring -> jsstring) (today today' : jsstring)
         (v v1 : Vault.t) (entry : Types.LexiconEntry) (recipe : Types.Recipe)
         (ren ren' : bool) (p : jsstring),
    Writer.upsert np today v entry recipe ren = Ok (v1, p, true) ->
    includes markerPrefix (preamble today entry recipe) = false ->
    (forall k, In k (Types.includeSections recipe) ->
               plainBlock (firstBlock entry recipe k)
               /\ mergedBlock entry k = firstBlock entry recipe k) ->
    exists v2,
      Writer.upsert np today' v1 entry recipe ren' = Ok (v2, p, false)
      /\ forall k, In k (Types.includeSections recipe) ->
           blockOf (Vault.read v2 p) (Types.keyName k)
           = Some (firstBlock entry recipe k).
Proof.
  intros np today today' v v1 entry recipe ren ren' p Hfirst Hpre Hblocks.
  destruct (upsert_again np today today' v v1 entry recipe ren ren' p Hfirst)
    as [_ Hsecond].
  eexists. split; [exact Hsecond|].
  intros k Hk. rewrite read_modify. apply mergeText_blocks; assumption.
Qed.

(** X2 at work: the note of the entry without scripture references. *)
Lemma second_upsert_keeps_plain_blocks_witness :
  exists v2,
    Writer.upsert (fun p => p) (str "2024-05-02")
      (fst (Demo.createdNote Demo.plainEntry)) Demo.plainEntry Demo.noteRecipe false
    = Ok (v2, snd (Demo.createdNote Demo.plainEntry), false)
    /\ forall k, In k (Types.includeSections Demo.noteRecipe) ->
         blockOf (Vault.read v2 (snd (Demo.createdNote Demo.plainEntry)))
           (Types.keyName k)
         = Some (firstBlock Demo.plainEntry Demo.noteRecipe k).
Proof.
  apply (second_upsert_keeps_plain_blocks (fun p => p) (str "2024-05-01")
           (str "2024-05-02") Demo.emptyVault
           (fst (Demo.createdNote Demo.plainEntry)) Demo.plainEntry
           Demo.noteRecipe false false).
  - vm_compute. reflexivity.
  - vm_compute. reflexivity.
  - intros k Hk. cbn in Hk. destruct Hk as [<-|[<-|[]]];
      (split; [split|]); vm_compute; reflexivity.
Defined.

(** The last proviso is needed: the first rendering turns the verse that
    a block quotes into a link; the second upsert writes the block of
    the entry, without the link. *)
Lemma second_upsert_drops_scripture_links :
  exists v1 v2 p,
    Writer.upsert (fun p => p) (str "2024-05-01") Demo.emptyVault
      Demo.verseEntry Demo.noteRecipe false = Ok (v1, p, true)
    /\ Writer.upsert (fun p => p) (str "2024-05-02") v1
         Demo.verseEntry Demo.noteRecipe false = Ok (v2, p, false)
    /\ firstBlock Demo.verseEntry Demo.noteRecipe Types.helps
       = str "see [[John 3:16]] here"
    /\ blockOf (Vault.read v2 p) (Types.keyName Types.helps)
       = Some (str "see John 3:16 here").
Proof.
  exists (fst (Demo.createdNote Demo.verseEntry)),
         (fst (Demo.mergedNote Demo.verseEntry)),
         (snd (Demo.createdNote Demo.verseEntry)).
  vm_compute. repeat split; reflexivity.
Qed.

(** ** More on the writer *)

Section WriterFacts.
Import Types Writer.

Lemma filter_sublist {A : Type} (f : A -> bool) (l : list A) :
  sublist (List.filter f l) l.
Proof.
  induction l as [|a l IH]; cbn; [constructor|].
  destruct (f a); [apply sublist_skip|apply sublist_cons]; exact IH.
Qed.

End WriterFacts.

(** X3.  A new note is its preamble, then one section for every key of
    the recipe -- once each, however often the recipe lists it, and in
    the order of [sectionOrder], whatever the order of the recipe -- and
    then a rule and a text that starts with a heading.  A section is a
    line feed, its heading, its marker, its trimmed block and a rule,
    each on lines of their own. *)
Theorem new_note_lists_each_section_once :
  forall (today : jsstring) (entry : Types.LexiconEntry) (recipe : Types.Recipe),
    List.NoDup (enabledKeys recipe)
    /\ sublist (enabledKeys recipe) Writer.sectionOrder
    /\ (forall k, In k (enabledKeys recipe) <-> In k (Types.includeSections recipe))
    /\ exists tail,
         headingHere tail = true
         /\ Writer.renderNew today entry recipe
            = preamble today entry recipe
                ++ flat_map
                     (fun k =>
                        [10%N] ++ str "## " ++ Writer.sectionTitle k ++ [10%N]
                          ++ Writer.marker (Types.keyName k) ++ [10%N]
                          ++ trim (Types.orEmpty
                                     (Types.getBlock k
                                        (Writer.renderedBlocks entry recipe)))
                          ++ [10%N] ++ rule)
                     (enabledKeys recipe)
                ++ [10%N] ++ rule ++ tail.
Proof.
  intros today entry recipe.
  split; [apply enabledKeys_NoDup|].
  split; [apply filter_sublist|].
  split; [apply enabledKeys_In|].
  destruct (renderNew_note today entry recipe) as (th & Hth & Heq).
  exists th. split; [exact Hth|]. exact Heq.
Qed.

(** X4.  Whenever [upsert] returns, it has touched one file, the one at
    the path made of the recipe's folder and the entry's title.  It
    reports that it created the note when nothing was at that path, and
    the file then holds the new note; it reports that it did not when a
    file was there, and the file then holds the merge of that file's
    text.  No other file has changed, and the only folder it may have
    added is the recipe's.  (When the store rejects a call, [upsert]
    throws and returns nothing; that is not part of this statement.) *)
Theorem upsert_creates_or_merges_one_file :
  forall (np : jsstring -> jsstring) (today : jsstring) (v v' : Vault.t)
         (entry : Types.LexiconEntry) (recipe : Types.Recipe) (ren : bool)
         (p' : jsstring) (wasCreated : bool),
    Writer.upsert np today v entry recipe ren = Ok (v', p', wasCreated) ->
    let p := Writer.filePath np (Writer.buildTitle entry recipe) recipe in
    let folder := np (Writer.stripSlashes (Types.rootFolder recipe)) in
    p' = p
    /\ (forall q, q <> p -> Vault.files v' !! q = Vault.files v !! q)
    /\ (forall d, d ∈ Vault.folders v' <-> d ∈ Vault.folders v
                  \/ (d = folder /\ Vault.exists_ v folder = false))
    /\ (if wasCreated
        then Vault.files v !! p = None
             /\ Vault.files v' !! p = Some (Writer.renderNew today entry recipe)
        else exists old,
               Vault.files v !! p = Some old
               /\ Vault.files v' !! p = Some (Writer.mergeText old entry recipe)).
Proof.
  intros np today v v' entry recipe ren p' wasCreated Hup p folder.
  unfold Writer.upsert in Hup. fold p in Hup.
  assert (Hfiles : Vault.files (Writer.ensureFolder np v recipe) = Vault.files v).
  { unfold Writer.ensureFolder. destruct (Vault.exists_ v _); reflexivity. }
  assert (Hfolders : forall d, d ∈ Vault.folders (Writer.ensureFolder np v recipe)
                               <-> d ∈ Vault.folders v
                                   \/ (d = folder /\ Vault.exists_ v folder = false)).
  { intros d. unfold Writer.ensureFolder. fold folder.
    destruct (Vault.exists_ v folder) eqn:E.
    - split; [auto|]. intros [H|[_ H]]; [exact H|discriminate].
    - cbn [Vault.createFolder Vault.folders]. set_solver. }
  set (v0 := Writer.ensureFolder np v recipe) in *.
  unfold Vault.getAbstractFileByPath, Vault.create, Vault.getAbstractFileByPath in Hup.
  rewrite Hfiles in Hup.
  destruct (Vault.files v !! p) as [old|] eqn:Hold.
  - injection Hup as <- <- <-.
    split; [reflexivity|]. split; [|split; [exact Hfolders|]].
    + intros q Hq. unfold Writer.mergeIntoFile, Vault.modify. cbn [Vault.files].
      rewrite lookup_insert_ne by congruence. rewrite ?Hfiles. reflexivity.
    + exists old. split; [reflexivity|].
      unfold Writer.mergeIntoFile, Vault.modify, Vault.read. cbn [Vault.files].
      rewrite lookup_insert_eq, ?Hfiles, ?Hold. reflexivity.
  - destruct (bool_decide (p ∈ Vault.folders v0)) eqn:Hdir; [discriminate|].
    injection Hup as <- <- <-.
    split; [reflexivity|]. split; [|split; [exact Hfolders|]].
    + intros q Hq. cbn [Vault.files]. rewrite lookup_insert_ne by congruence.
      rewrite ?Hfiles. reflexivity.
    + split; [reflexivity|]. cbn [Vault.files]. apply lookup_insert_eq.
Qed.

(** X4 on the note of the entry without scripture references, created in
    an empty vault. *)
Lemma upsert_creates_or_merges_one_file_witness :
  snd (Demo.createdNote Demo.plainEntry)
  = Writer.filePath (fun p => p)
      (Writer.buildTitle Demo.plainEntry Demo.noteRecipe) Demo.noteRecipe
  /\ Vault.files (fst (Demo.createdNote Demo.plainEntry))
       !! snd (Demo.createdNote Demo.plainEntry)
     = Some (Writer.renderNew (str "2024-05-01") Demo.plainEntry Demo.noteRecipe).
Proof.
  destruct (upsert_creates_or_merges_one_file (fun p => p) (str "2024-05-01")
              Demo.emptyVault (fst (Demo.createdNote Demo.plainEntry))
              Demo.plainEntry Demo.noteRecipe false
              (snd (Demo.createdNote Demo.plainEntry)) true)
    as (Hp & _ & _ & _ & Hfile).
  - vm_compute. reflexivity.
  - split; [exact Hp|]. rewrite Hp at 1. exact Hfile.
Defined.

(** ** Edges, tokens and references *)

Section LinkFacts.
Import Types.

Lemma uniqAcc_NoDup (seen l : list jsstring) : List.NoDup (uniqAcc seen l).
Proof.
  revert seen. induction l as [|y l IH]; intros seen; cbn; [constructor|].
  destruct (existsb (eqb y) seen); [apply IH|].
  constructor; [|apply IH].
  rewrite uniqAcc_In. cbn. tauto.
Qed.

Lemma uniq_NoDup (l : list jsstring) : List.NoDup (uniq l).
Proof. apply uniqAcc_NoDup. Qed.

(** The linking loop rewrites for the tokens that resolve, and collects
    them. *)
Lemma linkTokens_resolved (idx : gmap jsstring jsstring) (tokens : list jsstring) :
  forall (b : Blocks) (found : list jsstring),
    List.NoDup tokens -> (forall t, In t tokens -> ~ In t found) ->
    Crawler.linkTokens idx tokens b found
    = (fold_left (fun b t => Crawler.linkToken t b)
         (List.filter (fun t => truthy (idx !! t)) tokens) b,
       found ++ List.filter (fun t => truthy (idx !! t)) tokens).
Proof.
  induction tokens as [|t tokens IH]; intros b found Hnd Hfresh.
  - cbn. rewrite app_nil_r. reflexivity.
  - cbn [Crawler.linkTokens List.filter]. apply List.NoDup_cons_iff in Hnd.
    destruct Hnd as [Ht Hnd].
    destruct (truthy (idx !! t)) eqn:Hres.
    + assert (Hnew : existsb (eqb t) found = false).
      { destruct (existsb (eqb t) found) eqn:E; [|reflexivity].
        apply existsb_eqb in E. destruct (Hfresh t (or_introl eq_refl) E). }
      rewrite Hnew, IH; [|exact Hnd|].
      * cbn [fold_left]. rewrite <- app_assoc. reflexivity.
      * intros t' Hin Hf. apply in_app_iff in Hf. destruct Hf as [Hf|[->|[]]].
        -- apply (Hfresh t' (or_intror Hin) Hf).
        -- exact (Ht Hin).
    + apply IH; [exact Hnd|]. intros t' Hin. apply Hfresh. right. exact Hin.
Qed.

Lemma scriptureRefsOf_keys (ms : list Re.found) :
  forall seen,
    let refs := Parser.scriptureRefsOf seen ms in
    List.NoDup (map (fun r => Parser.refKey (slug r) (chapter r) (verse r)) refs)
    /\ (forall r, In r refs ->
                  ~ In (Parser.refKey (slug r) (chapter r) (verse r)) seen
                  /\ r = Scripture.makeScriptureRefFromSlug (slug r) (chapter r) (verse r)).
Proof.
  induction ms as [|m ms IH]; intros seen; cbn [Parser.scriptureRefsOf].
  - split; [constructor|]. intros r [].
  - cbv zeta.
    set (key := Parser.refKey (Normalize.grp 1 m)
                  (parseInt (Normalize.grp 2 m))
                  (parseInt (Normalize.grp 3 m))).
    destruct (existsb (eqb key) seen) eqn:E; [apply IH|].
    destruct (IH (key :: seen)) as [Hnd Hall]. cbv zeta in Hnd, Hall.
    split.
    + cbn [map]. constructor; [|exact Hnd].
      cbn [Scripture.makeScriptureRefFromSlug slug chapter verse]. fold key.
      intros Hin. apply in_map_iff in Hin. destruct Hin as (r & Hr & Hin).
      destruct (Hall r Hin) as [Hno _]. apply Hno. left. symmetry. exact Hr.
    + intros r [<-|Hin].
      * cbn [Scripture.makeScriptureRefFromSlug slug chapter verse]. fold key.
        split; [|reflexivity]. intros H. apply existsb_eqb in H. congruence.
      * destruct (Hall r Hin) as [Hno Hr]. split; [|exact Hr].
        intros H. apply Hno. right. exact H.
Qed.

End LinkFacts.

(** X5.  The nodes that the crawl goes on to from an entry are the
    entry's edges of the types that the recipe follows: each of them
    once, and nothing else. *)
Theorem next_nodes_are_the_distinct_edges :
  forall (entry : Types.LexiconEntry) (edgeTypes : list Types.EdgeType),
    List.NoDup (Crawler.nextNodes entry edgeTypes)
    /\ forall x,
         In x (Crawler.nextNodes entry edgeTypes)
         <-> (In Types.see_also edgeTypes
              /\ In x (Types.l_see_also (Types.links entry)))
             \/ (In Types.related_strongs edgeTypes
                 /\ In x (Types.l_related_strongs (Types.links entry)))
             \/ (In Types.topical edgeTypes
                 /\ In x (Types.l_topical (Types.links entry))).
Proof.
  intros entry edgeTypes. unfold Crawler.nextNodes.
  split; [apply uniq_NoDup|].
  intros x. rewrite uniq_In, in_flat_map. split.
  - intros (et & Het & Hx). destruct et; tauto.
  - intros [[H Hx]|[[H Hx]|[H Hx]]]; eauto.
Qed.

(** X6.  Linking the lemmas of an entry rewrites its blocks for the
    tokens that the lemma index resolves to a non-empty id, in the order
    in which the tokens were extracted, and for no other token; the
    lemmas it reports as found are those tokens, each once. *)
Theorem only_resolved_tokens_are_linked :
  forall (isGreek isHebrew : N -> bool) (entry : Types.LexiconEntry)
         (idx : gmap jsstring jsstring),
    let tokens :=
      Crawler.extractGreekHebrewTokens isGreek isHebrew
        (join [10%N] (Crawler.blockValues (Types.blocks entry))) in
    let resolved := List.filter (fun t => Types.truthy (idx !! t)) tokens in
    Crawler.linkLemmas isGreek isHebrew entry idx
    = (fold_left (fun b t => Crawler.linkToken t b) resolved (Types.blocks entry),
       resolved)
    /\ List.NoDup resolved.
Proof.
  intros isGreek isHebrew entry idx tokens resolved.
  assert (Hnd : List.NoDup tokens) by apply uniq_NoDup.
  split; [|apply List.NoDup_filter, Hnd].
  unfold Crawler.linkLemmas. fold tokens.
  rewrite linkTokens_resolved; [reflexivity|exact Hnd|].
  intros t _ [].
Qed.

(** X7.  The scripture references read from a document have distinct
    keys (slug, chapter and verse), whatever the document repeats, and
    each carries the display text and the addresses made from its slug,
    chapter and verse. *)
Theorem scripture_refs_are_distinct :
  forall (html : jsstring),
    let refs := Parser.extractScriptureRefsFromHtml html in
    List.NoDup
      (map (fun r => Parser.refKey (Types.slug r) (Types.chapter r) (Types.verse r))
           refs)
    /\ forall r, In r refs ->
         r = Scripture.makeScriptureRefFromSlug
               (Types.slug r) (Types.chapter r) (Types.verse r).
Proof.
  intros html. cbv zeta. unfold Parser.extractScriptureRefsFromHtml.
  destruct (scriptureRefsOf_keys (Re.matchAll Parser.reInterlinear html) [])
    as [Hnd Hall].
  split; [exact Hnd|]. intros r Hin. apply Hall, Hin.
Qed.

(** A document that names a verse twice. *)
Example scripture_refs_of_a_document :
  map Types.display
    (Parser.extractScriptureRefsFromHtml
       (str "<a href='/interlinear/john/3-16.htm'>x</a> <a href='https://biblehub.com/interlinear/1_john/4-8.htm'>y</a> <a href='/interlinear/john/3-16.htm'>z</a>"))
  = [str "John 3:16"; str "1 John 4:8"].
Proof. vm_compute. reflexivity. Qed.

(** Chapter and verse are Number values: two numerals that are rounded to
    the same double make one reference, printed as that double is. *)
Example scripture_refs_with_long_numbers :
  map Types.display
    (Parser.extractScriptureRefsFromHtml
       (str "/interlinear/john/9007199254740993-1.htm /interlinear/john/9007199254740992-01.htm /interlinear/john/1000000000000000000000-2.htm"))
  = [str "John 9007199254740992:1"; str "John 1e+21:2"].
Proof. vm_compute. reflexivity. Qed.

(** ** The fetcher over a sequence of calls *)

Section FetcherSessions.
Import Fetcher.
Variable wake : Z -> Z -> Z.
Variable net : Net.

(** With a timer that fires exactly when it is due, [getWith] is
    [get]. *)
Lemma getWith_punctual (f : t) (now : Z) (url : jsstring) (useCache : bool) :
  getWith punctual net f now url useCache = get net f now url useCache.
Proof. reflexivity. Qed.

Lemma getWith_keeps_rate (f : t) (now : Z) (url : jsstring) (useCache : bool) :
  rateLimitMs (fetcher (getWith wake net f now url useCache)) = rateLimitMs f.
Proof.
  unfold getWith, rateLimitWith.
  destruct (if useCache then cache f !! url else None); [reflexivity|].
  destruct (now - lastFetchAt f <? rateLimitMs f);
    destruct (reply net url _); reflexivity.
Qed.

(** The timer is never early. *)
Hypothesis wake_due : forall now ms, now + ms <= wake now ms.

(** A call either asks nothing and leaves the time of the last request
    as it was, or issues one request, at least the interval after the
    last, and records when. *)
Lemma getWith_request (f : t) (now : Z) (url : jsstring) (useCache : bool) :
  let o := getWith wake net f now url useCache in
  (requestTimes (events o) = [] /\ lastFetchAt (fetcher o) = lastFetchAt f)
  \/ (exists issued,
        requestTimes (events o) = [issued]
        /\ lastFetchAt (fetcher o) = issued
        /\ lastFetchAt f + rateLimitMs f <= issued).
Proof.
  cbv zeta. unfold getWith, rateLimitWith.
  destruct (if useCache then cache f !! url else None); [left; split; reflexivity|].
  right. destruct (now - lastFetchAt f <? rateLimitMs f) eqn:E.
  - exists (wake now (rateLimitMs f - (now - lastFetchAt f))).
    pose proof (wake_due now (rateLimitMs f - (now - lastFetchAt f))) as Hw.
    destruct (reply net url _); cbn; repeat split; lia.
  - apply Z.ltb_ge in E. exists now.
    destruct (reply net url _); cbn; repeat split; lia.
Qed.

Lemma requestTimes_app (a b : list Event) :
  requestTimes (a ++ b) = requestTimes a ++ requestTimes b.
Proof. unfold requestTimes. apply omap_app. Qed.

Lemma session_spaced (calls : list Call) :
  forall f now,
    spaced (rateLimitMs f) (lastFetchAt f)
      (requestTimes (session wake net f now calls)).
Proof.
  induction calls as [|c calls IH]; intros f now; cbn [session]; [exact I|].
  cbv zeta. rewrite requestTimes_app.
  set (at_call := now + Z.of_N (pause c)).
  specialize (IH (fetcher (getWith wake net f at_call (callUrl c) (callCache c)))
                 (clock (getWith wake net f at_call (callUrl c) (callCache c)))).
  rewrite getWith_keeps_rate in IH.
  destruct (getWith_request f at_call (callUrl c) (callCache c))
    as [[-> Hlast]|(issued & -> & Hlast & Hgap)]; rewrite Hlast in IH.
  - exact IH.
  - cbn [app spaced]. split; [exact Hgap|exact IH].
Qed.

End FetcherSessions.

(** X8.  Over any sequence of awaited calls of [get] on one fetcher, each
    made when the call before it has settled or later, whatever the
    pauses between them and whatever the network answers or rejects, the
    requests are issued at least the rate-limit interval apart, and the
    first at least the interval after the last request before the
    sequence -- provided that no timer fires before it is due.  (Calls
    made while another is under way are not covered: they read the same
    time of the last request.) *)
Theorem requests_keep_the_interval :
  forall (wake : Z -> Z -> Z) (net : Fetcher.Net) (f : Fetcher.t) (now : Z)
         (calls : list Call),
    (forall t ms, t + ms <= wake t ms) ->
    spaced (Fetcher.rateLimitMs f) (Fetcher.lastFetchAt f)
      (requestTimes (session wake net f now calls)).
Proof. intros wake net f now calls Hwake. apply session_spaced, Hwake. Qed.

(** X8 on three calls in a row, with a punctual timer and a network that
    takes 800 ms. *)
Lemma requests_keep_the_interval_witness :
  spaced 1000 0
    (requestTimes
       (session punctual Demo.slowNet (Fetcher.create 1000) 5000
          [ {| pause := 0; callUrl := str "a"; callCache := true |};
            {| pause := 0; callUrl := str "b"; callCache := true |};
            {| pause := 0; callUrl := str "a"; callCache := true |} ])).
Proof.
  apply (requests_keep_the_interval punctual Demo.slowNet (Fetcher.create 1000) 5000).
  intros t ms. unfold punctual. lia.
Defined.

(** Three calls in a row on a network that takes 800 ms: the second
    request waits, the third call is answered from the cache. *)
Example three_calls_in_a_row :
  session punctual Demo.slowNet (Fetcher.create 1000) 5000
    [ {| pause := 0; callUrl := str "a"; callCache := true |};
      {| pause := 0; callUrl := str "b"; callCache := true |};
      {| pause := 0; callUrl := str "a"; callCache := true |} ]
  = [Fetcher.Request (str "a") 5000; Fetcher.Sleep 200;
     Fetcher.Request (str "b") 6000].
Proof. vm_compute. reflexivity. Qed.

(** A timer that fires a millisecond early lets the second request go
    out 999 ms after the first. *)
Example an_early_timer_shortens_the_interval :
  requestTimes
    (session (fun t ms => t + ms - 1) Demo.slowNet (Fetcher.create 1000) 5000
       [ {| pause := 0; callUrl := str "a"; callCache := true |};
         {| pause := 0; callUrl := str "b"; callCache := true |} ])
  = [5000; 5999].
Proof. vm_compute. reflexivity. Qed.

(** ** Merging the same block again *)

Section MergeAgain.
Import Types Writer.
Local Open Scope nat_scope.

Lemma startsWith_window (p s t : jsstring) :
  length p <= length s -> startsWith p (s ++ t) = startsWith p s.
Proof.
  revert s. induction p as [|a p IH]; intros s H; [reflexivity|].
  destruct s as [|b s]; [cbn in H; lia|].
  cbn in H |- *. rewrite IH by lia. reflexivity.
Qed.

(** What follows a span is nothing or a boundary. *)
Lemma endRel_next (rest : jsstring) :
  drop (endRel rest) rest = [] \/ boundaryHere (drop (endRel rest) rest) = true.
Proof.
  rewrite endRel_boundary. destruct (firstAt boundaryHere rest) as [k|] eqn:Hk.
  - right. apply firstAt_Some in Hk. tauto.
  - left. apply drop_all.
Qed.

Lemma boundary_starts (s : jsstring) :
  boundaryHere s = true -> exists t, s = 10%N :: t.
Proof.
  unfold boundaryHere, markerHere. intros H. apply orb_true_iff in H.
  destruct H as [H|H].
  - apply headed_inv in H. destruct H as (w & r & -> & _). eauto.
  - destruct s as [|c s]; [discriminate|]. cbn [startsWith] in H.
    apply andb_true_iff in H. destruct H as [H _]. apply N.eqb_eq in H.
    subst. eauto.
Qed.

(** No boundary starts in a plain block between its line feeds, when
    what follows is nothing or starts a new line. *)
Lemma quiet_before (b next : jsstring) (j : nat) :
  plainBlock b -> (next = [] \/ exists t, next = 10%N :: t) ->
  j < length ([10%N] ++ b ++ [10%N]) ->
  boundaryHere (drop j (([10%N] ++ b ++ [10%N]) ++ next)) = false.
Proof.
  intros [Hb Hh] Hnext Hj. rewrite length_app, length_app in Hj. cbn [length] in Hj.
  unfold boundaryHere. apply orb_false_iff. split.
  - destruct (Nat.lt_ge_cases j (1 + length b)) as [Hlt|Hge].
    + replace (([10%N] ++ b ++ [10%N]) ++ next)
        with (([10%N] ++ b) ++ [10%N] ++ next)
        by (rewrite <- !app_assoc; reflexivity).
      rewrite drop_app_le by (rewrite length_app; cbn; lia).
      rewrite heading_window.
      2:{ intros E. apply (f_equal (@length N)) in E.
          rewrite length_drop, length_app in E. cbn in E. lia. }
      pose proof (proj1 (firstAt_None _ _) Hh j) as Hno.
      replace ([10%N] ++ b ++ [10%N]) with (([10%N] ++ b) ++ [10%N]) in Hno
        by (rewrite <- !app_assoc; reflexivity).
      rewrite drop_app_le in Hno by (rewrite length_app; cbn; lia).
      exact Hno.
    + replace (([10%N] ++ b ++ [10%N]) ++ next)
        with (([10%N] ++ b) ++ [10%N] ++ next)
        by (rewrite <- !app_assoc; reflexivity).
      rewrite drop_app_ge by (rewrite length_app; cbn; lia).
      rewrite length_app. cbn [length].
      replace (j - (1 + length b)) with 0 by lia. cbn [drop app].
      destruct Hnext as [->|(t & ->)]; [reflexivity|].
      destruct t as [|c [|d t]]; reflexivity.
  - destruct (markerHere (drop j (([10%N] ++ b ++ [10%N]) ++ next))) eqn:E;
      [|reflexivity].
    exfalso. apply markerHere_tail in E. rewrite drop_drop in E.
    replace (([10%N] ++ b ++ [10%N]) ++ next) with ([10%N] ++ (b ++ [10%N]) ++ next) in E
      by (rewrite <- !app_assoc; reflexivity).
    replace (j + 1) with (S j) in E by lia. cbn [app drop] in E.
    pose proof (clearOf_block b Hb) as Hc.
    destruct (Nat.lt_ge_cases j (length (b ++ [10%N]))) as [Hlt|Hge].
    + rewrite (Hc j next Hlt) in E. discriminate.
    + rewrite drop_app_ge in E by lia.
      rewrite length_app in Hge, E. cbn [length] in Hge, E.
      replace (j - (length b + 1)) with 0 in E by lia.
      destruct Hnext as [->|(t & ->)]; cbn in E; discriminate.
Qed.

Lemma span_end_plain (b next : jsstring) :
  plainBlock b -> (next = [] \/ boundaryHere next = true) ->
  endRel (([10%N] ++ b ++ [10%N]) ++ next) = length ([10%N] ++ b ++ [10%N]).
Proof.
  intros Hb Hnext. rewrite endRel_boundary.
  assert (Hstart : next = [] \/ exists t, next = 10%N :: t).
  { destruct Hnext as [->|H]; [auto|right; apply boundary_starts, H]. }
  rewrite firstAt_skip by (intros j Hj; apply quiet_before; assumption).
  destruct Hnext as [->|H].
  - cbn. rewrite app_nil_r. reflexivity.
  - rewrite (firstAt_here _ _ H). cbn. lia.
Qed.

(** The marker is found again where it was found, once its span has been
    replaced. *)
Lemma marker_found_again (m a r x : jsstring) :
  indexOf m (a ++ m ++ r) = Some (length a) ->
  indexOf m (a ++ m ++ x) = Some (length a).
Proof.
  intros H. apply firstAt_Some in H. destruct H as (_ & _ & Hmin).
  apply firstAt_Some. split; [|split].
  - rewrite drop_app_length. apply startsWith_app.
  - rewrite length_app. lia.
  - intros j Hj. specialize (Hmin j Hj).
    rewrite (app_assoc a m r) in Hmin. rewrite (app_assoc a m x).
    rewrite drop_app_le in Hmin |- * by (rewrite length_app; lia).
    rewrite startsWith_window in Hmin |- *
      by (rewrite length_drop, length_app; lia).
    exact Hmin.
Qed.

End MergeAgain.

(** X9.  Merging a block into a document a second time changes nothing,
    whatever the document, when the trimmed block is plain: the marker
    prefix does not occur in it and none of its lines is a second-level
    heading. *)
Theorem merging_a_plain_block_again_changes_nothing :
  forall (doc key replacement : jsstring),
    plainBlock (trim replacement) ->
    Writer.replaceImportedBlock
      (Writer.replaceImportedBlock doc key replacement) key replacement
    = Writer.replaceImportedBlock doc key replacement.
Proof.
  intros doc key replacement Hplain.
  destruct (indexOf (Writer.marker key) doc) as [idx|] eqn:Hidx.
  2:{ rewrite (replaceImportedBlock_absent _ _ _ Hidx).
      apply replaceImportedBlock_absent, Hidx. }
  pose proof (indexOf_split _ _ _ Hidx) as Hsplit.
  pose proof (indexOf_occurs _ _ _ Hidx) as [_ Hlen].
  set (m := Writer.marker key) in *.
  set (a := take idx doc) in *.
  set (r := drop (idx + length m) doc) in *.
  assert (Ha : length a = idx) by (unfold a; rewrite length_take; lia).
  assert (Hfirst : Writer.replaceImportedBlock doc key replacement
                   = a ++ m ++ (([10%N] ++ trim replacement ++ [10%N])
                                  ++ drop (Writer.endRel r) r)).
  { rewrite (replaceImportedBlock_found _ _ _ _ Hidx). fold m. fold r.
    rewrite <- drop_drop. fold r.
    rewrite Hsplit at 1. rewrite <- Ha at 1. rewrite <- length_app.
    rewrite (app_assoc a m r), take_app_length, <- !app_assoc. reflexivity. }
  rewrite Hfirst.
  set (next := drop (Writer.endRel r) r).
  assert (Hagain : indexOf m (a ++ m ++ (([10%N] ++ trim replacement ++ [10%N]) ++ next))
                   = Some (length a)).
  { apply (marker_found_again m a r). rewrite <- Hsplit, Ha. exact Hidx. }
  rewrite (replaceImportedBlock_found _ _ _ _ Hagain). fold m.
  rewrite <- !length_app.
  rewrite (app_assoc a m), take_app_length.
  rewrite (drop_app_length (a ++ m)).
  rewrite span_end_plain; [|exact Hplain|apply endRel_next].
  rewrite <- length_app.
  rewrite (app_assoc (a ++ m) ([10%N] ++ trim replacement ++ [10%N]) next).
  rewrite drop_app_length.
  rewrite <- !app_assoc. reflexivity.
Qed.

(** X9 at work. *)
Lemma merging_a_plain_block_again_changes_nothing_witness :
  Writer.replaceImportedBlock
    (Writer.replaceImportedBlock
       (str "<!-- imported: helps -->" ++ [10%N] ++ str "old" ++ [10%N]
          ++ [10%N] ++ str "## Thayer" ++ [10%N])
       (str "helps") (str " love, which centers in moral preference "))
    (str "helps") (str " love, which centers in moral preference ")
  = Writer.replaceImportedBlock
      (str "<!-- imported: helps -->" ++ [10%N] ++ str "old" ++ [10%N]
         ++ [10%N] ++ str "## Thayer" ++ [10%N])
      (str "helps") (str " love, which centers in moral preference ").
Proof.
  apply merging_a_plain_block_again_changes_nothing.
  split; vm_compute; reflexivity.
Defined.

(** Without the proviso a second merge can change the document again:
    the block's own heading line ends the span that the second merge
    replaces. *)
Example merging_a_heading_again :
  let doc := str "<!-- imported: helps -->" ++ [10%N] ++ str "old" ++ [10%N] in
  let block := str "one" ++ [10%N] ++ str "## two" in
  let once := Writer.replaceImportedBlock doc (str "helps") block in
  once = str "<!-- imported: helps -->" ++ [10%N] ++ block ++ [10%N]
  /\ Writer.replaceImportedBlock once (str "helps") block
     = str "<!-- imported: helps -->" ++ [10%N] ++ block ++ [10%N]
         ++ [10%N] ++ str "## two" ++ [10%N].
Proof. vm_compute. split; reflexivity. Qed.

(** ** What the parser puts into an entry *)

Section ParsedEntries.
Import Re Types Normalize Parser.
Local Open Scope nat_scope.

(** Every match that [matchAll] lists is a match of the pattern. *)
Lemma matchAllFuel_sound (r : regex) (fuel : nat) :
  forall (pos : nat) (pv : option N) (s : jsstring) (m : found),
    In m (matchAllFuel fuel r pos pv s) ->
    exists pv' s', matches r {| prev := pv'; rest := s'; caps := [] |} (after m).
Proof.
  induction fuel as [|fuel IH]; intros pos pv s m Hin; [destruct Hin|].
  cbn [matchAllFuel] in Hin.
  destruct (searchFrom r pos pv s) as [m0|] eqn:Hs; [|destruct Hin].
  assert (H0 : exists pv' s',
             matches r {| prev := pv'; rest := s'; caps := [] |} (after m0)).
  { apply searchFrom_sound in Hs. destruct Hs as (pv' & _ & s' & _ & _ & Hm & _).
    eauto. }
  destruct (matched m0).
  - destruct (drop (index m0 - pos) s).
    + destruct Hin as [<-|[]]. exact H0.
    + destruct Hin as [<-|Hin]; [exact H0|]. eapply IH, Hin.
  - destruct Hin as [<-|Hin]; [exact H0|]. eapply IH, Hin.
Qed.

Lemma matchAll_sound (r : regex) (s : jsstring) (m : found) :
  In m (matchAll r s) ->
  exists pv' s', matches r {| prev := pv'; rest := s'; caps := [] |} (after m).
Proof. apply matchAllFuel_sound. Qed.

(** A text without white space is its own trimming. *)
Lemma trim_noop (s : jsstring) :
  forallb (fun c => negb (isSpace c)) s = true -> trim s = s.
Proof.
  intros H. rewrite forallb_forall in H.
  assert (Hs : trimStart s = s).
  { apply trimStart_fixed. destruct s as [|c s]; [exact I|].
    apply negb_true_iff, H. left. reflexivity. }
  unfold trim, trimEnd. rewrite Hs, trimStart_fixed, rev_involutive; [reflexivity|].
  destruct (rev s) as [|c t] eqn:Hr; [exact I|].
  apply negb_true_iff, H. apply in_rev. rewrite Hr. left. reflexivity.
Qed.

Lemma digits_no_space (ds : jsstring) :
  forallb isDigit ds = true -> forallb (fun c => negb (isSpace c)) ds = true.
Proof.
  rewrite !forallb_forall. intros H c Hc.
  rewrite (digit_not_space c (H c Hc)). reflexivity.
Qed.

(** The id pattern needs a letter G or H. *)
Lemma reStrongId_letter (s : jsstring) (m : found) :
  exec reStrongId s = Some m ->
  exists c, In c s /\ (asciiLower c = 103 \/ asciiLower c = 104)%N.
Proof.
  unfold exec. intros H. apply searchFrom_sound in H.
  destruct H as (pv & before & s' & -> & _ & Hm & _).
  destruct Hm as (m1 & [_ ->] & m2 & (mm & Halt & ->) & _).
  destruct Halt as [H|H]; apply matches_chr_inv in H;
    destruct H as (c & Hrc & Hp & _); cbn [rest] in Hrc;
    exists c; (split; [rewrite Hrc; apply in_or_app; right; left; reflexivity|]);
    unfold onlyCI in Hp; apply N.eqb_eq in Hp; auto.
Qed.

Lemma digit_not_letter (c : N) :
  isDigit c = true -> ~ (asciiLower c = 103 \/ asciiLower c = 104)%N.
Proof.
  intros H. apply digit_cases in H. cbn [In] in H.
  repeat (destruct H as [<-|H]; [vm_compute; intros [E|E]; discriminate|]).
  destruct H.
Qed.

(** A number with a hint: the id has the letter of the hint. *)
Lemma normalizeStrongId_digits (ds : jsstring) (l : Lang) (id : jsstring) :
  forallb isDigit ds = true ->
  normalizeStrongId ds (Some l) = Some id ->
  exists n, (n < 100000)%N
            /\ id = (match l with greek => 71 | hebrew => 72 end)%N :: numToString n.
Proof.
  intros Hds. unfold normalizeStrongId.
  rewrite (trim_noop ds (digits_no_space ds Hds)).
  destruct (exec reStrongId ds) as [m1|] eqn:H1.
  { exfalso. apply reStrongId_letter in H1. destruct H1 as (c & Hc & Hl).
    rewrite forallb_forall in Hds. exact (digit_not_letter c (Hds c Hc) Hl). }
  destruct (exec reBareNumber ds) as [m2|] eqn:H2; [|discriminate].
  intros [= <-]. apply reBareNumber_groups in H2.
  destruct H2 as (ds' & Hd & Hlen & ->).
  assert (Hne : ds' <> []) by (destruct ds'; [cbn in Hlen; lia|discriminate]).
  destruct (stringOfParseInt_five ds' Hd Hne ltac:(lia)) as [-> Hv].
  exists (digitsValue 0 ds'). split; [exact Hv|].
  destruct l; reflexivity.
Qed.

(** What a pattern that ends in a group of one to five digits and a word
    boundary captures in that group. *)
Lemma digits_group (st mm : mstate) (m : found) (x : mstate) :
  matches (between 1 5 (Chr isDigit)) x mm ->
  after m = setCap 1 (consumed x mm) mm ->
  forallb isDigit (grp 1 m) = true.
Proof.
  intros Hd Ha. apply matches_class_rep in Hd.
  destruct Hd as (ds & Hr & _ & _ & Hds & _).
  unfold grp, group. rewrite Ha. cbn [setCap caps lookupCap Nat.eqb].
  rewrite (consumed_app _ _ _ Hr). exact Hds.
Qed.

Lemma reSee_group (s : jsstring) (m : found) :
  In m (matchAll reSee s) -> forallb isDigit (grp 1 m) = true.
Proof.
  intros H. apply matchAll_sound in H. destruct H as (pv & s' & Hm).
  destruct Hm as (m1 & _ & m2 & _ & m3 & _ & m4 & (mm & Hd & ->) & [_ Ha]).
  eapply digits_group; eauto.
Qed.

Lemma reStrongRef_group (s : jsstring) (m : found) :
  In m (matchAll reStrongRef s) -> forallb isDigit (grp 1 m) = true.
Proof.
  intros H. apply matchAll_sound in H. destruct H as (pv & s' & Hm).
  destruct Hm as (m1 & _ & m2 & _ & m3 & (mm & Hd & ->) & [_ Ha]).
  eapply digits_group; eauto.
Qed.

Lemma idsOfMatches_ids (ms : list found) (l : Lang) (id : jsstring) :
  (forall m, In m ms -> forallb isDigit (grp 1 m) = true) ->
  In id (idsOfMatches ms l) ->
  exists n, (n < 100000)%N
            /\ id = (match l with greek => 71 | hebrew => 72 end)%N :: numToString n.
Proof.
  intros Hms Hin. unfold idsOfMatches in Hin.
  apply list_elem_of_In, list_elem_of_omap in Hin.
  destruct Hin as (m & Hm & Hid). apply list_elem_of_In in Hm.
  eapply normalizeStrongId_digits; [apply Hms, Hm|exact Hid].
Qed.

Lemma extractStrongRefs_ids (text : jsstring) (l : Lang) (id : jsstring) :
  In id (extractStrongRefs text l) ->
  exists n, (n < 100000)%N
            /\ id = (match l with greek => 71 | hebrew => 72 end)%N :: numToString n.
Proof.
  unfold extractStrongRefs. destruct text as [|c t]; [intros []|].
  apply idsOfMatches_ids. intros m. apply reStrongRef_group.
Qed.

(** What [pickLabel] returns: a trimmed text on one line. *)
Lemma pickLabel_value (text label v : jsstring) :
  pickLabel text label = Some v ->
  trim v = v /\ forallb (fun c => negb (isLineTerminator c)) v = true.
Proof.
  unfold pickLabel. destruct (exec (reLabel label) text) as [m|] eqn:Hm; [|discriminate].
  unfold exec in Hm. apply searchFrom_sound in Hm.
  destruct Hm as (pv & before & s' & _ & _ & Hm & _).
  destruct Hm as (m1 & _ & m2 & _ & m3 & _ & m4 & _ & (mm & Hd & Ha)).
  apply matches_class_rep in Hd. destruct Hd as (xs & Hr & _ & _ & Hxs & _).
  unfold group. rewrite Ha. cbn [setCap caps lookupCap Nat.eqb option_map].
  rewrite (consumed_app _ _ _ Hr). intros [= <-].
  split; [apply trim_idem|].
  unfold trim.
  destruct (trimStart_split xs) as (ws & Hs & _).
  destruct (trimEnd_split (trimStart xs)) as (ws' & Hs' & _).
  rewrite Hs, Hs' in Hxs. rewrite !forallb_app in Hxs.
  apply andb_true_iff in Hxs. destruct Hxs as [_ Hxs].
  apply andb_true_iff in Hxs. destruct Hxs as [Hxs _]. exact Hxs.
Qed.

End ParsedEntries.

(** X10.  The edges of a parsed entry.  The ids under [see_also] and
    under [related_strongs] are each listed once; every one of them is
    the letter of the entry's own language, G or H, followed by a number
    below 100000 without leading zeros, so no edge leads to a word of
    the other language; and the entry's own id is not among its related
    ids. *)
Theorem parsed_edges_are_ids_of_the_entry_language :
  forall (toLowerCase : jsstring -> jsstring) (strong url html : jsstring),
    let e := Parser.parseStrongsPage toLowerCase strong url html in
    let letter :=
      (match Normalize.langFromStrong strong with
       | Normalize.greek => 71
       | Normalize.hebrew => 72
       end)%N in
    List.NoDup (Types.l_see_also (Types.links e))
    /\ List.NoDup (Types.l_related_strongs (Types.links e))
    /\ ~ In strong (Types.l_related_strongs (Types.links e))
    /\ forall id,
         In id (Types.l_see_also (Types.links e))
         \/ In id (Types.l_related_strongs (Types.links e)) ->
         exists n, (n < 100000)%N /\ id = letter :: numToString n.
Proof.
  intros toLowerCase strong url html e letter.
  unfold e, Parser.parseStrongsPage.
  cbn [Types.links Types.l_see_also Types.l_related_strongs].
  split; [apply uniq_NoDup|]. split; [|split].
  - apply NoDup_ListNoDup, NoDup_filter, NoDup_ListNoDup, uniq_NoDup.
  - intros Hin. apply list_elem_of_In, list_elem_of_filter in Hin.
    destruct Hin as [Hne _]. apply Hne. reflexivity.
  - intros id [Hin|Hin].
    + apply (proj1 (uniq_In _ _)) in Hin. eapply idsOfMatches_ids; [|exact Hin].
      intros m. apply reSee_group.
    + apply list_elem_of_In, list_elem_of_filter in Hin. destruct Hin as [_ Hin].
      apply list_elem_of_In in Hin. apply (proj1 (uniq_In _ _)) in Hin.
      rewrite !in_app_iff in Hin.
      destruct Hin as [Hin|[Hin|Hin]]; eapply extractStrongRefs_ids; exact Hin.
Qed.

(** X11.  The labelled fields of a parsed entry -- lemma,
    transliteration, phonetic spelling, pronunciation and part of speech
    -- are each, when set, a text on one line with no white space at
    either end. *)
Theorem labelled_fields_are_trimmed_lines :
  forall (toLowerCase : jsstring -> jsstring) (strong url html v : jsstring),
    let e := Parser.parseStrongsPage toLowerCase strong url html in
    In (Some v)
       [Types.lemma e; Types.transliteration e; Types.phonetic e;
        Types.pronunciation e; Types.part_of_speech e] ->
    trim v = v
    /\ forallb (fun c => negb (isLineTerminator c)) v = true.
Proof.
  intros toLowerCase strong url html v e.
  unfold e, Parser.parseStrongsPage.
  cbn [Types.lemma Types.transliteration Types.phonetic Types.pronunciation
       Types.part_of_speech In].
  intros [H|[H|[H|[H|[H|[]]]]]]; eapply pickLabel_value; exact H.
Qed.

(** X11 at work: the lemma of a page. *)
Lemma labelled_fields_are_trimmed_lines_witness :
  trim (str "agape") = str "agape"
  /\ forallb (fun c => negb (isLineTerminator c)) (str "agape") = true.
Proof.
  apply (labelled_fields_are_trimmed_lines (map asciiLower) (str "G26")
           (str "https://biblehub.com/strongs/greek/26.htm")
           (str "<p>Original Word:  agape </p><p>Transliteration: agape</p>")
           (str "agape")).
  left. vm_compute. reflexivity.
Defined.

(** ** Numbers as seeds *)

Section NumberSeeds.
Import Re Normalize.
Local Open Scope nat_scope.

(** A group of one to five digits before a word boundary, on digits that
    end the input. *)
Lemma mt_digit_group (i : nat) (pc : option N) (ds : jsstring)
    (cs : list (nat * jsstring)) :
  ds <> [] -> forallb isDigit ds = true -> length ds <= 5 ->
  mt (Seq (Grp i (between 1 5 (Chr isDigit))) WordB) Some
     {| prev := pc; rest := ds; caps := cs |}
  = Some {| prev := last ds; rest := []; caps := (i, ds) :: cs |}.
Proof.
  intros Hne Hds Hlen.
  destruct (last ds) as [c|] eqn:Hl; [|apply last_None in Hl; congruence].
  pose proof (last_digit c ds Hds Hl) as Hc.
  unfold between. rewrite mt_seq, mt_grp, mt_rep.
  set (st := {| prev := pc; rest := ds; caps := cs |}).
  assert (Hadv : advance st ds = {| prev := Some c; rest := []; caps := cs |}).
  { apply advance_all; [reflexivity|exact Hl]. }
  assert (Hend : mt WordB Some (setCap i (consumed st (advance st ds)) (advance st ds))
                 = Some {| prev := Some c; rest := []; caps := (i, ds) :: cs |}).
  { rewrite Hadv, mt_wordb. unfold atWordBoundary, wordBefore, wordAfter, setCap.
    cbn [prev rest caps]. rewrite (digit_is_word c Hc). cbn [xorb].
    unfold consumed. cbn [rest length]. rewrite Nat.sub_0_r, firstn_all.
    reflexivity. }
  assert (Hlo : 1 <= 0 + length ds) by (destruct ds; [congruence|cbn [length]; lia]).
  assert (Hf : length ds < S (length (rest st))) by (unfold st; cbn [rest]; lia).
  assert (Hk : (fun s' => mt WordB Some (setCap i (consumed st s') s'))
                 (advance st ds) <> None).
  { cbv beta. rewrite Hend. discriminate. }
  rewrite (repLoop_class_all isDigit 1 (Some 5) _ ds _ 0 st
             eq_refl Hds Hf Hlo Hlen Hk).
  exact Hend.
Qed.

Lemma exec_reBareNumber_digits (d : N) (t : jsstring) :
  d <> 48%N -> forallb isDigit (d :: t) = true -> length (d :: t) <= 5 ->
  exists m, exec reBareNumber (d :: t) = Some m /\ grp 1 m = d :: t.
Proof.
  intros Hd Hds Hlen.
  assert (Hdd : isDigit d = true).
  { cbn in Hds. apply andb_true_iff in Hds. tauto. }
  assert (Hm : mt reBareNumber Some {| prev := None; rest := d :: t; caps := [] |}
               = Some {| prev := last (d :: t); rest := [];
                         caps := [(1, d :: t)] |}).
  { unfold reBareNumber, star.
    change (seqs [WordB; ?z; ?g; WordB]) with (Seq WordB (Seq z (Seq g WordB))).
    rewrite mt_seq, mt_wordb.
    replace (atWordBoundary _) with true
      by (unfold atWordBoundary, wordBefore, wordAfter; cbn [prev rest];
          rewrite (digit_is_word d Hdd); reflexivity).
    rewrite mt_seq, mt_rep, repLoop_class_none
      by (cbn [rest]; unfold only; apply N.eqb_neq; congruence).
    cbn [Nat.leb].
    apply mt_digit_group; [discriminate|exact Hds|exact Hlen]. }
  unfold exec. cbn [searchFrom]. unfold jsstring in *. rewrite Hm.
  eexists. split; reflexivity.
Qed.

Lemma exec_reDigits_digits (ds : jsstring) :
  ds <> [] -> forallb isDigit ds = true -> length ds <= 5 ->
  exists m, exec reDigits ds = Some m /\ grp 1 m = ds.
Proof.
  intros Hne Hds Hlen. destruct ds as [|d t]; [congruence|].
  assert (Hdd : isDigit d = true).
  { cbn in Hds. apply andb_true_iff in Hds. tauto. }
  assert (Hm : mt reDigits Some {| prev := None; rest := d :: t; caps := [] |}
               = Some {| prev := last (d :: t); rest := [];
                         caps := [(1, d :: t)] |}).
  { unfold reDigits.
    change (seqs [WordB; ?g; WordB]) with (Seq WordB (Seq g WordB)).
    rewrite mt_seq, mt_wordb.
    replace (atWordBoundary _) with true
      by (unfold atWordBoundary, wordBefore, wordAfter; cbn [prev rest];
          rewrite (digit_is_word d Hdd); reflexivity).
    apply mt_digit_group; [discriminate|exact Hds|exact Hlen]. }
  unfold exec. cbn [searchFrom]. unfold jsstring in *. rewrite Hm.
  eexists. split; reflexivity.
Qed.

Lemma digits_no_letter (ds : jsstring) :
  forallb isDigit ds = true -> exec reStrongId ds = None.
Proof.
  intros Hds. destruct (exec reStrongId ds) as [m|] eqn:H; [|reflexivity].
  exfalso. apply reStrongId_letter in H. destruct H as (c & Hc & Hl).
  rewrite forallb_forall in Hds. exact (digit_not_letter c (Hds c Hc) Hl).
Qed.

Lemma normalizeStrongId_number (n : N) (hint : option Lang) :
  (n < 100000)%N ->
  normalizeStrongId (numToString n) hint
  = match hint with
    | Some greek => Some (71%N :: numToString n)
    | Some hebrew => Some (72%N :: numToString n)
    | None => None
    end.
Proof.
  intros Hn.
  pose proof (numToString_digits n) as Hds.
  pose proof (numToString_length_le 4 n Hn) as Hlen.
  pose proof (numToString_parseInt n ltac:(lia)) as Hpi.
  pose proof (numberToString_exact n ltac:(lia)) as Hex.
  unfold normalizeStrongId.
  rewrite (trim_noop _ (digits_no_space _ Hds)).
  rewrite (digits_no_letter _ Hds).
  destruct (N.eq_dec n 0%N) as [->|Hn0].
  { destruct hint as [[|]|]; reflexivity. }
  destruct (numToString_head n) as (d & t & Hs & Hd); [lia|].
  rewrite Hs in *.
  destruct (exec_reBareNumber_digits d t Hd Hds Hlen) as (m & -> & Hg).
  destruct hint as [l|]; [|reflexivity].
  rewrite Hg. unfold stringOfParseInt. rewrite Hpi, Hex.
  destruct l; reflexivity.
Qed.

End NumberSeeds.

(** X12.  A number below 100000, written in decimal digits, is
    normalised to the letter of the language hint and the number, is
    rejected when there is no hint, and as a seed is taken for the number
    of a Greek word. *)
Theorem a_bare_number_takes_the_letter_of_the_hint :
  forall (n : N),
    (n < 100000)%N ->
    Normalize.normalizeStrongId (numToString n) (Some Normalize.greek)
    = Some (str "G" ++ numToString n)
    /\ Normalize.normalizeStrongId (numToString n) (Some Normalize.hebrew)
       = Some (str "H" ++ numToString n)
    /\ Normalize.normalizeStrongId (numToString n) None = None
    /\ Normalize.normalizeSeedToStrong (numToString n)
       = Some (str "G" ++ numToString n).
Proof.
  intros n Hn.
  pose proof (normalizeStrongId_number n) as Hnum.
  split; [exact (Hnum (Some Normalize.greek) Hn)|].
  split; [exact (Hnum (Some Normalize.hebrew) Hn)|].
  split; [exact (Hnum None Hn)|].
  pose proof (numToString_digits n) as Hds.
  pose proof (numToString_length_le 4 n Hn) as Hlen.
  unfold Normalize.normalizeSeedToStrong.
  rewrite (trim_noop _ (digits_no_space _ Hds)).
  destruct (Re.exec Normalize.reStrongsUrl _) as [m|] eqn:H1.
  { apply url_groups in H1. destruct H1 as (_ & _ & _ & _ & _ & _ & _ & Hl).
    change (length (str "biblehub.com/strongs/")) with 21%nat in Hl. lia. }
  destruct (Re.exec Normalize.reLangUrl _) as [m|] eqn:H2.
  { apply url_groups in H2. destruct H2 as (_ & _ & _ & _ & _ & _ & _ & Hl).
    change (length (str "biblehub.com/")) with 13%nat in Hl. lia. }
  rewrite (Hnum None Hn).
  destruct (exec_reDigits_digits (numToString n)) as (m & -> & ->);
    [apply numToString_nonempty|exact Hds|exact Hlen|].
  exact (Hnum (Some Normalize.greek) Hn).
Qed.

(** X12 at work. *)
Lemma a_bare_number_takes_the_letter_of_the_hint_witness :
  Normalize.normalizeStrongId (numToString 2198) (Some Normalize.greek)
  = Some (str "G" ++ numToString 2198)
  /\ Normalize.normalizeStrongId (numToString 2198) (Some Normalize.hebrew)
     = Some (str "H" ++ numToString 2198)
  /\ Normalize.normalizeStrongId (numToString 2198) None = None
  /\ Normalize.normalizeSeedToStrong (numToString 2198)
     = Some (str "G" ++ numToString 2198).
Proof.
  apply (a_bare_number_takes_the_letter_of_the_hint 2198). reflexivity.
Defined.

(** ** The addresses of the pages *)

Section PageUrls.
Import Re Normalize.
Local Open Scope nat_scope.

Lemma searchFrom_here (r : regex) (pos : nat) (pv : option N) (s : jsstring)
    (s' : mstate) :
  mt r Some {| prev := pv; rest := s; caps := [] |} = Some s' ->
  searchFrom r pos pv s
  = Some {| index := pos;
            matched := consumed {| prev := pv; rest := s; caps := [] |} s';
            after := s' |}.
Proof. intros H. destruct s; cbn [searchFrom]; rewrite H; reflexivity. Qed.

(** A literal under the [i] flag reads a text that is equal to it up to
    the case of ASCII letters. *)
Lemma mt_litCI (l : jsstring) :
  forall (xs tl : jsstring) (k : cont) (pv : option N) (cs : list (nat * jsstring)),
    l <> [] -> map asciiLower xs = map asciiLower l ->
    mt (litCI l) k {| prev := pv; rest := xs ++ tl; caps := cs |}
    = k {| prev := last xs; rest := tl; caps := cs |}.
Proof.
  induction l as [|c l IH]; intros xs tl k pv cs Hne Hx; [congruence|].
  destruct xs as [|x xs]; [discriminate|].
  cbn [map] in Hx. injection Hx as Hc Hx.
  assert (Hp : onlyCI c x = true) by (unfold onlyCI; apply N.eqb_eq; exact Hc).
  destruct l as [|c' l].
  - destruct xs; [|discriminate]. cbn [litCI]. rewrite mt_chr. cbn [rest app].
    rewrite Hp. reflexivity.
  - change (litCI (c :: c' :: l)) with (Seq (Chr (onlyCI c)) (litCI (c' :: l))).
    rewrite mt_seq, mt_chr. cbn [rest app caps]. rewrite Hp.
    rewrite IH by (congruence || exact Hx).
    destruct xs as [|x' xs]; [discriminate|]. reflexivity.
Qed.

Lemma advance_app (st : mstate) (c : N) (xs tl : jsstring) :
  rest st = xs ++ tl -> last xs = Some c ->
  advance st xs = {| prev := Some c; rest := tl; caps := caps st |}.
Proof.
  intros Hr Hl. unfold advance. rewrite Hl, Hr, drop_app_length. reflexivity.
Qed.

(** A greedy quantifier over a class reads up to the first character
    that is not of the class, when what follows the quantifier succeeds
    there. *)
Lemma repLoop_class_stop (p : N -> bool) (lo : nat) (hi : option nat)
    (k : cont) (c : N) (tl : jsstring) (xs : jsstring) :
  forall (fuel count : nat) (st : mstate),
    rest st = xs ++ c :: tl -> forallb p xs = true -> p c = false ->
    length (rest st) < fuel ->
    lo <= count + length xs -> withinMax (count + length xs) hi ->
    k (advance st xs) <> None ->
    repLoop (mt (Chr p)) true lo hi k fuel count st = k (advance st xs).
Proof.
  induction xs as [|x xs IH]; intros fuel count st Hr Hp Hc Hf Hlo Hhi Hk;
    (destruct fuel as [|fuel]; [lia|]).
  - rewrite repLoop_class_none by (rewrite Hr; exact Hc).
    cbn [length] in Hlo. rewrite Nat.add_0_r in Hlo.
    replace (lo <=? count) with true by (symmetry; apply Nat.leb_le; exact Hlo).
    f_equal. unfold advance. cbn [last length drop]. destruct st; reflexivity.
  - cbn [repLoop]. rewrite mt_chr, Hr. cbn [app].
    cbn [forallb] in Hp. apply andb_true_iff in Hp. destruct Hp as [Hx Hp].
    rewrite Hx. cbn [rest caps length] in *.
    replace (belowMax count hi) with true.
    2:{ destruct hi as [h|]; [|reflexivity]. cbn in Hhi |- *.
        symmetry. apply Nat.ltb_lt. lia. }
    rewrite Hr in Hf. cbn [app length] in Hf |- *.
    replace (length (xs ++ c :: tl) <? S (length (xs ++ c :: tl))) with true
      by (symmetry; apply Nat.ltb_lt; lia).
    assert (Hr' : rest st = x :: (xs ++ c :: tl)) by exact Hr.
    rewrite <- (advance_cons st x (xs ++ c :: tl) xs Hr') in Hk |- *.
    rewrite IH; cbn [rest]; auto; try lia.
    + destruct (k _); [reflexivity|congruence].
    + destruct hi as [h|]; [|exact I]. cbn in Hhi |- *. lia.
Qed.

(** The pattern of a page address on the address of a page. *)
Lemma mt_page_url (host word ds : jsstring) (pv : option N) :
  host <> [] -> word = str "greek" \/ word = str "hebrew" ->
  ds <> [] -> forallb isDigit ds = true ->
  mt (seqs [litCI host;
            Grp 1 (Alt (litCI (str "greek")) (litCI (str "hebrew")));
            Chr (only 47); Grp 2 (plus (Chr isDigit)); litCI (str ".htm")]) Some
     {| prev := pv; rest := host ++ word ++ [47%N] ++ ds ++ str ".htm"; caps := [] |}
  = Some {| prev := Some 109%N; rest := [];
            caps := [(2, ds); (1, word)] |}.
Proof.
  intros Hhost Hword Hne Hds.
  destruct (last ds) as [c|] eqn:Hl; [|apply last_None in Hl; congruence].
  change (seqs [?a; ?b; ?c'; ?d; ?e]) with (Seq a (Seq b (Seq c' (Seq d e)))).
  rewrite mt_seq, mt_litCI by (exact Hhost || reflexivity).
  rewrite mt_seq, mt_grp, mt_alt.
  set (rest2 := [47%N] ++ ds ++ str ".htm").
  set (s1 := {| prev := last host; rest := word ++ rest2; caps := [] |}).
  set (k1 := fun s' : mstate =>
               mt (Seq (Chr (only 47)) (Seq (Grp 2 (plus (Chr isDigit))) (litCI (str ".htm"))))
                  Some (setCap 1 (consumed s1 s') s')).
  assert (Hk1 : k1 {| prev := last word; rest := rest2; caps := [] |}
                = Some {| prev := Some 109%N; rest := [];
                          caps := [(2, ds); (1, word)] |}).
  { unfold k1. rewrite (consumed_app s1 _ word) by reflexivity.
    unfold setCap. cbn [prev rest caps]. unfold rest2.
    rewrite mt_seq, mt_chr. cbn [rest app caps].
    change (only 47 47) with true. cbv iota.
    rewrite mt_seq, mt_grp. unfold plus. rewrite mt_rep.
    set (st := {| prev := Some 47%N; rest := ds ++ str ".htm"; caps := [(1, word)] |}).
    assert (Hadv : advance st ds
                   = {| prev := Some c; rest := str ".htm"; caps := [(1, word)] |}).
    { apply (advance_app st c ds (str ".htm")); [reflexivity|exact Hl]. }
    assert (Hend : mt (litCI (str ".htm")) Some
                     (setCap 2 (consumed st (advance st ds)) (advance st ds))
                   = Some {| prev := Some 109%N; rest := [];
                             caps := [(2, ds); (1, word)] |}).
    { rewrite (consumed_app st _ ds) by (rewrite Hadv; reflexivity).
      rewrite Hadv. reflexivity. }
    rewrite (repLoop_class_stop isDigit 1 None _ 46%N (str "htm") ds _ 0 st);
      [exact Hend|reflexivity|exact Hds|reflexivity|unfold st; cbn [rest]; lia
      |destruct ds; [congruence|cbn [length]; lia]|exact I|].
    cbv beta. rewrite Hend. discriminate. }
  destruct Hword as [->| ->].
  - unfold s1. rewrite (mt_litCI (str "greek") (str "greek"))
      by (discriminate || reflexivity).
    unfold jsstring in *. rewrite Hk1. reflexivity.
  - replace (mt (litCI (str "greek")) k1 s1) with (@None mstate) by reflexivity.
    unfold s1. rewrite (mt_litCI (str "hebrew") (str "hebrew"))
      by (discriminate || reflexivity).
    unfold jsstring in *. exact Hk1.
Qed.

(** A pattern that begins with the letter b does not match in a text
    without that letter. *)
Lemma searchFrom_no_b (r : regex) (l s : jsstring) (pos : nat) (pv : option N) :
  forallb (fun c => negb (onlyCI 98 c)) s = true ->
  searchFrom (Seq (litCI (98%N :: 105%N :: l)) r) pos pv s = None.
Proof.
  revert pos pv. induction s as [|c s IH]; intros pos pv H; cbn [searchFrom].
  - reflexivity.
  - cbn [forallb] in H. apply andb_true_iff in H. destruct H as [Hc H].
    apply negb_true_iff in Hc.
    change (litCI (98%N :: 105%N :: l))
      with (Seq (Chr (onlyCI 98)) (litCI (105%N :: l))).
    rewrite !mt_seq, mt_chr. cbn [rest]. rewrite Hc. apply IH, H.
Qed.

Lemma digits_no_b (ds : jsstring) :
  forallb isDigit ds = true ->
  forallb (fun c => negb (onlyCI 98 c)) (ds ++ str ".htm") = true.
Proof.
  intros H. rewrite forallb_app. apply andb_true_iff. split; [|reflexivity].
  rewrite forallb_forall in *. intros c Hc. specialize (H c Hc).
  apply digit_cases in H. cbn [In] in H.
  repeat (destruct H as [<-|H]; [reflexivity|]). destruct H.
Qed.

Lemma url_no_space (a ds : jsstring) :
  forallb (fun c => negb (isSpace c)) a = true ->
  forallb isDigit ds = true ->
  forallb (fun c => negb (isSpace c)) (a ++ ds ++ str ".htm") = true.
Proof.
  intros Ha Hds. rewrite !forallb_app, Ha, (digits_no_space ds Hds). reflexivity.
Qed.

(** Both kinds of address of the page of a word lead back to the id. *)
Lemma page_url_seed (p : N) (ds : jsstring) :
  (p = 71 \/ p = 72)%N -> ds <> [] -> forallb isDigit ds = true ->
  normalizeSeedToStrong (strongsUrl (p :: ds)) = Some (p :: stringOfParseInt ds)
  /\ normalizeSeedToStrong (langPageUrl (p :: ds)) = Some (p :: stringOfParseInt ds).
Proof.
  intros Hp Hne Hds.
  set (word := langName (langFromStrong (p :: ds))).
  assert (Hword : word = str "greek" \/ word = str "hebrew")
    by (destruct Hp as [->| ->]; [left|right]; reflexivity).
  assert (Hprefix : urlPrefix word = [p])
    by (destruct Hp as [->| ->]; reflexivity).
  split.
  - unfold normalizeSeedToStrong, strongsUrl. fold word. change (drop 1 (p :: ds)) with ds. cbv zeta.
    rewrite trim_noop.
    2:{ rewrite (app_assoc _ word), (app_assoc _ (str "/")).
        apply url_no_space; [|exact Hds].
        destruct Hword as [->| ->]; reflexivity. }
    assert (Hexec : exec reStrongsUrl
                      (str "https://biblehub.com/strongs/" ++ word ++ str "/"
                         ++ ds ++ str ".htm")
                    = Some {| index := 8;
                              matched := consumed
                                 {| prev := Some 47%N;
                                    rest := str "biblehub.com/strongs/" ++ word
                                              ++ [47%N] ++ ds ++ str ".htm";
                                    caps := [] |}
                                 {| prev := Some 109%N; rest := [];
                                    caps := [(2, ds); (1, word)] |};
                              after := {| prev := Some 109%N; rest := [];
                                          caps := [(2, ds); (1, word)] |} |}).
    { transitivity (searchFrom reStrongsUrl 8 (Some 47%N)
                      (str "biblehub.com/strongs/" ++ word ++ [47%N] ++ ds ++ str ".htm"));
        [reflexivity|].
      apply searchFrom_here. apply mt_page_url; auto; discriminate. }
    unfold jsstring in *. rewrite Hexec. unfold grp, group. cbn [after caps lookupCap Nat.eqb].
    rewrite Hprefix. reflexivity.
  - unfold normalizeSeedToStrong, langPageUrl. fold word. change (drop 1 (p :: ds)) with ds. cbv zeta.
    rewrite trim_noop.
    2:{ rewrite (app_assoc _ word), (app_assoc _ (str "/")).
        apply url_no_space; [|exact Hds].
        destruct Hword as [->| ->]; reflexivity. }
    assert (Hnone : exec reStrongsUrl
                      (str "https://biblehub.com/" ++ word ++ str "/"
                         ++ ds ++ str ".htm") = None).
    { unfold exec.
      destruct Hword as [->| ->].
      - transitivity (searchFrom reStrongsUrl 27 (Some 47%N) (ds ++ str ".htm"));
          [reflexivity|]. apply searchFrom_no_b, digits_no_b, Hds.
      - transitivity (searchFrom reStrongsUrl 28 (Some 47%N) (ds ++ str ".htm"));
          [reflexivity|]. apply searchFrom_no_b, digits_no_b, Hds. }
    unfold jsstring in *. rewrite Hnone.
    assert (Hexec : exec reLangUrl
                      (str "https://biblehub.com/" ++ word ++ str "/"
                         ++ ds ++ str ".htm")
                    = Some {| index := 8;
                              matched := consumed
                                 {| prev := Some 47%N;
                                    rest := str "biblehub.com/" ++ word
                                              ++ [47%N] ++ ds ++ str ".htm";
                                    caps := [] |}
                                 {| prev := Some 109%N; rest := [];
                                    caps := [(2, ds); (1, word)] |};
                              after := {| prev := Some 109%N; rest := [];
                                          caps := [(2, ds); (1, word)] |} |}).
    { transitivity (searchFrom reLangUrl 8 (Some 47%N)
                      (str "biblehub.com/" ++ word ++ [47%N] ++ ds ++ str ".htm"));
        [reflexivity|].
      apply searchFrom_here. apply mt_page_url; auto; discriminate. }
    unfold jsstring in *. rewrite Hexec. unfold grp, group. cbn [after caps lookupCap Nat.eqb].
    rewrite Hprefix. reflexivity.
Qed.

End PageUrls.

(** X13.  The address that [strongsUrl] makes for a canonical id, and the
    one that [langPageUrl] makes, are seeds that are normalised back to
    that id; and the language of the address is that of the id's
    letter. *)
Theorem page_addresses_lead_back_to_the_id :
  forall (id : jsstring),
    strongId id ->
    Normalize.normalizeSeedToStrong (Normalize.strongsUrl id) = Some id
    /\ Normalize.normalizeSeedToStrong (Normalize.langPageUrl id) = Some id
    /\ (Normalize.langFromStrong id = Normalize.greek
        <-> exists n, id = str "G" ++ numToString n).
Proof.
  intros id (p & n & Hp & Hn & ->).
  pose proof (numToString_digits n) as Hds.
  pose proof (numToString_nonempty n) as Hne.
  destruct (page_url_seed p (numToString n) Hp Hne Hds) as [H1 H2].
  rewrite stringOfParseInt_digits, numToString_value in H1, H2
    by (rewrite ?numToString_value; first [assumption | lia]).
  split; [exact H1|]. split; [exact H2|].
  destruct Hp as [->| ->]; split.
  - intros _. exists n. reflexivity.
  - intros _. reflexivity.
  - intros H. discriminate.
  - intros (n' & H). discriminate.
Qed.

(** X13 at work. *)
Lemma page_addresses_lead_back_to_the_id_witness :
  Normalize.normalizeSeedToStrong (Normalize.strongsUrl (str "H430"))
  = Some (str "H430")
  /\ Normalize.normalizeSeedToStrong (Normalize.langPageUrl (str "H430"))
     = Some (str "H430")
  /\ (Normalize.langFromStrong (str "H430") = Normalize.greek
      <-> exists n, str "H430" = str "G" ++ numToString n).
Proof.
  apply (page_addresses_lead_back_to_the_id (str "H430")).
  exists 72%N, 430%N. repeat split; (reflexivity || (right; reflexivity)).
Defined.

(** ** File names *)

Section FileNames.
Import Re Normalize.
Local Open Scope nat_scope.

Variable repl : jsstring.

Local Abbreviation const := (fun _ _ _ : jsstring => repl).

(** Where the search starts only moves the index of what it finds. *)
Lemma searchFrom_shift (r : regex) (s : jsstring) (pos : nat) (pv : option N) :
  searchFrom r (S pos) pv s
  = option_map (fun m => {| index := S (index m); matched := matched m;
                            after := after m |})
               (searchFrom r pos pv s).
Proof.
  revert pos pv. induction s as [|c s IH]; intros pos pv; cbn [searchFrom];
    destruct (mt r Some _); try reflexivity.
  apply IH.
Qed.

(** With a fixed replacement text the text already scanned plays no part. *)
Lemma replaceFuel_done (r : regex) (fuel : nat) (d d' : jsstring)
    (pv : option N) (s : jsstring) :
  replaceFuel fuel r const d pv s = replaceFuel fuel r const d' pv s.
Proof.
  revert d d' pv s. induction fuel as [|fuel IH]; intros d d' pv s;
    [reflexivity|].
  cbn [replaceFuel]. destruct (searchFrom r 0 pv s) as [m|]; [|reflexivity].
  cbv zeta. destruct (matched m).
  - destruct (drop (index m) s); [reflexivity|].
    do 3 f_equal. apply IH.
  - do 2 f_equal. apply IH.
Qed.

(** A code unit at which no match starts is copied. *)
Lemma replaceFuel_skip (r : regex) (fuel : nat) (d : jsstring)
    (pv : option N) (c : N) (t : jsstring) :
  mt r Some {| prev := pv; rest := c :: t; caps := [] |} = None ->
  replaceFuel (S fuel) r const d pv (c :: t)
  = c :: replaceFuel (S fuel) r const d (Some c) t.
Proof.
  intros Hm. cbn [replaceFuel searchFrom]. rewrite Hm.
  rewrite searchFrom_shift.
  destruct (searchFrom r 0 (Some c) t) as [m|]; [|reflexivity].
  cbn [option_map index matched after]. cbv zeta.
  destruct (matched m).
  - cbn [drop take]. destruct (drop (index m) t).
    + reflexivity.
    + cbn [app]. do 4 f_equal. apply replaceFuel_done.
  - cbn [take app]. do 3 f_equal. apply replaceFuel_done.
Qed.

(** Replacing the code units of a class one by one. *)
Lemma replaceFuel_chr (p : N -> bool) (s : jsstring) :
  forall (fuel : nat) (d : jsstring) (pv : option N),
    length s < fuel ->
    replaceFuel fuel (Chr p) const d pv s
    = flat_map (fun c => if p c then repl else [c]) s.
Proof.
  induction s as [|c t IH]; intros fuel d pv Hf;
    (destruct fuel as [|fuel]; [cbn in Hf; lia|]).
  - reflexivity.
  - cbn [flat_map length] in *. destruct (p c) eqn:Hc.
    + cbn [replaceFuel].
      rewrite (searchFrom_here (Chr p) 0 pv (c :: t)
                 {| prev := Some c; rest := t; caps := [] |})
        by (rewrite mt_chr; cbn [rest caps]; rewrite Hc; reflexivity).
      cbv zeta. cbn [index matched after rest prev].
      rewrite (consumed_app _ _ [c]) by reflexivity.
      cbn [take app]. f_equal. apply IH. lia.
    + rewrite replaceFuel_skip
        by (rewrite mt_chr; cbn [rest]; rewrite Hc; reflexivity).
      cbn [app]. f_equal. apply IH. lia.
Qed.

End FileNames.

Section Squeeze.
Import Re Normalize.
Local Open Scope nat_scope.

Lemma squeeze_run (c : N) (t : jsstring) :
  isSpace c = true ->
  squeeze (c :: t) = 32%N :: squeeze (drop (length (classPrefix isSpace t)) t).
Proof.
  revert c. induction t as [|d t IH]; intros c Hc.
  - cbn. rewrite Hc. reflexivity.
  - change (squeeze (c :: d :: t))
      with (if isSpace c
            then if isSpace d then squeeze (d :: t) else 32%N :: squeeze (d :: t)
            else c :: squeeze (d :: t)).
    rewrite Hc. cbn [classPrefix]. destruct (isSpace d) eqn:Hd.
    + cbn [length drop]. apply IH, Hd.
    + reflexivity.
Qed.

(** Replacing every run of white space by one space. *)
Lemma replaceFuel_spaces (n : nat) :
  forall (s : jsstring) (fuel : nat) (d : jsstring) (pv : option N),
    length s <= n -> length s < fuel ->
    replaceFuel fuel (plus (Chr isSpace)) (fun _ _ _ => [32%N]) d pv s
    = squeeze s.
Proof.
  induction n as [|n IH]; intros s fuel d pv Hn Hf;
    (destruct fuel as [|fuel]; [lia|]).
  - destruct s; [|cbn in Hn; lia]. reflexivity.
  - destruct s as [|c t]; [reflexivity|]. cbn [length] in Hn, Hf.
    destruct (isSpace c) eqn:Hc.
    + rewrite squeeze_run by exact Hc.
      set (st := {| prev := pv; rest := c :: t; caps := [] |}).
      assert (Hm : mt (plus (Chr isSpace)) Some st
                   = Some (advance st (classPrefix isSpace (c :: t)))).
      { unfold plus, st. rewrite mt_rep_class. cbn [rest classPrefix].
        rewrite Hc. reflexivity. }
      cbn [replaceFuel]. rewrite (searchFrom_here _ 0 pv (c :: t) _ Hm).
      cbv zeta. cbn [index matched after].
      rewrite (consumed_app st _ (classPrefix isSpace (c :: t)))
        by (cbn [advance rest st]; apply classPrefix_split).
      cbn [classPrefix]. rewrite Hc. cbn [take app advance rest st length drop].
      f_equal. apply IH.
      * rewrite length_drop. lia.
      * rewrite length_drop. lia.
    + rewrite replaceFuel_skip.
      * cbn [squeeze]. rewrite Hc. f_equal. apply IH; lia.
      * unfold plus. rewrite mt_rep_class. cbn [rest classPrefix].
        rewrite Hc. reflexivity.
Qed.

(** What [safeFileName] computes, without patterns. *)
Lemma safeFileName_squeeze (name : jsstring) :
  safeFileName name
  = trim (squeeze
            (flat_map (fun c => if oneOf [92; 47; 58; 42; 63; 34; 60; 62; 124]%N c
                                then [226; 8364; 8221]%N else [c]) name)).
Proof.
  unfold safeFileName, replaceAll, replaceWith.
  rewrite (replaceFuel_chr _ _ name) by apply Nat.lt_succ_diag_r.
  rewrite (replaceFuel_spaces (length (flat_map _ name)))
    by first [apply Nat.lt_succ_diag_r | apply Nat.le_refl].
  reflexivity.
Qed.

Lemma squeeze_In (x : N) (s : jsstring) :
  In x (squeeze s) -> x = 32%N \/ (In x s /\ isSpace x = false).
Proof.
  induction s as [|c t IH]; [intros []|].
  change (squeeze (c :: t))
    with (if isSpace c
          then match t with
               | d :: _ => if isSpace d then squeeze t else 32%N :: squeeze t
               | [] => [32%N]
               end
          else c :: squeeze t).
  destruct (isSpace c) eqn:Hc.
  - destruct t as [|d t'].
    + intros [<-|[]]. left. reflexivity.
    + destruct (isSpace d); intros H.
      * destruct (IH H) as [->|[Hin Hx]]; [left; reflexivity|].
        right. split; [right; exact Hin|exact Hx].
      * destruct H as [<-|H]; [left; reflexivity|].
        destruct (IH H) as [->|[Hin Hx]]; [left; reflexivity|].
        right. split; [right; exact Hin|exact Hx].
  - intros [<-|H].
    + right. split; [left; reflexivity|exact Hc].
    + destruct (IH H) as [->|[Hin Hx]]; [left; reflexivity|].
      right. split; [right; exact Hin|exact Hx].
Qed.

Lemma squeeze_no_pair (s a b : jsstring) :
  squeeze s <> a ++ [32; 32]%N ++ b.
Proof.
  revert a. induction s as [|c t IH]; intros a.
  - destruct a; discriminate.
  - change (squeeze (c :: t))
      with (if isSpace c
            then match t with
                 | d :: _ => if isSpace d then squeeze t else 32%N :: squeeze t
                 | [] => [32%N]
                 end
            else c :: squeeze t).
    destruct (isSpace c) eqn:Hc.
    + destruct t as [|d t'].
      * destruct a as [|x [|y a]]; discriminate.
      * destruct (isSpace d) eqn:Hd; [apply IH|].
        destruct a as [|x a]; cbn [app].
        -- cbn [squeeze]. rewrite Hd. intros H. injection H as H _.
           subst d. discriminate.
        -- intros H. injection H as _ H. exact (IH a H).
    + destruct a as [|x a]; cbn [app].
      * intros H. injection H as H _. subst c. discriminate.
      * intros H. injection H as _ H. exact (IH a H).
Qed.

(** A text whose white space is single spaces is left as it is. *)
Lemma squeeze_fixed (s : jsstring) :
  (forall c, In c s -> isSpace c = true -> c = 32%N) ->
  (forall a b, s <> a ++ [32; 32]%N ++ b) ->
  squeeze s = s.
Proof.
  induction s as [|c t IH]; intros Hsp Hpair; [reflexivity|].
  assert (IHt : squeeze t = t).
  { apply IH.
    - intros x Hx. apply Hsp. right. exact Hx.
    - intros a b ->. apply (Hpair (c :: a) b). reflexivity. }
  change (squeeze (c :: t))
    with (if isSpace c
          then match t with
               | d :: _ => if isSpace d then squeeze t else 32%N :: squeeze t
               | [] => [32%N]
               end
          else c :: squeeze t).
  destruct (isSpace c) eqn:Hc.
  - assert (c = 32%N) as -> by (apply Hsp; [left; reflexivity|exact Hc]).
    destruct t as [|d t']; [reflexivity|].
    destruct (isSpace d) eqn:Hd.
    + exfalso. assert (d = 32%N) as ->
        by (apply Hsp; [right; left; reflexivity|exact Hd]).
      apply (Hpair [] t'). reflexivity.
    + rewrite IHt. reflexivity.
  - rewrite IHt. reflexivity.
Qed.

Lemma trim_within (s : jsstring) : exists a b, s = a ++ trim s ++ b.
Proof.
  destruct (trimStart_split s) as (a & Ha & _).
  destruct (trimEnd_split (trimStart s)) as (b & Hb & _).
  exists a, b. unfold trim. rewrite <- Hb. exact Ha.
Qed.

Lemma flat_map_fixed (p : N -> bool) (r s : jsstring) :
  (forall c, In c s -> p c = false) ->
  flat_map (fun c => if p c then r else [c]) s = s.
Proof.
  induction s as [|c t IH]; intros H; [reflexivity|].
  cbn [flat_map]. rewrite (H c) by (left; reflexivity).
  cbn [app]. f_equal. apply IH. intros x Hx. apply H. right. exact Hx.
Qed.

Lemma safeFileName_clean (name : jsstring) : cleanName (safeFileName name).
Proof.
  rewrite safeFileName_squeeze.
  set (s1 := flat_map _ name).
  destruct (trim_within (squeeze s1)) as (a & b & Hs).
  assert (Hin : forall c, In c (trim (squeeze s1)) -> In c (squeeze s1)).
  { intros c Hc. rewrite Hs. apply in_or_app. right.
    apply in_or_app. left. exact Hc. }
  split; [|split; [|split]].
  - intros c Hc Hf. apply Hin, squeeze_In in Hf.
    destruct Hf as [->|[Hf _]].
    + cbn in Hc. repeat (destruct Hc as [Hc|Hc]; [discriminate|]). exact Hc.
    + unfold s1 in Hf. apply in_flat_map in Hf. destruct Hf as (x & _ & Hx).
      destruct (oneOf _ x) eqn:Hox.
      * cbn in Hx, Hc.
        repeat (destruct Hx as [Hx|Hx]; [subst c|]); try exact Hx;
          repeat (destruct Hc as [Hc|Hc]; [discriminate|]); exact Hc.
      * destruct Hx as [->|[]].
        assert (Hone : oneOf [92; 47; 58; 42; 63; 34; 60; 62; 124]%N c = true);
          [|congruence].
        cbn in Hc.
        repeat (destruct Hc as [Hc|Hc]; [subst c; reflexivity|]).
        destruct Hc.
  - intros c Hc Hsp. apply Hin, squeeze_In in Hc.
    destruct Hc as [->|[_ Hc]]; [reflexivity|congruence].
  - intros x y H. apply (squeeze_no_pair s1 (a ++ x) (y ++ b)).
    rewrite Hs at 1. rewrite H, <- !app_assoc. reflexivity.
  - apply trim_idem.
Qed.

Lemma safeFileName_fixed (name : jsstring) :
  cleanName name -> safeFileName name = name.
Proof.
  intros (Hforb & Hsp & Hpair & Htrim).
  rewrite safeFileName_squeeze, flat_map_fixed.
  - rewrite squeeze_fixed by assumption. exact Htrim.
  - intros c Hc. destruct (oneOf _ c) eqn:Hone; [|reflexivity].
    exfalso. apply (Hforb c); [|exact Hc].
    unfold oneOf in Hone. apply existsb_exists in Hone.
    destruct Hone as (x & Hx & Hxc). apply N.eqb_eq in Hxc. subst x. exact Hx.
Qed.

End Squeeze.

(** X14.  The name that [safeFileName] returns, and so the title that
    [buildTitle] gives a note, holds none of the characters backslash,
    slash, colon, star, question mark, double quote, angle brackets and
    bar, and no white space but single spaces between other characters;
    and the names that [safeFileName] leaves as they are are exactly the
    names of that kind. *)
Theorem note_titles_are_clean_names :
  (forall (name : jsstring), cleanName (Normalize.safeFileName name))
  /\ (forall (name : jsstring),
        Normalize.safeFileName name = name <-> cleanName name)
  /\ (forall (entry : Types.LexiconEntry) (recipe : Types.Recipe),
        cleanName (Writer.buildTitle entry recipe)).
Proof.
  split; [exact safeFileName_clean|]. split.
  - intros name. split.
    + intros H. rewrite <- H. apply safeFileName_clean.
    + apply safeFileName_fixed.
  - intros entry recipe. unfold Writer.buildTitle. cbv zeta.
    match goal with |- cleanName (trim (Normalize.safeFileName ?x)) =>
      pose proof (safeFileName_clean x) as Hc;
      destruct Hc as (H1 & H2 & H3 & H4) end.
    rewrite H4. repeat split; assumption.
Qed.

(** X14 at work: a title pattern with a slash and a line break. *)
Example a_title_with_a_slash :
  Normalize.safeFileName (str "G26 /  agape" ++ [10%N] ++ str " (noun) ")
  = str "G26 " ++ [226; 8364; 8221]%N ++ str " agape (noun)".
Proof. vm_compute. reflexivity. Qed.

(** ** The order of a crawl *)

Section CrawlOrder.
Import Types Crawler.

Variable E : Env.
Variable recipe : Recipe.
Variable renameOnUpdate : bool.

Lemma rising_app (l1 l2 : list Z) :
  rising (l1 ++ l2)
  <-> rising l1 /\ rising l2
      /\ Forall (fun x => Forall (fun y => x <= y) l2) l1.
Proof.
  induction l1 as [|x l1 IH]; cbn [rising app].
  - split; [intros H; repeat split; [exact H|constructor]|tauto].
  - rewrite IH, Forall_app, Forall_cons. tauto.
Qed.

Lemma rising_same (d : Z) (l : list Z) :
  Forall (fun y => y = d) l -> rising l.
Proof.
  induction 1 as [|y l -> Hl IH]; cbn [rising]; [exact I|].
  split; [|exact IH]. eapply Forall_impl; [exact Hl|]. cbn. intros; lia.
Qed.

(** The items taken off the queue so far, the queue, and what the trace
    records of them. *)
Local Abbreviation inOrder := (fun (st : State E) (taken : list QueueItem) =>
  enqueued (trace st) = map (fun i => (qstrong i, depth i)) (taken ++ q st)
  /\ sublist (fetchedIds (trace st)) (map qstrong taken)
  /\ rising (map depth (taken ++ q st))
  /\ Forall (fun x => Forall (fun i => depth x <= depth i + 1) (q st))
            (taken ++ q st)).

Lemma round_inOrder (st st' : State E) (taken : list QueueItem) :
  round E recipe renameOnUpdate st st' ->
  inOrder st taken ->
  exists item, inOrder st' (taken ++ [item]).
Proof.
  intros Hr (Henq & Hsub & Hrise & Hnear).
  assert (Hdrop : forall item rest,
            q st = item :: rest ->
            Forall (fun x => Forall (fun i => depth x <= depth i + 1) rest)
                   (taken ++ q st)).
  { intros item rest Hq.
    eapply Forall_impl; [exact Hnear|]. cbn. intros x Hx.
    rewrite Hq in Hx. apply Forall_cons in Hx. tauto. }
  destruct Hr as [item rest Hq Hseen ->|item rest Hq Hseen Hx ->
                 |item rest stb thrown Hq Hseen Hx Hb ->];
    exists item; cbn [q trace].
  - rewrite <- app_assoc. cbn [app]. rewrite <- Hq.
    repeat split; try assumption.
    + rewrite map_app. apply sublist_inserts_r. exact Hsub.
    + apply (Hdrop item), Hq.
  - rewrite <- app_assoc. cbn [app]. rewrite <- Hq.
    repeat split; try assumption.
    + rewrite map_app. apply sublist_inserts_r. exact Hsub.
    + apply (Hdrop item), Hq.
  - apply tryBody_effect in Hb. unfold entering in Hb.
    cbn [q seen processed res trace] in Hb.
    destruct Hb as (_ & _ & _ & _ & _ & pushed & Hq' & Htr & HF & _).
    rewrite Hq', Htr.
    assert (Hd : Forall (fun y => y = depth item + 1) (map depth pushed)).
    { rewrite Forall_map. eapply Forall_impl; [exact HF|]. cbn. tauto. }
    assert (Hold : (taken ++ [item]) ++ rest ++ pushed
                   = (taken ++ q st) ++ pushed).
    { rewrite Hq, <- !app_assoc. reflexivity. }
    rewrite Hold.
    assert (Hitem : Forall (fun x => depth x <= depth item + 1) (taken ++ q st)).
    { eapply Forall_impl; [exact Hnear|]. cbn. intros x Hn.
      rewrite Hq in Hn. apply Forall_cons in Hn. tauto. }
    assert (Hrest : Forall (fun i => depth item <= depth i) rest).
    { rewrite Hq, map_app in Hrise. apply rising_app in Hrise.
      destruct Hrise as (_ & Hr & _). cbn [map rising] in Hr.
      destruct Hr as [Hr _]. rewrite Forall_map in Hr. exact Hr. }
    split; [|split; [|split]].
    + rewrite !enqueued_app, enqueued_pushed, Henq, (map_app _ (taken ++ q st) pushed). reflexivity.
    + rewrite !fetchedIds_app, fetchedIds_enqueued, app_nil_r, map_app.
      apply sublist_app; [exact Hsub|]. reflexivity.
    + rewrite map_app. apply rising_app.
      split; [exact Hrise|]. split; [eapply rising_same; exact Hd|].
      rewrite Forall_map. eapply Forall_impl; [exact Hitem|]. cbn. intros x Hin.
      eapply Forall_impl; [exact Hd|]. cbn. intros y ->. exact Hin.
    + apply Forall_app. split.
      * apply Forall_forall. intros x Hin. apply Forall_app. split.
        -- rewrite Forall_forall in Hnear. specialize (Hnear x Hin).
           rewrite Hq in Hnear. apply Forall_cons in Hnear. tauto.
        -- rewrite Forall_forall in Hitem. specialize (Hitem x Hin).
           eapply Forall_impl; [exact HF|]. cbn. intros i (Hi & _). lia.
      * eapply Forall_impl; [exact HF|]. cbn. intros x (Hdx & _).
        apply Forall_app. split.
        -- eapply Forall_impl; [exact Hrest|]. cbn. intros; lia.
        -- eapply Forall_impl; [exact HF|]. cbn. intros i (Hi & _). lia.
Qed.

Lemma reaches_inOrder (rootStrong : jsstring) (idx : gmap jsstring jsstring)
    (w : World E) (st : State E) :
  reaches E recipe renameOnUpdate (initial rootStrong idx w) st ->
  exists taken, inOrder st taken.
Proof.
  intros Hr. induction Hr as [|st1 st2 Hr IH Hs].
  - exists []. cbn. repeat split; repeat constructor. lia.
  - destruct IH as (taken & IH). apply step_round in Hs.
    destruct Hs as [_ Hround].
    destruct (round_inOrder _ _ _ Hround IH) as (item & H).
    exists (taken ++ [item]). exact H.
Qed.

End CrawlOrder.

(** X15.  A crawl goes breadth first.  In every state a run passes
    through, what was enqueued so far is, in order, the items taken off
    the queue followed by the queue; the ids fetched are, in order, among
    the items taken; no enqueued item is followed by one of a smaller
    depth; and the items in the queue are at most one deeper than the
    first of them. *)
Theorem crawl_goes_breadth_first :
  forall (E : Env) (recipe : Types.Recipe) (renameOnUpdate : bool)
         (rootStrong : jsstring) (idx : gmap jsstring jsstring) (w : World E)
         (st : State E),
    reaches E recipe renameOnUpdate (Crawler.initial rootStrong idx w) st ->
    exists taken : list Crawler.QueueItem,
      enqueued (Crawler.trace st)
      = map (fun i => (Crawler.qstrong i, Crawler.depth i))
            (taken ++ Crawler.q st)
      /\ sublist (fetchedIds (Crawler.trace st)) (map Crawler.qstrong taken)
      /\ rising (map snd (enqueued (Crawler.trace st)))
      /\ forall item rest,
           Crawler.q st = item :: rest ->
           Forall (fun i => Crawler.depth item <= Crawler.depth i
                            <= Crawler.depth item + 1) rest.
Proof.
  intros E recipe ren root idx w st Hr.
  destruct (reaches_inOrder E recipe ren root idx w st Hr)
    as (taken & Henq & Hsub & Hrise & Hnear).
  exists taken. split; [exact Henq|]. split; [exact Hsub|]. split.
  - rewrite Henq, map_map. exact Hrise.
  - intros item rest Hq. rewrite Hq, map_app in Hrise.
    apply rising_app in Hrise. destruct Hrise as (_ & Hr' & _).
    cbn [map rising] in Hr'. destruct Hr' as [Hr' _].
    rewrite Forall_map in Hr'.
    rewrite Hq in Hnear. apply Forall_app in Hnear. destruct Hnear as [_ Hn].
    apply Forall_cons in Hn. destruct Hn as [_ Hn].
    apply Forall_forall. intros i Hi.
    rewrite Forall_forall in Hr'. specialize (Hr' i Hi). cbn in Hr'.
    rewrite Forall_forall in Hn. specialize (Hn i Hi).
    apply Forall_cons in Hn. destruct Hn as [Hn _].
    lia.
Qed.

Lemma crawl_goes_breadth_first_witness :
  exists taken : list Crawler.QueueItem,
    enqueued (Crawler.trace
                (Demo.lastState Demo.good (Demo.recipe 2 10) (str "G1") [] 20))
    = map (fun i => (Crawler.qstrong i, Crawler.depth i))
          (taken ++ Crawler.q
             (Demo.lastState Demo.good (Demo.recipe 2 10) (str "G1") [] 20)).
Proof.
  destruct (crawl_goes_breadth_first Demo.good (Demo.recipe 2 10) false
              (str "G1") ∅ [] _
              (lastState_reached Demo.good (Demo.recipe 2 10) (str "G1") [] 20))
    as (taken & H & _).
  exists taken. exact H.
Defined.

(** ** The text of a page *)

Section PageText.
Import Re Parser.
Local Open Scope nat_scope.

(** A match ends within the text it started in. *)
Lemma matches_rest (r : regex) :
  forall (s s' : mstate), matches r s s' -> exists xs, rest s = xs ++ rest s'.
Proof.
  induction r as [|p|a IHa b IHb|a IHa b IHb|g lo hi a IHa|i a IHa|];
    intros s s'; cbn [matches].
  - intros ->. exists []. reflexivity.
  - intros (c & t & Hr & _ & ->). exists [c]. exact Hr.
  - intros (m & Ha & Hb). apply IHa in Ha. apply IHb in Hb.
    destruct Ha as (xs & Hx). destruct Hb as (ys & Hy).
    exists (xs ++ ys). rewrite Hx, Hy, app_assoc. reflexivity.
  - intros [H|H]; [apply IHa|apply IHb]; exact H.
  - intros (n & _ & _ & Hn). revert s Hn.
    induction n as [|n IH]; intros s; cbn [iter].
    + intros ->. exists []. reflexivity.
    + intros (m & Ha & Hn). apply IHa in Ha. apply IH in Hn.
      destruct Ha as (xs & Hx). destruct Hn as (ys & Hy).
      exists (xs ++ ys). rewrite Hx, Hy, app_assoc. reflexivity.
  - intros (m & Ha & ->). apply IHa in Ha. exact Ha.
  - intros [_ ->]. exists []. reflexivity.
Qed.

(** Replacing matches by a fixed text brings in no code unit that is
    neither in the text nor in the replacement. *)
Lemma replaceFuel_Forall (P : N -> Prop) (r : regex) (repl : jsstring) :
  Forall P repl ->
  forall (fuel : nat) (d : jsstring) (pv : option N) (s : jsstring),
    Forall P s ->
    Forall P (replaceFuel fuel r (fun _ _ _ => repl) d pv s).
Proof.
  intros Hrepl. induction fuel as [|fuel IH]; intros d pv s Hs; [exact Hs|].
  cbn [replaceFuel]. destruct (searchFrom r 0 pv s) as [m|] eqn:Hm; [|exact Hs].
  cbv zeta. apply searchFrom_sound in Hm.
  destruct Hm as (pv' & before & s' & Hsplit & _ & Hmatch & _).
  apply matches_rest in Hmatch. cbn [rest] in Hmatch.
  destruct Hmatch as (xs & Hxs).
  assert (Hafter : Forall P (rest (after m))).
  { rewrite Hsplit, Hxs in Hs. rewrite !Forall_app in Hs. tauto. }
  assert (Htake : Forall P (take (index m) s)) by (apply Forall_take, Hs).
  assert (Hdrop : Forall P (drop (index m) s)) by (apply Forall_drop, Hs).
  destruct (matched m).
  - destruct (drop (index m) s) as [|c t].
    + apply Forall_app. split; assumption.
    + apply Forall_cons in Hdrop. destruct Hdrop as [Hc Ht].
      rewrite !Forall_app. split; [exact Htake|]. split; [exact Hrepl|].
      apply Forall_cons. split; [exact Hc|]. apply IH, Ht.
  - rewrite !Forall_app. split; [exact Htake|]. split; [exact Hrepl|].
    apply IH, Hafter.
Qed.

Local Abbreviation lead := (fun x : jsstring => length (classPrefix (only 10) x)).

(** Cutting the runs of three and more line feeds down to two. *)
Lemma replaceFuel_blank_lines (n : nat) :
  forall (s : jsstring) (fuel : nat) (d : jsstring) (pv : option N),
    length s <= n -> length s < fuel ->
    let out := replaceFuel fuel (atLeast 3 (Chr (only 10)))
                 (fun _ _ _ => [10; 10]%N) d pv s in
    lead out <= 2 /\ lead out <= lead s
    /\ forall a b, out <> a ++ [10; 10; 10]%N ++ b.
Proof.
  induction n as [|n IH]; intros s fuel d pv Hn Hf; cbv zeta;
    (destruct fuel as [|fuel]; [lia|]).
  - destruct s; [|cbn in Hn; lia]. cbn. repeat split; try lia.
    intros a b H. destruct a; discriminate.
  - destruct s as [|c t].
    { cbn. repeat split; try lia. intros a b H. destruct a; discriminate. }
    cbn [length] in Hn, Hf.
    set (st := {| prev := pv; rest := c :: t; caps := [] |}).
    pose proof (mt_rep_class (only 10) 3 st) as Hm.
    change (Rep true 3 None (Chr (only 10)))
      with (atLeast 3 (Chr (only 10))) in Hm.
    destruct (3 <=? length (classPrefix (only 10) (rest st))) eqn:Hlen.
    + apply Nat.leb_le in Hlen. cbn [rest st] in Hlen, Hm.
      cbn [replaceFuel]. rewrite (searchFrom_here _ 0 pv (c :: t) _ Hm).
      cbv zeta. cbn [index matched after].
      rewrite (consumed_app st _ (classPrefix (only 10) (c :: t)))
        by (cbn [advance rest st]; apply classPrefix_split).
      destruct (classPrefix (only 10) (c :: t)) as [|x run] eqn:Hrun;
        [cbn in Hlen; lia|].
      rewrite <- Hrun in Hlen, Hm |- *. cbn [take app advance rest prev st].
      pose proof (classPrefix_split (only 10) (c :: t)) as Hsplit.
      pose proof (classPrefix_stop (only 10) (c :: t)) as Hstop.
      set (s' := drop (length (classPrefix (only 10) (c :: t))) (c :: t)) in *.
      assert (Hs' : length s' <= n /\ length s' < fuel).
      { unfold s'. rewrite length_drop. cbn [length]. lia. }
      destruct (IH s' fuel (d ++ classPrefix (only 10) (c :: t))
                  (match last (classPrefix (only 10) (c :: t)) with
                   | Some c0 => Some c0 | None => pv end)
                  (proj1 Hs') (proj2 Hs'))
        as (_ & Hlead & Hno).
      assert (H0 : lead s' = 0).
      { clearbody s'. destruct s' as [|y s'']; [reflexivity|].
        cbn [classPrefix]. rewrite Hstop. reflexivity. }
      rewrite H0 in Hlead.
      set (out := replaceFuel fuel _ _ _ _ s') in *.
      assert (Hout : match out with y :: _ => only 10 y = false | [] => True end).
      { clearbody out. destruct out as [|y out']; [exact I|].
        cbn [classPrefix] in Hlead.
        destruct (only 10 y); [cbn [length] in Hlead; lia|reflexivity]. }
      assert (Hl2 : lead (10 :: 10 :: out)%N = 2).
      { clearbody out. destruct out as [|y out']; [reflexivity|].
        cbn [classPrefix]. change (only 10 10%N) with true. cbv iota.
        rewrite Hout. reflexivity. }
      split; [|split].
      * rewrite Hl2. lia.
      * rewrite Hl2. lia.
      * intros a b H. destruct a as [|a1 [|a2 a]]; cbn [app] in H.
        -- injection H as H. rewrite H in Hout. discriminate.
        -- injection H as _ H. rewrite H in Hout. discriminate.
        -- injection H as _ _ H. exact (Hno a b H).
    + apply Nat.leb_gt in Hlen. cbn [rest st] in Hlen, Hm.
      rewrite (replaceFuel_skip _ _ _ _ _ _ _ Hm).
      destruct (IH t (S fuel) d (Some c) ltac:(lia) ltac:(lia))
        as (_ & Hlead & Hno).
      set (out := replaceFuel (S fuel) _ _ _ _ t) in *.
      cbn [classPrefix] in Hlen |- *.
      destruct (only 10 c) eqn:Hc; cbn [length] in Hlen |- *.
      * split; [lia|]. split; [lia|].
        intros a b H. destruct a as [|a1 a]; cbn [app] in H.
        -- injection H as _ H. rewrite H in Hlead. cbn in Hlead. lia.
        -- injection H as _ H. exact (Hno a b H).
      * split; [lia|]. split; [lia|].
        intros a b H. destruct a as [|a1 a]; cbn [app] in H.
        -- injection H as H _. subst c. discriminate.
        -- injection H as _ H. exact (Hno a b H).
Qed.

Lemma htmlToText_tidy (html : jsstring) :
  let t := htmlToText html in
  ~ In 13%N t
  /\ (forall a b, t <> a ++ [10; 10; 10]%N ++ b)
  /\ trim t = t.
Proof.
  cbv zeta. unfold htmlToText. cbv zeta.
  match goal with
  | |- context [replaceAll (Chr (only 13)) [] ?x] => set (s12 := x)
  end.
  set (s13 := replaceAll (Chr (only 13)) [] s12).
  set (s14 := replaceAll (Seq (plus (Chr (oneOf [32%N; 9%N]))) (Chr (only 10)))
                [10%N] s13).
  set (s15 := replaceAll (atLeast 3 (Chr (only 10))) [10%N; 10%N] s14).
  destruct (trim_within s15) as (a0 & b0 & Hs).
  assert (H13 : Forall (fun c => c <> 13%N) s13).
  { unfold s13, replaceAll, replaceWith.
    rewrite (replaceFuel_chr _ _ s12) by apply Nat.lt_succ_diag_r.
    apply Forall_forall. intros c Hc. apply list_elem_of_In, in_flat_map in Hc.
    destruct Hc as (x & _ & Hx). destruct (only 13 x) eqn:Hox; [destruct Hx|].
    destruct Hx as [<-|[]]. intros ->. discriminate. }
  assert (H14 : Forall (fun c => c <> 13%N) s14).
  { unfold s14, replaceAll, replaceWith. apply replaceFuel_Forall; [|exact H13].
    repeat constructor. discriminate. }
  assert (H15 : Forall (fun c => c <> 13%N) s15).
  { unfold s15, replaceAll, replaceWith. apply replaceFuel_Forall; [|exact H14].
    repeat constructor; discriminate. }
  assert (Hno : forall a b, s15 <> a ++ [10; 10; 10]%N ++ b).
  { unfold s15, replaceAll, replaceWith.
    pose proof (replaceFuel_blank_lines (length s14) s14 (S (length s14)) [] None
                  (Nat.le_refl _) (Nat.lt_succ_diag_r _)) as Hb.
    cbv zeta in Hb. destruct Hb as (_ & _ & Hb). exact Hb. }
  clearbody s15. clear s12 s13 s14 H13 H14.
  split; [|split].
  - intros Hin. rewrite Forall_forall in H15. apply (H15 13%N); [|reflexivity].
    apply list_elem_of_In. rewrite Hs. apply in_or_app. right.
    apply in_or_app. left. exact Hin.
  - intros a b H. apply (Hno (a0 ++ a) (b ++ b0)).
    etransitivity; [exact Hs|]. rewrite H, <- !app_assoc. reflexivity.
  - apply trim_idem.
Qed.

End PageText.

(** X16.  The text that [htmlToText] makes of a page holds no carriage
    return, nowhere three line feeds in a row (so never more than one
    empty line between two lines), and no white space at its start or
    end. *)
Theorem page_text_is_tidy :
  forall (html : jsstring),
    let t := Parser.htmlToText html in
    ~ In 13%N t
    /\ (forall a b, t <> a ++ [10; 10; 10]%N ++ b)
    /\ trim t = t
    /\ match t with c :: _ => isSpace c = false | [] => True end.
Proof.
  intros html. cbv zeta.
  destruct (htmlToText_tidy html) as (H1 & H2 & H3).
  repeat split; try assumption.
  unfold Parser.htmlToText. cbv zeta. apply trim_head.
Qed.

(** X16 at work. *)
Example text_of_a_small_page :
  Parser.htmlToText
    (str "<p>agape  </p>" ++ [13; 10; 10; 10; 10]%N ++ str "<b>love</b> &amp; more <br/>")
  = str "agape" ++ [10; 10]%N ++ str "love & more".
Proof. vm_compute. reflexivity. Qed.

(** ** Parsing a page that lacks data, and upserting twice *)




